(** * CW Doppler in customized aortic valve models: a shallow embedding

    Embedding of [AorticStenosisDopple.py]: the [Valve] geometry, the
    [Wave] velocity envelope and the band [Simulation], followed by the
    properties of the computational core.

    Numbers.  A Python [float] is a real number here: rounding is not
    modelled and signed zeros are not distinguished.  Configuration
    values (lengths, radii, area, basal velocity, dispersion) are finite
    numbers, so the geometric fields of a [Valve] are reals.  Values the
    program computes can leave the finite numbers: [np.nan] is the
    "no value" marker of [radio] and [wavepoint], and a numpy division by
    zero gives an infinity.  Those values live in [f64].  A Python
    [float] and a [numpy.float64] differ in what a division by zero does
    (the first raises [ZeroDivisionError], the second returns inf or
    nan), so a scalar that can be either carries its kind ([pynum]).

    Rounding.  Three comparisons of the program fall on a rounding
    boundary, where exact arithmetic gives an equality and binary64
    decides the branch: t against -t_acel at the onset instant of
    [wavepoint], y_ against the last contour height at the valve tip in
    [radio], and the last band boundary -(n+1) * (y_range / bands)
    against -(l1+length) in [calc_band].  The properties stated over the
    reals leave these three points out; module [B64] writes the same
    arithmetic over the kernel's binary64 floats and evaluates it there.

    Effects.  Exceptions are values of [result].  The only state is
    numpy's process-wide generator, which [Simulation.__init__] reads when
    no seed is given; [calc_band] builds its own [RandomState], whose
    variates are a function [gauss] of the seed and the index of the draw.

    Plotting and the interactive prompts are not modelled. *)

From Stdlib Require Import Reals Lra Lia ZArith List String Bool Permutation.
From Stdlib Require PrimFloat.
Import ListNotations.
Open Scope R_scope.

(* ================================================================= *)
(** ** Exceptions *)

Inductive pyerror : Type :=
| ZeroDivisionError
| TypeError
| ValueError
| UnboundLocalError
| IndexError.

Inductive result (A : Type) : Type :=
| Ok (a : A)
| Raise (e : pyerror).

Arguments Ok {A} a.
Arguments Raise {A} e.

Definition bind {A B : Type} (m : result A) (k : A -> result B) : result B :=
  match m with
  | Ok a => k a
  | Raise e => Raise e
  end.

Notation "x <- m ;; k" := (bind m (fun x => k))
  (at level 61, m at next level, right associativity).

Fixpoint mapM {A B : Type} (f : A -> result B) (l : list A) : result (list B) :=
  match l with
  | [] => Ok []
  | a :: l' => b <- f a ;; bs <- mapM f l' ;; Ok (b :: bs)
  end.

(* ================================================================= *)
(** ** Floating-point values *)

Module F64.

Inductive f64 : Type :=
| Fin (r : R)
| PInf
| NInf
| NaN.

Definition is_nan (x : f64) : bool :=
  match x with NaN => true | _ => false end.

Definition is_zero (x : f64) : bool :=
  match x with
  | Fin r => if Req_dec_T r 0 then true else false
  | _ => false
  end.

Definition fneg (x : f64) : f64 :=
  match x with
  | Fin r => Fin (- r)
  | PInf => NInf
  | NInf => PInf
  | NaN => NaN
  end.

Definition fadd (x y : f64) : f64 :=
  match x, y with
  | NaN, _ | _, NaN => NaN
  | Fin a, Fin b => Fin (a + b)
  | PInf, NInf | NInf, PInf => NaN
  | PInf, _ | _, PInf => PInf
  | NInf, _ | _, NInf => NInf
  end.

Definition fsub (x y : f64) : f64 := fadd x (fneg y).

(** An infinity of the sign of [r]; [0 * inf] is nan. *)
Definition inf_of_sign (r : R) : f64 :=
  if Req_dec_T r 0 then NaN
  else if Rlt_dec 0 r then PInf else NInf.

Definition fmul (x y : f64) : f64 :=
  match x, y with
  | NaN, _ | _, NaN => NaN
  | Fin a, Fin b => Fin (a * b)
  | Fin a, PInf | PInf, Fin a => inf_of_sign a
  | Fin a, NInf | NInf, Fin a => inf_of_sign (- a)
  | PInf, PInf | NInf, NInf => PInf
  | PInf, NInf | NInf, PInf => NInf
  end.

(** IEEE division, as numpy does it: no exception. *)
Definition fdiv (x y : f64) : f64 :=
  match x, y with
  | NaN, _ | _, NaN => NaN
  | Fin a, Fin b => if Req_dec_T b 0 then inf_of_sign a else Fin (a / b)
  | Fin _, PInf | Fin _, NInf => Fin 0
  | PInf, Fin b => if Rlt_dec b 0 then NInf else PInf
  | NInf, Fin b => if Rlt_dec b 0 then PInf else NInf
  | _, _ => NaN
  end.

(** [x ** 2] *)
Definition fsqr (x : f64) : f64 := fmul x x.

(** Comparisons: every comparison with nan is false. *)
Definition flt (x y : f64) : bool :=
  match x, y with
  | NaN, _ | _, NaN => false
  | Fin a, Fin b => if Rlt_dec a b then true else false
  | NInf, NInf => false
  | NInf, _ => true
  | _, PInf => match x with PInf => false | _ => true end
  | _, _ => false
  end.

Definition fle (x y : f64) : bool :=
  match x, y with
  | NaN, _ | _, NaN => false
  | Fin a, Fin b => if Rle_dec a b then true else false
  | NInf, _ => true
  | _, PInf => true
  | _, _ => false
  end.

Definition fgt (x y : f64) : bool := flt y x.
Definition fge (x y : f64) : bool := fle y x.

(** Division of two Python floats: a zero divisor raises. *)
Definition py_fdiv (x y : f64) : result f64 :=
  if is_zero y then Raise ZeroDivisionError else Ok (fdiv x y).

End F64.
Export F64.

(** Division of two finite Python floats. *)
Definition py_div (x y : R) : result R :=
  if Req_dec_T y 0 then Raise ZeroDivisionError else Ok (x / y).

(** A scalar together with its kind. *)
Inductive pynum : Type :=
| PyFloat (x : f64)
| NpFloat (x : f64).

Definition val (p : pynum) : f64 :=
  match p with PyFloat x | NpFloat x => x end.

(** [p ** 2] keeps the kind of [p]. *)
Definition py_sqr (p : pynum) : pynum :=
  match p with
  | PyFloat x => PyFloat (fsqr x)
  | NpFloat x => NpFloat (fsqr x)
  end.

(** [a / b]: Python's rule when both are Python floats, numpy's as soon
    as one operand is a [numpy.float64]. *)
Definition py_truediv (a b : pynum) : result pynum :=
  match a, b with
  | PyFloat x, PyFloat y => q <- py_fdiv x y ;; Ok (PyFloat q)
  | _, _ => Ok (NpFloat (fdiv (val a) (val b)))
  end.

(** What [x ** 0.5] returns for a Python float: a negative base gives a
    complex number. *)
Inductive pyscalar : Type :=
| PyReal (r : R)
| PyComplex (re im : R).

Definition py_pow_half (x : R) : pyscalar :=
  if Rlt_dec x 0 then PyComplex 0 (sqrt (- x)) else PyReal (sqrt x).

Definition py_scale (s : pyscalar) (k : R) : pyscalar :=
  match s with
  | PyReal r => PyReal (r * k)
  | PyComplex re im => PyComplex (re * k) (im * k)
  end.

(** [float(s)] *)
Definition py_float (s : pyscalar) : result R :=
  match s with
  | PyReal r => Ok r
  | PyComplex _ _ => Raise TypeError
  end.

(** [l[i]] on a Python list: negative indices count from the end. *)
Definition py_index {A : Type} (l : list A) (i : Z) : result A :=
  let len := Z.of_nat (List.length l) in
  let j := if (i <? 0)%Z then (len + i)%Z else i in
  if ((0 <=? j)%Z && (j <? len)%Z)%bool then
    match nth_error l (Z.to_nat j) with
    | Some a => Ok a
    | None => Raise IndexError
    end
  else Raise IndexError.

(** Element-wise product of two arrays of the same length. *)
Fixpoint arr_mul (xs ys : list f64) : list f64 :=
  match xs, ys with
  | x :: xs', y :: ys' => fmul x y :: arr_mul xs' ys'
  | _, _ => []
  end.

(* ================================================================= *)
(** ** Valve *)

Module Valve.

Record t : Type := mk {
  l1 : R;
  l2 : R;
  length : R;
  rad : R;
  orif : R;
  thick : R;
  shape : string;
  wall_thick : R;
  trim_factor : R;
  y_range : R;
  v_max : f64;
  alfa : R
}.

(** translates aortic valve area (cm2) into orifice radius (mm) *)
Definition ava_to_rad (ava : R) : pyscalar :=
  py_scale (py_pow_half (ava / PI)) 10.

(** [Valve.__init__] *)
Definition init (l1 l2 length rad ava thick : R) (shape : string)
    (wall_thick trim_factor : R) : result t :=
  let l2 := if Rgt_dec l2 0 then l2 else l1 in
  orif <- py_float (ava_to_rad ava) ;;
  Ok {| l1 := l1; l2 := l2; length := length; rad := rad; orif := orif;
        thick := thick; shape := shape; wall_thick := wall_thick;
        trim_factor := trim_factor; y_range := length + l1;
        v_max := Fin 0; alfa := 0 |}.

(** [Valve()] with every argument left at its default. *)
Definition default : result t := init 10 10 5 10 (8 / 10) 1 "cusp" 2 0.

Definition set_sim (v : t) (vmax : f64) (a : R) : t :=
  {| l1 := l1 v; l2 := l2 v; length := length v; rad := rad v;
     orif := orif v; thick := thick v; shape := shape v;
     wall_thick := wall_thick v; trim_factor := trim_factor v;
     y_range := y_range v; v_max := vmax; alfa := a |}.

Definition puntos : nat := 10.

(** The x coordinates of the inner contour, base to tip. *)
Definition puntos_x (v : t) : list R :=
  let valv_xlen := rad v - orif v in
  map (fun i => rad v - valv_xlen * (INR i / INR (puntos - 1))) (seq 0 puntos).

(** returns inner contour points (coordinates) of the valve: the row of
    x and the row of y. *)
Definition line (v : t) : result (list f64 * list f64) :=
  let valv_xlen := rad v - orif v in
  let xs := puntos_x v in
  puntos_y <-
    (if String.eqb (shape v) "cusp" then
       let factor := trim_factor v in
       _x_len <- py_div valv_xlen (1 - factor) ;;
       let _x0 := rad v - _x_len in
       let _x := fun x => x - _x0 in
       let _y_len := _x_len ^ 2 in
       let _x1 := _x (rad v - valv_xlen) in
       let y_len := _y_len - _x1 ^ 2 in
       Ok (Some (map (fun x =>
                 fsub (fdiv (fmul (Fin (_x x ^ 2)) (Fin (length v))) (Fin y_len))
                      (Fin (length v))) xs))
     else Ok None) ;;
  puntos_y <-
    (if String.eqb (shape v) "line" then
       k <- py_div (length v) valv_xlen ;;
       Ok (Some (map (fun x => Fin (- (rad v - x) * k)) xs))
     else Ok puntos_y) ;;
  match puntos_y with
  | Some ys => Ok (map Fin xs, ys)
  | None => Raise UnboundLocalError
  end.

(** [np.array([xs, ys]).T]: the rows of the transposed array. *)
Definition transpose (a : list f64 * list f64) : list (f64 * f64) :=
  combine (fst a) (snd a).

(** The loop of [radio] over consecutive contour points; [None] when no
    interval is selected. *)
Fixpoint radio_loop (y_ : R) (contour : list (f64 * f64)) : option f64 :=
  match contour with
  | (x1, y1) :: (((x2, y2) :: _) as rest) =>
      if flt (Fin y_) y2 then radio_loop y_ rest
      else if fge (Fin y_) y2 then
        Some (fadd x1 (fmul (fdiv (fsub (Fin y_) y1) (fsub y2 y1)) (fsub x2 x1)))
      else radio_loop y_ rest
  | _ => None
  end.

(** for a given section or level (height, y coordinates) from LVOT base
    (y=0) to valve cusp (y= -(l1+length)), returns the radius *)
Definition radio (v : t) (y : R) : result pynum :=
  if Rgt_dec y 0 then Ok (PyFloat NaN)
  else if Rge_dec y (- l1 v) then Ok (PyFloat (Fin (rad v)))
  else if Rge_dec y (- (l1 v + length v)) then
    ln <- line v ;;
    let contour := transpose ln in
    let y_ := y - (- l1 v) in
    match radio_loop y_ contour with
    | Some r => Ok (NpFloat r)
    | None => Ok (PyFloat (Fin 0))
    end
  else if Rge_dec y (- (l1 v + length v + 2)) then Ok (PyFloat (Fin (orif v)))
  else Ok (PyFloat NaN).

(** The leaflet outline: the inner line, then the same line walked back
    and lowered by [thick]. *)
Definition contour (v : t) : result (list f64 * list f64) :=
  line_1 <- line v ;;
  let line_2 :=
    (rev (fst line_1), map (fun y => fsub y (Fin (thick v))) (rev (snd line_1))) in
  Ok (fst line_1 ++ fst line_2, snd line_1 ++ snd line_2).

(** creates right wall and valve contour coordinates, the left will be
    created as a mirror *)
Definition right_wall (v : t) : result (list f64 * list f64) :=
  valve_points <- contour v ;;
  let valve_points :=
    (fst valve_points, map (fun y => fsub y (Fin (l1 v))) (snd valve_points)) in
  let roof := ([Fin (rad v + wall_thick v); Fin (rad v)], [Fin 0; Fin 0]) in
  let base := - (l1 v + length v + l2 v) in
  let basement :=
    ([Fin (rad v); Fin (rad v + wall_thick v)], [Fin base; Fin base]) in
  Ok (fst roof ++ fst valve_points ++ fst basement,
      snd roof ++ snd valve_points ++ snd basement).

End Valve.

(* ================================================================= *)
(** ** numpy helpers *)

(** Smallest integer not below [x]. *)
Definition Rceil (x : R) : Z := (1 - up (- x))%Z.

(** [np.arange(0, stop, step)]: [ceil(stop/step)] values [0, step, ...];
    a zero step raises. *)
Definition np_arange (stop step : R) : result (list R) :=
  if Req_dec_T step 0 then Raise ZeroDivisionError
  else Ok (map (fun i => INR i * step) (seq 0 (Z.to_nat (Rceil (stop / step))))).

(* ================================================================= *)
(** ** Wave *)

Module Wave.

Record t : Type := mk {
  peak : f64;
  t_acel : f64;
  t_eyec : f64;
  t_decel : f64;
  time : R
}.

(** The two branches of the acceleration time. *)
Definition t_acel_low (peak : f64) : f64 :=
  fadd (Fin 70) (fmul (Fin 2) (fsqr (fdiv peak (Fin 100)))).
Definition t_acel_high : f64 := Fin 168.

Definition calc_t_acel (peak : f64) : result f64 :=
  let result := if fle peak (Fin 700) then Some (t_acel_low peak) else None in
  let result := if fgt peak (Fin 700) then Some t_acel_high else result in
  match result with
  | Some r => Ok r
  | None => Raise UnboundLocalError
  end.

(** The two branches of the ejection time. *)
Definition t_eyec_low (peak : f64) : f64 :=
  fadd (Fin 240) (fmul (Fin (143 / 1000)) peak).
Definition t_eyec_high : f64 := Fin 340.

Definition calc_t_eyec (peak : f64) : result f64 :=
  let result := if flt peak (Fin 700) then Some (t_eyec_low peak) else None in
  let result := if fge peak (Fin 700) then Some t_eyec_high else result in
  match result with
  | Some r => Ok r
  | None => Raise UnboundLocalError
  end.

(** [Wave.__init__] *)
Definition init (peak : f64) (time : R) : result t :=
  t_acel <- calc_t_acel peak ;;
  t_eyec <- calc_t_eyec peak ;;
  Ok {| peak := peak; t_acel := t_acel; t_eyec := t_eyec;
        t_decel := fsub t_eyec t_acel; time := time |}.

Definition default_time : R := 600.
Definition default_q_eyec : R := 80.

(** returns velocity for a given milisecond *)
Definition wavepoint (w : t) (ms q_eyec : R) : result f64 :=
  let t := fsub (Fin ms) (fadd (Fin q_eyec) (t_acel w)) in
  k_1 <- py_fdiv (peak w) (fsqr (t_acel w)) ;;
  k_2 <- py_fdiv (peak w) (fsqr (t_decel w)) ;;
  if flt t (fneg (t_acel w)) then Ok NaN
  else if fle t (Fin 0) then Ok (fsub (fmul k_1 (fsqr t)) (peak w))
  else if flt t (t_decel w) then Ok (fsub (fmul k_2 (fsqr t)) (peak w))
  else Ok NaN.

(** return an one-dimensional array with only time coordinates *)
Definition get_timeline (w : t) (sep_ms : R) : result (list R) :=
  np_arange (time w + 1) sep_ms.

(** returns an np array with the outer (max velocity) Doppler coordinates *)
Definition get_outer_wave (w : t) (sep_ms : R) : result (list f64) :=
  timeline <- np_arange (time w + 1) sep_ms ;;
  mapM (fun ms => wavepoint w ms default_q_eyec) timeline.

(** returns Doppler tracing produced by a given velocity; trace is
    inferred from the outer contour in proportion *)
Definition wave (w : t) (veloc : pynum) (sep_ms : R) : result (list f64) :=
  escala <- py_truediv veloc (PyFloat (peak w)) ;;
  outer <- get_outer_wave w sep_ms ;;
  Ok (map (fun v => fmul v (val escala)) outer).

End Wave.

(* ================================================================= *)
(** ** Simulation *)

Module Simulation.

Record t : Type := mk {
  bands : Z;
  band_groups : Z;
  basal_velocity : R;
  group_limits : list Z;
  method : string;
  valves : list Valve.t;
  dispersion : R;
  sep_ms : R;
  seed : Z;
  v_max_scale : f64
}.

(** A 2 x N array: the row of x and the row of y. *)
Definition arr2 : Type := (list f64 * list f64)%type.

Definition arr2_empty : arr2 := ([], []).

(** [np.append(a, b, axis=1)] *)
Definition arr2_append (a b : arr2) : arr2 :=
  (fst a ++ fst b, snd a ++ snd b).

(** [a[:, 1:]] *)
Definition arr2_tail (a : arr2) : arr2 := (tl (fst a), tl (snd a)).

(** The body of the [for i in range(g)] loop of [band_grouping], run
    [g] times from the running [limit] and [resto]. *)
Fixpoint grouping_loop (g : nat) (n limit resto : Z) : list Z :=
  match g with
  | O => []
  | S g' =>
      let limit := (limit + n)%Z in
      if (resto >? 0)%Z
      then (limit + 1)%Z :: grouping_loop g' n (limit + 1)%Z (resto - 1)%Z
      else limit :: grouping_loop g' n limit resto
  end.

(** Distributes bands between groups; in case of non exact division,
    remains are distributed among the first groups.  Returns the list of
    the cutoff limits of groups. *)
Definition band_grouping (b g : Z) : result (list Z) :=
  if (g =? 0)%Z then Raise ZeroDivisionError
  else
    let n := (b / g)%Z in
    let resto := (b mod g)%Z in
    Ok (grouping_loop (Z.to_nat g) n 0%Z resto).

(** for a given radius and valve object and a basal velocity, returns
    velocity based on continuity equation. *)
Definition v_conteq (radio : pynum) (valve : Valve.t) (basal_velocity : R)
  : result pynum :=
  let basal_v := basal_velocity in
  let rad_LVOT := Valve.rad valve in
  py_truediv (PyFloat (Fin (basal_v * rad_LVOT ^ 2))) (py_sqr radio).

(** [max(l)] on a list of floats. *)
Definition py_max (l : list f64) : result f64 :=
  match l with
  | [] => Raise ValueError
  | x :: l' => Ok (fold_left (fun m y => if fgt y m then y else m) l' x)
  end.

(** What one band computes: the two radii, the band velocity, the ROI
    segment and the scatter points. *)
Record band_trace : Type := mk_trace {
  bt_radio1 : pynum;
  bt_radio2 : pynum;
  bt_vel : pynum;
  bt_contour : arr2;
  bt_points : arr2
}.

Section Engine.

(** The state of numpy's process-wide generator, and the draw
    [np.random.randint(0, 9999, 1)] from it. *)
Variable G : Type.
Variable randint : G -> Z * G.

(** [gauss s i]: the [i]-th standard normal variate of a
    [RandomState] seeded with [s]. *)
Variable gauss : Z -> nat -> R.

(** [np.random.RandomState(seed).normal(loc, scale, size)] *)
Definition RandomState_normal (seed : Z) (loc scale : R) (size : nat)
  : result (list f64) :=
  if ((seed <? 0)%Z || (2 ^ 32 <=? seed)%Z)%bool then Raise ValueError
  else if Rlt_dec scale 0 then Raise ValueError
  else Ok (map (fun i => Fin (loc + scale * gauss seed i)) (seq 0 size)).

(** The body of the [for valve in self.valves] loop of [__init__]. *)
Definition init_valve (bands : Z) (basal_velocity : R) (sim_alfa : option R)
    (valve : Valve.t) : result Valve.t :=
  vmax <- v_conteq (PyFloat (Fin (Valve.orif valve))) valve basal_velocity ;;
  a <- match sim_alfa with
       | None => py_div 12 (IZR bands)
       | Some a => Ok a
       end ;;
  Ok (Valve.set_sim valve (val vmax) a).

(** [Simulation.__init__]; the generator state is returned as the
    constructor leaves it. *)
Definition init (bands : Z) (basal_velocity : R) (band_groups : Z)
    (method : string) (valves : list Valve.t) (seed : option Z)
    (dispersion : R) (sim_alfa : option R) (g : G) : result t * G :=
  match band_grouping bands band_groups with
  | Raise e => (Raise e, g)
  | Ok limits =>
      let '(seed, g) :=
        match seed with
        | Some s => (s, g)
        | None => randint g
        end in
      (vs <- mapM (init_valve bands basal_velocity sim_alfa) valves ;;
       scale <- py_max (map Valve.v_max vs) ;;
       Ok {| bands := bands; band_groups := band_groups;
             basal_velocity := basal_velocity; group_limits := limits;
             method := method; valves := vs; dispersion := dispersion;
             sep_ms := 1; seed := seed; v_max_scale := scale |}, g)
  end.

(** for a given band, the locals of [calc_band] *)
Definition calc_band_trace (s : t) (n : Z) (valve : Valve.t)
  : result band_trace :=
  interval <- py_div (Valve.y_range valve) (IZR (bands s)) ;;
  wave <- Wave.init (Valve.v_max valve) Wave.default_time ;;
  let y_1 := - IZR n * interval in
  let y_2 := - IZR (n + 1) * interval in
  radio1 <- Valve.radio valve y_1 ;;
  radio2 <- Valve.radio valve y_2 ;;
  let radio := radio2 in
  vel <- v_conteq radio valve (basal_velocity s) ;;
  let contour := ([val radio1; val radio2], [Fin y_1; Fin y_2]) in
  x_points <- Wave.get_timeline wave (sep_ms s) ;;
  let x_points := filter (fun x => negb (is_nan x)) (map Fin x_points) in
  y_points <- Wave.wave wave vel (sep_ms s) ;;
  aleatory_dispersion <-
    RandomState_normal (seed s + n) 1 (dispersion s) (List.length y_points) ;;
  let y_points := arr_mul y_points aleatory_dispersion in
  if Nat.eqb (List.length x_points) (List.length y_points)
  then Ok {| bt_radio1 := radio1; bt_radio2 := radio2; bt_vel := vel;
             bt_contour := contour; bt_points := (x_points, y_points) |}
  else Raise ValueError.

(** for a given band, returns the ROI coordinates in the valve scheme
    and the scatter points for CW tracing *)
Definition calc_band (s : t) (n : Z) (valve : Valve.t) : result (arr2 * arr2) :=
  tr <- calc_band_trace s n valve ;;
  Ok (bt_contour tr, bt_points tr).

(** The [for n in range(band_0, band_n)] loop of [calc_group] over the
    remaining band indices [ns]. *)
Fixpoint group_loop (s : t) (valve : Valve.t) (band_0 : Z) (ns : list Z)
    (cont points : arr2) : result (arr2 * arr2) :=
  match ns with
  | [] => Ok (cont, points)
  | n :: ns' =>
      cp <- calc_band s n valve ;;
      let new_cont := if (n >? band_0)%Z then arr2_tail (fst cp) else fst cp in
      group_loop s valve band_0 ns'
        (arr2_append cont new_cont) (arr2_append points (snd cp))
  end.

(** [range(a, b)] *)
Definition py_range (a b : Z) : list Z :=
  map (fun k => (a + Z.of_nat k)%Z) (seq 0 (Z.to_nat (b - a))).

(** returns data (rois, velocity points) for the specified group.  If the
    group number equals or surpass actual number groups, returns complete
    data for the figure *)
Definition calc_group (s : t) (group : Z) (valve : option Valve.t)
  : result (arr2 * arr2) :=
  valve <- match valve with
           | None => py_index (valves s) 0
           | Some v => Ok v
           end ;;
  let limits := group_limits s in
  v_max <- v_conteq (PyFloat (Fin (Valve.orif valve))) valve (basal_velocity s) ;;
  range <-
    (if (group >=? band_groups s)%Z then Ok (0%Z, bands s)
     else
       band_0 <- (if (group =? 0)%Z then Ok 0%Z else py_index limits (group - 1)) ;;
       band_n <- py_index limits group ;;
       Ok (band_0, band_n)) ;;
  let band_0 := fst range in
  let band_n := snd range in
  cp <- group_loop s valve band_0 (py_range band_0 band_n) arr2_empty arr2_empty ;;
  let cont := fst cp in
  let left_cont := (map fneg (rev (fst cont)), rev (snd cont)) in
  let polig := arr2_append cont left_cont in
  Ok (polig, snd cp).

End Engine.

End Simulation.

(* ================================================================= *)
(** * Specification-side definitions *)

(** The continuity equation as the specification words it,
    [basal_velocity * (rad / radio2)^2], in IEEE arithmetic. *)
Definition continuity_spec (basal_velocity rad : R) (radio2 : f64) : f64 :=
  fmul (Fin basal_velocity) (fsqr (fdiv (Fin rad) radio2)).

(** The per-group band counts read off the cumulative cutoffs. *)
Fixpoint group_counts (prev : Z) (limits : list Z) : list Z :=
  match limits with
  | [] => []
  | l :: ls => (l - prev)%Z :: group_counts l ls
  end.

Definition zsum (l : list Z) : Z := fold_right Z.add 0%Z l.

(** One run of the program on one valve of the configuration:
    construct the simulation from the generator state [g], then compute
    the data of [group] for the [i]-th valve, as [plot_group] does. *)
Definition run_simulation (G : Type) (randint : G -> Z * G)
    (gauss : Z -> nat -> R) (bands : Z) (basal_velocity : R) (band_groups : Z)
    (method : string) (valves : list Valve.t) (seed : option Z)
    (dispersion : R) (sim_alfa : option R) (g : G) (group i : Z)
  : result (Simulation.arr2 * Simulation.arr2) :=
  s <- fst (Simulation.init G randint bands basal_velocity band_groups method
              valves seed dispersion sim_alfa g) ;;
  valve <- py_index (Simulation.valves s) i ;;
  Simulation.calc_group gauss s group (Some valve).

(* ================================================================= *)
(** * Closed forms on finite values *)

(** The acceleration time as a real function of a finite peak. *)
Definition t_acel_R (p : R) : R :=
  if Rle_dec p 700 then 70 + 2 * (p / 100) ^ 2 else 168.

(** The ejection time as a real function of a finite peak. *)
Definition t_eyec_R (p : R) : R :=
  if Rlt_dec p 700 then 240 + 143 / 1000 * p else 340.

(** [wavepoint] on finite times, as a function of the reals involved. *)
Definition wavepoint_R (p ta td ms q : R) : f64 :=
  let t := ms + - (q + ta) in
  if Rlt_dec t (- ta) then NaN
  else if Rle_dec t 0 then Fin (p / (ta * ta) * (t * t) + - p)
  else if Rlt_dec t td then Fin (p / (td * td) * (t * t) + - p)
  else NaN.

(** The time axis of a default wave: 0, 1, ..., 600. *)
Definition timeline601 : list R :=
  map (fun i => INR i * 1) (seq 0 (Z.to_nat 601)).

(** The outer wave of a default wave of finite peak [p]. *)
Definition outer601 (p : R) : list f64 :=
  map (fun ms => wavepoint_R p (t_acel_R p) (t_eyec_R p + - t_acel_R p) ms 80)
      timeline601.

(** The value of [vel / peak] for a non-zero peak. *)
Definition escala_of (vel : pynum) (p : R) : f64 := fdiv (val vel) (Fin p).

(** The draws of [RandomState(seed).normal(1, sd, size)]. *)
Definition normal_draws (gauss : Z -> nat -> R) (seed : Z) (sd : R) (size : nat)
  : list f64 :=
  map (fun i => Fin (1 + sd * gauss seed i)) (seq 0 size).

(** A contour of finite points, as [radio] sees it after [line().T]. *)
Definition lift_contour (c : list (R * R)) : list (f64 * f64) :=
  map (fun q => (Fin (fst q), Fin (snd q))) c.

(** The x coordinates never increase from base to tip and none is
    negative. *)
Fixpoint contour_ok (c : list (R * R)) : Prop :=
  match c with
  | [] => True
  | q1 :: rest =>
      (0 <= fst q1) /\
      (match rest with
       | [] => True
       | q2 :: _ => fst q2 <= fst q1
       end) /\
      contour_ok rest
  end.

(** The radius [radio] takes from its loop: the interpolated value, or
    the initial [float()] when no interval was selected. *)
Definition radius_of (o : option f64) : pynum :=
  match o with
  | Some r => NpFloat r
  | None => PyFloat (Fin 0)
  end.

(** The amplitude [y_len] that [line] computes for a cusp. *)
Definition cusp_y_len (v : Valve.t) : R :=
  let valv_xlen := Valve.rad v - Valve.orif v in
  let _x_len := valv_xlen / (1 - Valve.trim_factor v) in
  let _x0 := Valve.rad v - _x_len in
  let _x1 := Valve.rad v - valv_xlen - _x0 in
  _x_len ^ 2 - _x1 ^ 2.

(** The y coordinate [line] gives to the contour point of abscissa [x]
    on a cusp. *)
Definition cusp_y (v : Valve.t) (x : R) : R :=
  let valv_xlen := Valve.rad v - Valve.orif v in
  let _x_len := valv_xlen / (1 - Valve.trim_factor v) in
  let _x0 := Valve.rad v - _x_len in
  (x - _x0) ^ 2 * Valve.length v / cusp_y_len v + - Valve.length v.

(** The same on a straight leaflet. *)
Definition line_y (v : Valve.t) (x : R) : R :=
  - (Valve.rad v - x) * (Valve.length v / (Valve.rad v - Valve.orif v)).

(* ================================================================= *)
(** * Configurations used as examples *)

(** [Valve(ava=pi/4)]: every other argument at its default, orifice
    radius 5 mm. *)
Definition valve_ex : Valve.t :=
  {| Valve.l1 := 10; Valve.l2 := 10; Valve.length := 5; Valve.rad := 10;
     Valve.orif := 5; Valve.thick := 1; Valve.shape := "cusp";
     Valve.wall_thick := 2; Valve.trim_factor := 0; Valve.y_range := 15;
     Valve.v_max := Fin 0; Valve.alfa := 0 |}.

(** [valve_ex] as [Simulation(valves=[valve_ex], seed=0)] leaves it. *)
Definition valve_ex_sim : Valve.t := Valve.set_sim valve_ex (Fin 440) (12 / 80).

Definition sim_ex : Simulation.t :=
  {| Simulation.bands := 80; Simulation.band_groups := 10;
     Simulation.basal_velocity := 110;
     Simulation.group_limits := [8; 16; 24; 32; 40; 48; 56; 64; 72; 80]%Z;
     Simulation.method := "scatter"; Simulation.valves := [valve_ex_sim];
     Simulation.dispersion := 5 / 100; Simulation.sep_ms := 1;
     Simulation.seed := 0; Simulation.v_max_scale := Fin 440 |}.

(** [Valve(ava=pi/4, trim_factor=2)] *)
Definition valve_trim2 : Valve.t :=
  {| Valve.l1 := 10; Valve.l2 := 10; Valve.length := 5; Valve.rad := 10;
     Valve.orif := 5; Valve.thick := 1; Valve.shape := "cusp";
     Valve.wall_thick := 2; Valve.trim_factor := 2; Valve.y_range := 15;
     Valve.v_max := Fin 0; Valve.alfa := 0 |}.

(** [Valve()]: the default valve, area 0.8 cm2. *)
Definition orif_default : R := sqrt (8 / 10 / PI) * 10.

Definition valve_default : Valve.t :=
  {| Valve.l1 := 10; Valve.l2 := 10; Valve.length := 5; Valve.rad := 10;
     Valve.orif := orif_default; Valve.thick := 1; Valve.shape := "cusp";
     Valve.wall_thick := 2; Valve.trim_factor := 0; Valve.y_range := 5 + 10;
     Valve.v_max := Fin 0; Valve.alfa := 0 |}.

Definition v_max_default : R := 110 * 10 ^ 2 / (orif_default * orif_default).

(** The default valve and the default simulation on it, with seed 0. *)
Definition valve_default_sim : Valve.t :=
  Valve.set_sim valve_default (Fin v_max_default) (12 / 80).

Definition sim_default : Simulation.t :=
  {| Simulation.bands := 80; Simulation.band_groups := 10;
     Simulation.basal_velocity := 110;
     Simulation.group_limits := [8; 16; 24; 32; 40; 48; 56; 64; 72; 80]%Z;
     Simulation.method := "scatter"; Simulation.valves := [valve_default_sim];
     Simulation.dispersion := 5 / 100; Simulation.sep_ms := 1;
     Simulation.seed := 0; Simulation.v_max_scale := Fin v_max_default |}.

(** A generator whose standard normal variates are all 0, and the
    process-wide generator reduced to one state. *)
Definition gauss_zero : Z -> nat -> R := fun _ _ => 0.
Definition randint_zero : unit -> Z * unit := fun g => (0%Z, g).

(** Invert one [bind] of a hypothesis [x <- m ;; k = Ok r]. *)
Ltac bind_inv H :=
  match type of H with
  | bind ?m _ = Ok _ =>
      let x := fresh "x" in
      let E := fresh "E" in
      destruct m as [x|] eqn:E; [cbn [bind] in H | discriminate H]
  end.


(* ================================================================= *)
(** * The arithmetic of the program in binary64 *)

(** The functions below are those of the source once more, operation by
    operation in the order Python evaluates them, over the kernel's
    binary64 floats: every [+], [-], [*], [/] rounds to nearest even as
    the hardware does, a comparison with nan is false, and [x ** 2] is
    the correctly rounded square.  An int operand is converted exactly. *)
Module B64.

Import PrimFloat.
Local Open Scope float_scope.

(** [float(n)] for an int [n]; exact below 2^53. *)
Fixpoint float_of_pos (p : positive) : float :=
  match p with
  | xH => 1
  | xO q => 2 * float_of_pos q
  | xI q => 2 * float_of_pos q + 1
  end.

Definition float_of_Z (z : Z) : float :=
  match z with
  | Z0 => 0
  | Zpos p => float_of_pos p
  | Zneg p => - float_of_pos p
  end.

(** [x ** 2] *)
Definition sqr (x : float) : float := x * x.

(** Division of two Python floats: a zero divisor raises. *)
Definition py_fdiv (x y : float) : result float :=
  if y =? 0 then Raise ZeroDivisionError else Ok (x / y).

(** *** Wave *)

Record wave_t : Type := mk_wave {
  peak : float;
  t_acel : float;
  t_eyec : float;
  t_decel : float;
  time : float
}.

Definition calc_t_acel (peak : float) : result float :=
  let result := if peak <=? 700 then Some (70 + 2 * sqr (peak / 100)) else None in
  let result := if 700 <? peak then Some 168 else result in
  match result with
  | Some r => Ok r
  | None => Raise UnboundLocalError
  end.

(** The literal 0.143 is the binary64 number nearest to it. *)
Definition calc_t_eyec (peak : float) : result float :=
  let result :=
    if peak <? 700 then Some (240 + 0x1.24dd2f1a9fbe7p-3 * peak) else None in
  let result := if 700 <=? peak then Some 340 else result in
  match result with
  | Some r => Ok r
  | None => Raise UnboundLocalError
  end.

(** [Wave.__init__] *)
Definition wave_init (peak time : float) : result wave_t :=
  t_acel <- calc_t_acel peak ;;
  t_eyec <- calc_t_eyec peak ;;
  Ok {| peak := peak; t_acel := t_acel; t_eyec := t_eyec;
        t_decel := t_eyec - t_acel; time := time |}.

(** returns velocity for a given milisecond *)
Definition wavepoint (w : wave_t) (ms q_eyec : float) : result float :=
  let t := ms - (q_eyec + t_acel w) in
  k_1 <- py_fdiv (peak w) (sqr (t_acel w)) ;;
  k_2 <- py_fdiv (peak w) (sqr (t_decel w)) ;;
  if t <? - t_acel w then Ok nan
  else if t <=? 0 then Ok (k_1 * sqr t - peak w)
  else if t <? t_decel w then Ok (k_2 * sqr t - peak w)
  else Ok nan.

(** [Wave(peak).wavepoint(ms)] for an int peak and an int instant, with
    the default q_eyec = 80. *)
Definition wavepoint_at (peak ms : Z) : result float :=
  w <- wave_init (float_of_Z peak) (float_of_Z 600) ;;
  wavepoint w (float_of_Z ms) (float_of_Z 80).

(** Whether the onset instant ms = q_eyec = 80 of [Wave(peak)] is
    undefined. *)
Definition onset_lost (peak : Z) : bool :=
  match wavepoint_at peak 80 with
  | Ok v => is_nan v
  | Raise _ => false
  end.

(** *** Valve *)

(** A scalar with its kind: a Python float or a numpy float64. *)
Inductive num : Type :=
| Py (x : float)
| Np (x : float).

Record valve_t : Type := mk_valve {
  l1 : float;
  length : float;
  rad : float;
  orif : float;
  shape : string;
  trim_factor : float;
  y_range : float
}.

(** The fields of these that [Valve.__init__] sets, given the orifice
    radius that [ava_to_rad] returned. *)
Definition valve_init (l1 length rad orif : float) (shape : string)
    (trim_factor : float) : valve_t :=
  {| l1 := l1; length := length; rad := rad; orif := orif; shape := shape;
     trim_factor := trim_factor; y_range := length + l1 |}.

Definition puntos_x (v : valve_t) : list float :=
  let valv_xlen := rad v - orif v in
  map (fun i => rad v - valv_xlen * (float_of_Z (Z.of_nat i) / 9)) (seq 0 10).

(** returns inner contour points (coordinates) of the valve *)
Definition line (v : valve_t) : result (list float * list float) :=
  let valv_xlen := rad v - orif v in
  let xs := puntos_x v in
  puntos_y <-
    (if String.eqb (shape v) "cusp" then
       let factor := trim_factor v in
       _x_len <- py_fdiv valv_xlen (1 - factor) ;;
       let _x0 := rad v - _x_len in
       let _x := fun x => x - _x0 in
       let _y_len := sqr _x_len in
       let _x1 := _x (rad v - valv_xlen) in
       let y_len := _y_len - sqr _x1 in
       Ok (Some (map (fun x => sqr (_x x) * length v / y_len - length v) xs))
     else Ok None) ;;
  puntos_y <-
    (if String.eqb (shape v) "line" then
       k <- py_fdiv (length v) valv_xlen ;;
       Ok (Some (map (fun x => - (rad v - x) * k) xs))
     else Ok puntos_y) ;;
  match puntos_y with
  | Some ys => Ok (xs, ys)
  | None => Raise UnboundLocalError
  end.

Fixpoint radio_loop (y_ : float) (contour : list (float * float)) : option float :=
  match contour with
  | (x1, y1) :: (((x2, y2) :: _) as rest) =>
      if y_ <? y2 then radio_loop y_ rest
      else if y2 <=? y_ then Some (x1 + ((y_ - y1) / (y2 - y1)) * (x2 - x1))
      else radio_loop y_ rest
  | _ => None
  end.

(** for a given section or level, returns the radius *)
Definition radio (v : valve_t) (y : float) : result num :=
  if 0 <? y then Ok (Py nan)
  else if - l1 v <=? y then Ok (Py (rad v))
  else if - (l1 v + length v) <=? y then
    ln <- line v ;;
    let contour := combine (fst ln) (snd ln) in
    let y_ := y - (- l1 v) in
    match radio_loop y_ contour with
    | Some r => Ok (Np r)
    | None => Ok (Py 0)
    end
  else if - (l1 v + length v + 2) <=? y then Ok (Py (orif v))
  else Ok (Py nan).

(** The height of the valve tip, as [radio] writes it. *)
Definition tip_height (v : valve_t) : float := - (l1 v + length v).

(** *** Simulation *)

Definition v_conteq (radio : num) (v : valve_t) (basal_velocity : float)
  : result float :=
  let basal_v := basal_velocity in
  let rad_LVOT := rad v in
  match radio with
  | Py x => py_fdiv (basal_v * sqr rad_LVOT) (sqr x)
  | Np x => Ok (basal_v * sqr rad_LVOT / sqr x)
  end.

(** [calc_band] up to the velocity of the band: the lower boundary y_2,
    the radius there and the velocity. *)
Definition band_velocity (v : valve_t) (v_max : float) (bands n : Z)
    (basal_velocity : float) : result (float * num * float) :=
  interval <- py_fdiv (y_range v) (float_of_Z bands) ;;
  wave <- wave_init v_max 600 ;;
  let y_1 := float_of_Z (- n) * interval in
  let y_2 := float_of_Z (- (n + 1)) * interval in
  radio1 <- radio v y_1 ;;
  radio2 <- radio v y_2 ;;
  vel <- v_conteq radio2 v basal_velocity ;;
  Ok (y_2, radio2, vel).

(** The last band of a simulation of [bands] bands on [v]: v_max as
    [Simulation.__init__] stores it, then [calc_band (bands - 1)]. *)
Definition last_band (v : valve_t) (bands : Z) (basal_velocity : float)
  : result (float * num * float) :=
  v_max <- v_conteq (Py (orif v)) v basal_velocity ;;
  band_velocity v v_max bands (bands - 1) basal_velocity.

Definition last_band_raises (v : valve_t) (bands : Z) : bool :=
  match last_band v bands 110 with
  | Raise ZeroDivisionError => true
  | _ => false
  end.

(** [Valve()]; the orifice radius is (0.8 / pi) ** 0.5 * 10 as Python
    evaluates it, 5.04626504404032. *)
Definition valve_default : valve_t :=
  valve_init 10 5 10 0x1.42f601a8c679ap+2 "cusp" 0.

(** [Valve(l1=5, length=1.2)]; 1.2 is the binary64 number nearest to it. *)
Definition valve_short : valve_t :=
  valve_init 5 0x1.3333333333333p+0 10 0x1.42f601a8c679ap+2 "cusp" 0.

(** [Valve(ava=pi/4, trim_factor=0.5)]: the orifice radius is 5.0. *)
Definition valve_trimmed : valve_t :=
  valve_init 10 5 10 5 "cusp" 0.5.

(** [Valve(l1=20, length=1, ava=pi/4, shape='blob')] *)
Definition valve_blob : valve_t :=
  valve_init 20 1 10 5 "blob" 0.

(** The band counts 100 .. 800 that the prompt accepts. *)
Definition band_counts : list Z := map Z.of_nat (seq 100 701).

(** Whether every band 0 .. bands-1 of a simulation on [v] gets a
    velocity. *)
Definition all_bands_return (v : valve_t) (bands : Z) : bool :=
  match v_conteq (Py (orif v)) v 110 with
  | Ok v_max =>
      forallb (fun n => match band_velocity v v_max bands n 110 with
                        | Ok _ => true
                        | Raise _ => false
                        end)
              (map Z.of_nat (seq 0 (Z.to_nat bands)))
  | Raise _ => false
  end.

End B64.

(* ================================================================= *)
(** * Definitions for the further properties *)

(** A finite contour that goes strictly inwards and strictly downwards
    from one point to the next. *)
Fixpoint contour_strict (c : list (R * R)) : Prop :=
  match c with
  | q1 :: rest =>
      (match rest with
       | [] => True
       | q2 :: _ => fst q2 < fst q1 /\ snd q2 < snd q1
       end) /\
      contour_strict rest
  | [] => True
  end.

(** A strictly decreasing list of numbers, none below [lo]. *)
Fixpoint desc_from (lo : R) (xs : list R) : Prop :=
  match xs with
  | [] => True
  | x :: rest =>
      (lo <= x) /\
      (match rest with
       | [] => True
       | x2 :: _ => x2 < x
       end) /\
      desc_from lo rest
  end.

(** A valve as the program builds it by default: a cusp without trim or a
    straight leaflet, an orifice narrower than the LVOT, positive valve
    length, and y_range as [__init__] computes it. *)
Definition plain_valve (v : Valve.t) : Prop :=
  ((Valve.shape v = "cusp"%string /\ Valve.trim_factor v = 0) \/
   Valve.shape v = "line"%string) /\
  0 < Valve.orif v /\ Valve.orif v < Valve.rad v /\
  0 <= Valve.l1 v /\ 0 < Valve.length v /\
  Valve.y_range v = Valve.length v + Valve.l1 v.

(** The height of the inner contour at abscissa [x], for either shape of
    a plain valve. *)
Definition plain_y (v : Valve.t) (x : R) : R :=
  if String.eqb (Valve.shape v) "line" then line_y v x else cusp_y v x.

(** Arrays appended one after the other, as [np.append(.., axis=1)] in a
    loop does from the empty array. *)
Definition arr2_concat (l : list Simulation.arr2) : Simulation.arr2 :=
  fold_left Simulation.arr2_append l Simulation.arr2_empty.

(** The numeric value of a float, when it has one. *)
Definition fin_of (x : f64) : option R :=
  match x with Fin r => Some r | _ => None end.

(** [Valve(ava=pi/4, trim_factor=0.5)] in a simulation of basal velocity
    110: the orifice radius is 5 mm and v_max 440. *)
Definition valve_trim_half : Valve.t :=
  {| Valve.l1 := 10; Valve.l2 := 10; Valve.length := 5; Valve.rad := 10;
     Valve.orif := 5; Valve.thick := 1; Valve.shape := "cusp";
     Valve.wall_thick := 2; Valve.trim_factor := 1 / 2; Valve.y_range := 5 + 10;
     Valve.v_max := Fin 440; Valve.alfa := 12 / 80 |}.

(** The radius the band loop reads at height [y]: the value of [radio]
    when it returns. *)
Definition radio_val (v : Valve.t) (y : R) : f64 :=
  match Valve.radio v y with Ok r => val r | Raise _ => NaN end.

(** The height of the [k]-th boundary between bands. *)
Definition band_y (s : Simulation.t) (v : Valve.t) (k : Z) : R :=
  - IZR k * (Valve.y_range v / IZR (Simulation.bands s)).

(** The cloud of one band, when [calc_band] returns. *)
Definition band_points (gauss : Z -> nat -> R) (s : Simulation.t) (v : Valve.t)
    (n : Z) : Simulation.arr2 :=
  match Simulation.calc_band gauss s n v with
  | Ok cp => snd cp
  | Raise _ => Simulation.arr2_empty
  end.

(** [Valve(ava=pi/4, shape='blob')] in a simulation of basal velocity
    110: a shape name that [line] does not know. *)
Definition valve_blob : Valve.t :=
  {| Valve.l1 := 10; Valve.l2 := 10; Valve.length := 5; Valve.rad := 10;
     Valve.orif := 5; Valve.thick := 1; Valve.shape := "blob";
     Valve.wall_thick := 2; Valve.trim_factor := 0; Valve.y_range := 5 + 10;
     Valve.v_max := Fin 440; Valve.alfa := 12 / 80 |}.

(* ================================================================= *)
(** * Properties *)

(** ** Arithmetic on finite values *)

Lemma fdiv_fin (a b : R) : b <> 0 -> fdiv (Fin a) (Fin b) = Fin (a / b).
Proof. intros Hb. unfold fdiv. destruct (Req_dec_T b 0); [contradiction | reflexivity]. Qed.

Lemma py_fdiv_fin (a b : R) : b <> 0 -> py_fdiv (Fin a) (Fin b) = Ok (Fin (a / b)).
Proof.
  intros Hb. unfold py_fdiv, is_zero.
  destruct (Req_dec_T b 0); [contradiction | now rewrite fdiv_fin].
Qed.

Lemma py_div_ok (a b : R) : b <> 0 -> py_div a b = Ok (a / b).
Proof. intros Hb. unfold py_div. destruct (Req_dec_T b 0); [contradiction | reflexivity]. Qed.

(** ** Wave: the derived times *)

Lemma calc_t_acel_fin (p : R) : Wave.calc_t_acel (Fin p) = Ok (Fin (t_acel_R p)).
Proof.
  unfold Wave.calc_t_acel, t_acel_R, Wave.t_acel_low, Wave.t_acel_high, fgt, flt, fle.
  rewrite fdiv_fin by lra. simpl.
  destruct (Rle_dec p 700), (Rlt_dec 700 p); try (exfalso; lra); try reflexivity.
  do 2 f_equal. ring.
Qed.

Lemma calc_t_eyec_fin (p : R) : Wave.calc_t_eyec (Fin p) = Ok (Fin (t_eyec_R p)).
Proof.
  unfold Wave.calc_t_eyec, t_eyec_R, Wave.t_eyec_low, Wave.t_eyec_high, fge, flt, fle.
  destruct (Rlt_dec p 700), (Rle_dec 700 p); try (exfalso; lra); reflexivity.
Qed.

Lemma wave_init_fin (p time : R) :
  Wave.init (Fin p) time =
  Ok {| Wave.peak := Fin p; Wave.t_acel := Fin (t_acel_R p);
        Wave.t_eyec := Fin (t_eyec_R p);
        Wave.t_decel := Fin (t_eyec_R p + - t_acel_R p); Wave.time := time |}.
Proof.
  unfold Wave.init. rewrite calc_t_acel_fin, calc_t_eyec_fin. reflexivity.
Qed.

Lemma t_acel_R_ge_70 (p : R) : 70 <= t_acel_R p.
Proof. unfold t_acel_R. destruct (Rle_dec p 700); nra. Qed.

Lemma t_decel_R_pos (p : R) : 0 < p -> 0 < t_eyec_R p + - t_acel_R p.
Proof.
  intros Hp. unfold t_acel_R, t_eyec_R.
  destruct (Rle_dec p 700), (Rlt_dec p 700); try nra.
Qed.

(** [wavepoint] on a wave whose times are finite and non-zero. *)
Lemma wavepoint_fin (p ta te td time ms q : R) :
  ta <> 0 -> td <> 0 ->
  let w := {| Wave.peak := Fin p; Wave.t_acel := Fin ta; Wave.t_eyec := Fin te;
              Wave.t_decel := Fin td; Wave.time := time |} in
  let t := ms + - (q + ta) in
  Wave.wavepoint w ms q =
  Ok (if Rlt_dec t (- ta) then NaN
      else if Rle_dec t 0 then Fin (p / (ta * ta) * (t * t) + - p)
      else if Rlt_dec t td then Fin (p / (td * td) * (t * t) + - p)
      else NaN).
Proof.
  intros Hta Htd w t. unfold Wave.wavepoint, w. cbn [Wave.peak Wave.t_acel Wave.t_decel].
  cbn [fsqr fmul fadd fsub fneg].
  rewrite !py_fdiv_fin by nra. cbn [bind].
  fold t. unfold flt, fle.
  destruct (Rlt_dec t (- ta)); [reflexivity|].
  destruct (Rle_dec t 0); [reflexivity|].
  destruct (Rlt_dec t td); reflexivity.
Qed.

(** C9: for every peak > 0 the constructed wave has
    t_decel = t_eyec - t_acel > 0, and the deceleration coefficient
    k2 = peak / t_decel^2 is computed without error. *)
Theorem wave_t_decel_positive (p time : R) :
  0 < p ->
  exists w te ta td k2,
    Wave.init (Fin p) time = Ok w /\
    Wave.t_eyec w = Fin te /\ Wave.t_acel w = Fin ta /\
    Wave.t_decel w = Fin td /\
    td = te - ta /\ 0 < td /\
    py_fdiv (Wave.peak w) (fsqr (Wave.t_decel w)) = Ok (Fin k2) /\
    k2 = p / td ^ 2.
Proof.
  intros Hp. pose proof (t_decel_R_pos p Hp) as Hd.
  set (td := t_eyec_R p + - t_acel_R p) in *.
  eexists _, (t_eyec_R p), (t_acel_R p), td, (p / (td * td)).
  split; [apply wave_init_fin|]. cbn [Wave.t_eyec Wave.t_acel Wave.t_decel Wave.peak].
  fold td. repeat split; try reflexivity; try lra.
  - cbn [fsqr fmul]. rewrite py_fdiv_fin by nra. reflexivity.
  - f_equal. ring.
Qed.

Lemma wave_t_decel_positive_witness :
  0 < 450 /\
  exists w te ta td k2,
    Wave.init (Fin 450) 600 = Ok w /\
    Wave.t_eyec w = Fin te /\ Wave.t_acel w = Fin ta /\
    Wave.t_decel w = Fin td /\
    td = te - ta /\ 0 < td /\
    py_fdiv (Wave.peak w) (fsqr (Wave.t_decel w)) = Ok (Fin k2) /\
    k2 = 450 / td ^ 2.
Proof. split; [lra | apply (wave_t_decel_positive 450 600); lra]. Defined.

(** Over exact reals and for peak > 0, [wavepoint ms q_eyec] is a
    number exactly for ms in [q_eyec, q_eyec + t_acel + t_decel): 0 at the
    onset, -peak at q_eyec + t_acel, and the undefined marker at
    q_eyec + t_acel + t_decel and everywhere outside the window. *)
Lemma wavepoint_window_exact (p time q ms : R) :
  0 < p ->
  exists w ta td,
    Wave.init (Fin p) time = Ok w /\
    Wave.t_acel w = Fin ta /\ Wave.t_decel w = Fin td /\
    (q <= ms < q + ta + td -> exists v, Wave.wavepoint w ms q = Ok (Fin v)) /\
    (~ (q <= ms < q + ta + td) -> Wave.wavepoint w ms q = Ok NaN) /\
    Wave.wavepoint w q q = Ok (Fin 0) /\
    Wave.wavepoint w (q + ta) q = Ok (Fin (- p)) /\
    Wave.wavepoint w (q + ta + td) q = Ok NaN.
Proof.
  intros Hp. pose proof (t_decel_R_pos p Hp) as Hd.
  pose proof (t_acel_R_ge_70 p) as Ha.
  set (ta := t_acel_R p) in *. set (td := t_eyec_R p + - ta) in *.
  eexists _, ta, td.
  split; [apply wave_init_fin|]. fold ta td.
  cbn [Wave.t_acel Wave.t_decel].
  split; [reflexivity|]. split; [reflexivity|].
  assert (Hta : ta <> 0) by lra. assert (Htd : td <> 0) by lra.
  repeat split.
  - intros [H1 H2]. rewrite (wavepoint_fin _ _ _ _ _ _ _ Hta Htd).
    destruct (Rlt_dec _ _); [exfalso; lra|].
    destruct (Rle_dec _ _); [eexists; reflexivity|].
    destruct (Rlt_dec _ _); [eexists; reflexivity | exfalso; lra].
  - intros H. rewrite (wavepoint_fin _ _ _ _ _ _ _ Hta Htd).
    destruct (Rlt_dec _ _); [reflexivity|].
    destruct (Rle_dec _ _); [exfalso; lra|].
    destruct (Rlt_dec _ _); [exfalso; lra | reflexivity].
  - rewrite (wavepoint_fin _ _ _ _ _ _ _ Hta Htd).
    destruct (Rlt_dec _ _); [exfalso; lra|].
    destruct (Rle_dec _ _); [| exfalso; lra].
    do 2 f_equal. field. exact Hta.
  - rewrite (wavepoint_fin _ _ _ _ _ _ _ Hta Htd).
    destruct (Rlt_dec _ _); [exfalso; lra|].
    destruct (Rle_dec _ _); [| exfalso; lra].
    do 2 f_equal. field. exact Hta.
  - rewrite (wavepoint_fin _ _ _ _ _ _ _ Hta Htd).
    destruct (Rlt_dec _ _); [exfalso; lra|].
    destruct (Rle_dec _ _); [exfalso; lra|].
    destruct (Rlt_dec _ _); [exfalso; lra | reflexivity].
Qed.

(** C10 fails in the arithmetic of the program.  For [Wave(110)] the
    onset instant ms = q_eyec = 80 lies in the window, and over exact
    reals [wavepoint] is 0 there; in binary64 q_eyec + t_acel rounds up
    to 152.42000000000002, t = 80 - 152.42000000000002 falls below
    -t_acel = -72.42, and [wavepoint] takes the first branch and returns
    the undefined marker.  The next instant, 81, is a number.  The onset
    is lost in this way for 108 of the 699 integer peaks below 700; for
    others ([Wave(190)]) it is a positive number instead of 0, and for
    [Wave(450)] it is 0. *)
Theorem wavepoint_onset_undefined :
  (exists v, B64.wavepoint_at 110 80 = Ok v /\ PrimFloat.is_nan v = true) /\
  (exists v, B64.wavepoint_at 110 81 = Ok v /\ PrimFloat.is_nan v = false /\
             PrimFloat.ltb v (B64.float_of_Z 0) = true) /\
  (exists v, B64.wavepoint_at 190 80 = Ok v /\
             PrimFloat.ltb (B64.float_of_Z 0) v = true) /\
  B64.wavepoint_at 450 80 = Ok (B64.float_of_Z 0) /\
  List.length (filter B64.onset_lost (map Z.of_nat (seq 1 699))) = 108%nat /\
  (exists w, Wave.init (Fin 110) 600 = Ok w /\
             Wave.wavepoint w 80 80 = Ok (Fin 0)).
Proof.
  split; [eexists; split; [lazy; reflexivity | reflexivity]|].
  split; [eexists; split; [lazy; reflexivity | split; reflexivity]|].
  split; [eexists; split; [lazy; reflexivity | reflexivity]|].
  split; [vm_compute; reflexivity|].
  split; [vm_compute; reflexivity|].
  destruct (wavepoint_window_exact 110 600 80 80 ltac:(lra))
    as (w & ta & td & Hw & _ & _ & _ & _ & H0 & _).
  exists w. split; [exact Hw | exact H0].
Qed.

(** ** The two time formulas at peak = 700 *)

(** C8, as stated, fails: the two branches of the acceleration time give
    the same value at the boundary. *)
Lemma time_branches_counterexample :
  ~ (Wave.t_acel_low (Fin 700) <> Wave.t_acel_high /\
     Wave.t_eyec_low (Fin 700) <> Wave.t_eyec_high).
Proof.
  intros [H _]. apply H.
  unfold Wave.t_acel_low, Wave.t_acel_high. rewrite fdiv_fin by lra.
  cbn [fsqr fmul fadd]. f_equal. field.
Qed.

(** C8 (amended): only the ejection time is discontinuous at peak = 700.
    The branches of the acceleration time agree there (both 168) and
    [calc_t_acel] is continuous at 700; the branches of the ejection time
    give 340.1 and 340, and [calc_t_eyec] jumps by more than 0.08 just
    below 700. *)
Theorem time_formulas_at_700 :
  Wave.t_acel_low (Fin 700) = Wave.t_acel_high /\
  Wave.t_eyec_low (Fin 700) = Fin (3401 / 10) /\
  Wave.t_eyec_low (Fin 700) <> Wave.t_eyec_high /\
  Wave.calc_t_acel (Fin 700) = Ok (Fin 168) /\
  Wave.calc_t_eyec (Fin 700) = Ok (Fin 340) /\
  (forall eps, 0 < eps ->
     exists delta, 0 < delta /\
       forall p, Rabs (p - 700) < delta ->
         exists a, Wave.calc_t_acel (Fin p) = Ok (Fin a) /\ Rabs (a - 168) < eps) /\
  (forall p, 6999 / 10 <= p < 700 ->
     exists e, Wave.calc_t_eyec (Fin p) = Ok (Fin e) /\ 2 / 25 < e - 340).
Proof.
  assert (Hlow : Wave.t_eyec_low (Fin 700) = Fin (3401 / 10)).
  { unfold Wave.t_eyec_low. cbn [fmul fadd]. f_equal. field. }
  repeat split.
  - unfold Wave.t_acel_low, Wave.t_acel_high. rewrite fdiv_fin by lra.
    cbn [fsqr fmul fadd]. f_equal. field.
  - exact Hlow.
  - rewrite Hlow. unfold Wave.t_eyec_high. intros H. injection H as H. lra.
  - rewrite calc_t_acel_fin. unfold t_acel_R.
    destruct (Rle_dec 700 700); [| exfalso; lra]. do 2 f_equal. field.
  - rewrite calc_t_eyec_fin. unfold t_eyec_R.
    destruct (Rlt_dec 700 700); [exfalso; lra | reflexivity].
  - intros eps Heps. exists (Rmin 1 eps). split.
    + apply Rmin_glb_lt; lra.
    + intros p Hp. exists (t_acel_R p). split; [apply calc_t_acel_fin|].
      assert (H1 : Rabs (p - 700) < 1) by (eapply Rlt_le_trans; [exact Hp | apply Rmin_l]).
      assert (H2 : Rabs (p - 700) < eps) by (eapply Rlt_le_trans; [exact Hp | apply Rmin_r]).
      apply Rabs_def2 in H1. apply Rabs_def2 in H2.
      apply Rabs_def1; unfold t_acel_R; destruct (Rle_dec p 700); nra.
  - intros p [Hp1 Hp2]. exists (t_eyec_R p). split; [apply calc_t_eyec_fin|].
    unfold t_eyec_R. destruct (Rlt_dec p 700); lra.
Qed.

(** ** Band grouping *)

Lemma grouping_loop_closed (g : nat) (n : Z) :
  forall limit resto : Z, (0 <= resto)%Z ->
  Simulation.grouping_loop g n limit resto =
  map (fun k => (limit + (Z.of_nat k + 1) * n + Z.min (Z.of_nat k + 1) resto)%Z)
      (seq 0 g).
Proof.
  induction g as [|g IH]; intros limit resto Hr; [reflexivity|].
  cbn [Simulation.grouping_loop seq map].
  rewrite <- seq_shift, map_map.
  destruct (Z.gtb_spec resto 0) as [Hpos|Hzero].
  - rewrite IH by lia. f_equal; [lia|].
    apply map_ext. intros k. lia.
  - rewrite IH by lia. f_equal; [lia|].
    apply map_ext. intros k. lia.
Qed.

Lemma group_counts_closed (n r : Z) (g : nat) : forall (start : nat),
  group_counts (Z.of_nat start * n + Z.min (Z.of_nat start) r)
    (map (fun k => (0 + (Z.of_nat k + 1) * n + Z.min (Z.of_nat k + 1) r)%Z)
         (seq start g)) =
  map (fun k => if (Z.of_nat k <? r)%Z then (n + 1)%Z else n) (seq start g).
Proof.
  induction g as [|g IH]; intros start; [reflexivity|].
  cbn [seq map group_counts]. f_equal.
  - destruct (Z.ltb_spec (Z.of_nat start) r); lia.
  - specialize (IH (S start)).
    replace (Z.of_nat (S start)) with (Z.of_nat start + 1)%Z in IH by lia.
    replace (0 + (Z.of_nat start + 1) * n + Z.min (Z.of_nat start + 1) r)%Z
      with ((Z.of_nat start + 1) * n + Z.min (Z.of_nat start + 1) r)%Z by lia.
    exact IH.
Qed.

Lemma zsum_counts (n r : Z) (g : nat) : forall (start : nat),
  zsum (map (fun k => if (Z.of_nat k <? r)%Z then (n + 1)%Z else n) (seq start g)) =
  (Z.of_nat g * n
   + (Z.max 0 (Z.min (Z.of_nat (start + g)) r - Z.of_nat start)))%Z.
Proof.
  induction g as [|g IH]; intros start.
  - cbn. lia.
  - cbn [seq map zsum fold_right]. fold (zsum (map (fun k => if (Z.of_nat k <? r)%Z then (n + 1)%Z else n) (seq (S start) g))).
    rewrite IH. destruct (Z.ltb_spec (Z.of_nat start) r); lia.
Qed.

(** C2, as stated, fails when band_groups is not positive: with no group
    the division raises, and with a negative count no cutoff is
    produced. *)
Lemma band_grouping_counterexample :
  (1 >= 1)%Z /\ (0 <= 1)%Z /\ (-1 <= 1)%Z /\
  Simulation.band_grouping 1 0 = Raise ZeroDivisionError /\
  Simulation.band_grouping 1 (-1) = Ok [] /\
  zsum (group_counts 0 []) <> 1%Z.
Proof. repeat split; try lia; try reflexivity. cbn. lia. Qed.

(** C2 (amended): for bands >= 1 and 1 <= band_groups <= bands,
    [band_grouping] returns one cumulative cutoff per group; the per-group
    counts sum to bands, every count is bands // band_groups or one more
    (so any two counts differ by at most 1), the first bands % band_groups
    groups take the extra band, and the last cutoff is bands. *)
Theorem band_grouping_balanced (b g : Z) :
  (1 <= b)%Z -> (1 <= g)%Z -> (g <= b)%Z ->
  exists limits,
    Simulation.band_grouping b g = Ok limits /\
    List.length limits = Z.to_nat g /\
    zsum (group_counts 0 limits) = b /\
    group_counts 0 limits =
      map (fun k => if (Z.of_nat k <? b mod g)%Z then (b / g + 1)%Z else (b / g)%Z)
          (seq 0 (Z.to_nat g)) /\
    (forall c c', In c (group_counts 0 limits) -> In c' (group_counts 0 limits) ->
                  (c - c' <= 1)%Z) /\
    last limits 0%Z = b.
Proof.
  intros Hb Hg Hgb.
  pose proof (Z.mod_pos_bound b g ltac:(lia)) as Hmod.
  pose proof (Z.div_mod b g ltac:(lia)) as Hdiv.
  unfold Simulation.band_grouping.
  destruct (Z.eqb_spec g 0) as [->|_]; [lia|].
  eexists. split; [reflexivity|].
  rewrite grouping_loop_closed by lia.
  assert (Hcounts :
    group_counts 0
      (map (fun k => (0 + (Z.of_nat k + 1) * (b / g) + Z.min (Z.of_nat k + 1) (b mod g))%Z)
           (seq 0 (Z.to_nat g))) =
    map (fun k => if (Z.of_nat k <? b mod g)%Z then (b / g + 1)%Z else (b / g)%Z)
        (seq 0 (Z.to_nat g))).
  { rewrite <- (group_counts_closed (b / g) (b mod g) (Z.to_nat g) 0).
    f_equal. cbn. lia. }
  repeat split.
  - now rewrite length_map, length_seq.
  - rewrite Hcounts, zsum_counts. rewrite Z2Nat.id by lia.
    replace (Z.of_nat (0 + Z.to_nat g)) with g by lia. cbn [Z.of_nat]. nia.
  - exact Hcounts.
  - intros c c'. rewrite Hcounts. rewrite !in_map_iff.
    intros [k [<- _]] [k' [<- _]].
    destruct (Z.ltb_spec (Z.of_nat k) (b mod g)), (Z.ltb_spec (Z.of_nat k') (b mod g)); lia.
  - destruct (Z.to_nat g) as [|m] eqn:Hm; [lia|].
    rewrite seq_S, map_app. cbn [map]. rewrite last_last.
    replace (Z.of_nat (0 + m)) with (g - 1)%Z by lia. nia.
Qed.

Lemma band_grouping_balanced_witness :
  exists limits,
    Simulation.band_grouping 80 10 = Ok limits /\
    List.length limits = Z.to_nat 10 /\
    zsum (group_counts 0 limits) = 80%Z /\
    group_counts 0 limits =
      map (fun k => if (Z.of_nat k <? 80 mod 10)%Z then (80 / 10 + 1)%Z else (80 / 10)%Z)
          (seq 0 (Z.to_nat 10)) /\
    (forall c c', In c (group_counts 0 limits) -> In c' (group_counts 0 limits) ->
                  (c - c' <= 1)%Z) /\
    last limits 0%Z = 80%Z.
Proof. apply (band_grouping_balanced 80 10); lia. Defined.

Example band_grouping_10_3 : Simulation.band_grouping 10 3 = Ok [4; 7; 10]%Z.
Proof. reflexivity. Qed.

(** ** Valve construction *)

Lemma ava_over_pi_neg (ava : R) : ava / PI < 0 <-> ava < 0.
Proof.
  pose proof PI_RGT_0 as Hpi.
  assert (Hinv : 0 < / PI) by (apply Rinv_0_lt_compat; lra).
  unfold Rdiv. split; intros H; nra.
Qed.

Lemma valve_init_total (l1 l2 length rad ava thick : R) (shape : string)
    (wall_thick trim_factor : R) :
  Valve.init l1 l2 length rad ava thick shape wall_thick trim_factor =
  if Rlt_dec ava 0 then Raise TypeError
  else Ok {| Valve.l1 := l1;
             Valve.l2 := if Rgt_dec l2 0 then l2 else l1;
             Valve.length := length; Valve.rad := rad;
             Valve.orif := sqrt (ava / PI) * 10;
             Valve.thick := thick; Valve.shape := shape;
             Valve.wall_thick := wall_thick;
             Valve.trim_factor := trim_factor;
             Valve.y_range := length + l1;
             Valve.v_max := Fin 0; Valve.alfa := 0 |}.
Proof.
  unfold Valve.init, Valve.ava_to_rad, py_pow_half.
  pose proof (ava_over_pi_neg ava) as Hneg.
  destruct (Rlt_dec (ava / PI) 0) as [H|H], (Rlt_dec ava 0) as [H'|H'];
    try reflexivity; exfalso; tauto.
Qed.

(** Every constructed valve has a non-negative orifice radius. *)
Lemma valve_init_orif_nonneg l1 l2 length rad ava thick shape wall_thick trim_factor v :
  Valve.init l1 l2 length rad ava thick shape wall_thick trim_factor = Ok v ->
  0 <= Valve.orif v.
Proof.
  rewrite valve_init_total. destruct (Rlt_dec ava 0); [discriminate|].
  intros H. injection H as <-. cbn [Valve.orif].
  pose proof (sqrt_pos (ava / PI)). lra.
Qed.

Lemma sqrt_quarter : sqrt (1 / 4) = 1 / 2.
Proof.
  replace (1 / 4) with ((1 / 2) * (1 / 2)) by field.
  apply sqrt_square. lra.
Qed.

(** C7, as stated, fails: a zero area, an orifice as wide as the LVOT,
    negative lengths (with l2 silently replaced by l1) and an unknown
    shape all yield a valve. *)
Lemma valve_init_counterexample :
  (exists v, Valve.init 10 10 5 10 0 1 "cusp" 2 0 = Ok v /\ Valve.orif v = 0) /\
  (exists v, Valve.init 10 10 5 10 PI 1 "cusp" 2 0 = Ok v /\
             Valve.orif v >= Valve.rad v) /\
  (exists v, Valve.init (-10) (-3) (-5) 10 (8 / 10) 1 "cusp" 2 0 = Ok v /\
             Valve.l1 v = -10 /\ Valve.l2 v = -10 /\ Valve.length v = -5) /\
  (exists v, Valve.init 10 10 5 10 (8 / 10) 1 "blob" 2 0 = Ok v /\
             Valve.shape v = "blob"%string).
Proof.
  pose proof PI_RGT_0 as Hpi.
  repeat split.
  - rewrite valve_init_total. destruct (Rlt_dec 0 0); [exfalso; lra|].
    eexists. split; [reflexivity|]. cbn [Valve.orif].
    unfold Rdiv. rewrite Rmult_0_l, sqrt_0. ring.
  - rewrite valve_init_total. destruct (Rlt_dec PI 0); [exfalso; lra|].
    eexists. split; [reflexivity|]. cbn [Valve.orif Valve.rad].
    replace (PI / PI) with 1 by (field; lra). rewrite sqrt_1. lra.
  - rewrite valve_init_total. destruct (Rlt_dec (8 / 10) 0); [exfalso; lra|].
    eexists. split; [reflexivity|]. cbn [Valve.l1 Valve.l2 Valve.length].
    destruct (Rgt_dec (-3) 0); [exfalso; lra|]. repeat split; reflexivity.
  - rewrite valve_init_total. destruct (Rlt_dec (8 / 10) 0); [exfalso; lra|].
    eexists. split; reflexivity.
Qed.

(** C7 (amended): [Valve.__init__] validates nothing.  For every area
    >= 0 (zero included), every radius, every length and every shape
    string it returns a valve, with orif = sqrt(area/pi)*10 and a
    non-positive l2 replaced by l1; the only failure is the TypeError that
    [float] raises on the complex square root of a negative area. *)
Theorem valve_init_no_validation (l1 l2 length rad ava thick : R) (shape : string)
    (wall_thick trim_factor : R) :
  (ava < 0 ->
   Valve.init l1 l2 length rad ava thick shape wall_thick trim_factor
     = Raise TypeError) /\
  (0 <= ava ->
   exists v,
     Valve.init l1 l2 length rad ava thick shape wall_thick trim_factor = Ok v /\
     Valve.l1 v = l1 /\ Valve.length v = length /\ Valve.rad v = rad /\
     Valve.shape v = shape /\ Valve.trim_factor v = trim_factor /\
     Valve.orif v = sqrt (ava / PI) * 10 /\
     Valve.y_range v = length + l1 /\
     (0 < l2 -> Valve.l2 v = l2) /\ (l2 <= 0 -> Valve.l2 v = l1)).
Proof.
  rewrite valve_init_total. split; intros Ha.
  - destruct (Rlt_dec ava 0); [reflexivity | exfalso; lra].
  - destruct (Rlt_dec ava 0); [exfalso; lra|].
    eexists. split; [reflexivity|].
    cbn [Valve.l1 Valve.l2 Valve.length Valve.rad Valve.shape Valve.trim_factor
         Valve.orif Valve.y_range].
    repeat split; intros; destruct (Rgt_dec l2 0); try reflexivity; exfalso; lra.
Qed.

(** ** The continuity equation *)

Lemma v_conteq_py_fin (r : R) (valve : Valve.t) (basal : R) :
  r <> 0 ->
  Simulation.v_conteq (PyFloat (Fin r)) valve basal =
  Ok (PyFloat (Fin (basal * Valve.rad valve ^ 2 / (r * r)))).
Proof.
  intros Hr. unfold Simulation.v_conteq, py_sqr, py_truediv.
  cbn [fsqr fmul]. rewrite py_fdiv_fin by nra. reflexivity.
Qed.

Lemma v_conteq_np_fin (r : R) (valve : Valve.t) (basal : R) :
  r <> 0 ->
  Simulation.v_conteq (NpFloat (Fin r)) valve basal =
  Ok (NpFloat (Fin (basal * Valve.rad valve ^ 2 / (r * r)))).
Proof.
  intros Hr. unfold Simulation.v_conteq, py_sqr, py_truediv.
  cbn [fsqr fmul val]. rewrite fdiv_fin by nra. reflexivity.
Qed.

Lemma v_conteq_py_zero (valve : Valve.t) (basal : R) :
  Simulation.v_conteq (PyFloat (Fin 0)) valve basal = Raise ZeroDivisionError.
Proof.
  unfold Simulation.v_conteq, py_sqr, py_truediv, py_fdiv, is_zero.
  cbn [fsqr fmul]. destruct (Req_dec_T (0 * 0) 0); [reflexivity | exfalso; lra].
Qed.

Lemma v_conteq_np_zero (valve : Valve.t) (basal : R) :
  Simulation.v_conteq (NpFloat (Fin 0)) valve basal =
  Ok (NpFloat (inf_of_sign (basal * Valve.rad valve ^ 2))).
Proof.
  unfold Simulation.v_conteq, py_sqr, py_truediv.
  cbn [fsqr fmul val fdiv]. destruct (Req_dec_T (0 * 0) 0); [reflexivity | exfalso; lra].
Qed.

Lemma v_conteq_nan (valve : Valve.t) (basal : R) :
  Simulation.v_conteq (PyFloat NaN) valve basal = Ok (PyFloat NaN) /\
  Simulation.v_conteq (NpFloat NaN) valve basal = Ok (NpFloat NaN).
Proof. split; reflexivity. Qed.

Lemma inf_of_sign_pos (r : R) : 0 < r -> inf_of_sign r = PInf.
Proof.
  intros H. unfold inf_of_sign.
  destruct (Req_dec_T r 0); [exfalso; lra|].
  destruct (Rlt_dec 0 r); [reflexivity | exfalso; lra].
Qed.

Lemma inf_of_sign_neg (r : R) : r < 0 -> inf_of_sign r = NInf.
Proof.
  intros H. unfold inf_of_sign.
  destruct (Req_dec_T r 0); [exfalso; lra|].
  destruct (Rlt_dec 0 r); [exfalso; lra | reflexivity].
Qed.

Lemma inf_of_sign_zero : inf_of_sign 0 = NaN.
Proof. unfold inf_of_sign. destruct (Req_dec_T 0 0); [reflexivity | exfalso; lra]. Qed.

(** Whenever [v_conteq] returns, its value is the continuity equation
    of the specification, whatever the radius (finite, zero, infinite or
    undefined). *)
Lemma v_conteq_spec (radio vel : pynum) (valve : Valve.t) (basal : R) :
  Simulation.v_conteq radio valve basal = Ok vel ->
  val vel = continuity_spec basal (Valve.rad valve) (val radio).
Proof.
  assert (Hval : forall x : f64,
            fdiv (Fin (basal * Valve.rad valve ^ 2)) (fsqr x) =
            continuity_spec basal (Valve.rad valve) x).
  { intros x. unfold continuity_spec. set (rd := Valve.rad valve).
    destruct x as [r| | |]; try reflexivity.
    - destruct (Req_dec_T r 0) as [->|Hr].
      + cbn [fsqr fmul fdiv].
        destruct (Req_dec_T (0 * 0) 0) as [_|H]; [| exfalso; lra].
        destruct (Req_dec_T 0 0) as [_|H]; [| exfalso; lra].
        destruct (Rtotal_order rd 0) as [Hneg | [Hz | Hpos]].
        * assert (Hsq : 0 < rd ^ 2) by (simpl; nra).
          rewrite (inf_of_sign_neg rd) by lra. cbn [fmul].
          destruct (Rtotal_order basal 0) as [Hb | [Hb | Hb]].
          -- rewrite !inf_of_sign_neg by nra. reflexivity.
          -- subst basal. replace (0 * rd ^ 2) with 0 by ring.
             now rewrite !inf_of_sign_zero.
          -- rewrite !inf_of_sign_pos by nra. reflexivity.
        * rewrite Hz. replace (basal * 0 ^ 2) with 0 by ring.
          now rewrite !inf_of_sign_zero.
        * assert (Hsq : 0 < rd ^ 2) by (simpl; nra).
          rewrite (inf_of_sign_pos rd) by lra. cbn [fmul].
          destruct (Rtotal_order basal 0) as [Hb | [Hb | Hb]].
          -- rewrite !inf_of_sign_neg by nra. reflexivity.
          -- subst basal. replace (0 * rd ^ 2) with 0 by ring.
             now rewrite !inf_of_sign_zero.
          -- rewrite !inf_of_sign_pos by nra. reflexivity.
      + cbn [fsqr fmul]. rewrite !fdiv_fin by nra. cbn [fsqr fmul].
        f_equal. field. exact Hr.
    - cbn. f_equal. ring.
    - cbn. f_equal. ring. }
  unfold Simulation.v_conteq, py_truediv.
  destruct radio as [x|x]; cbn [py_sqr val].
  - unfold py_fdiv. destruct (is_zero (fsqr x)); [discriminate|].
    cbn [bind]. intros H. injection H as <-. cbn [val]. apply Hval.
  - intros H. injection H as <-. cbn [val]. apply Hval.
Qed.

(** A valve with an orifice of 5 mm: area pi/4 cm2. *)
Lemma valve_ex_init :
  Valve.init 10 10 5 10 (PI / 4) 1 "cusp" 2 0 = Ok valve_ex.
Proof.
  pose proof PI_RGT_0 as Hpi.
  rewrite valve_init_total. destruct (Rlt_dec (PI / 4) 0); [exfalso; lra|].
  destruct (Rgt_dec 10 0); [| exfalso; lra].
  unfold valve_ex. do 2 f_equal.
  - replace (PI / 4 / PI) with (1 / 4) by (field; lra).
    rewrite sqrt_quarter. field.
  - ring.
Qed.

(** C6, as stated, fails: a radius of 10^-6 mm gives a velocity of
    1.1 * 10^16 with no error, a numpy zero radius gives +inf with no
    error, and an undefined radius gives an undefined velocity. *)
Lemma v_conteq_counterexample :
  Simulation.v_conteq (PyFloat (Fin (1 / 1000000))) valve_ex 110
    = Ok (PyFloat (Fin 11000000000000000)) /\
  Simulation.v_conteq (NpFloat (Fin 0)) valve_ex 110 = Ok (NpFloat PInf) /\
  Simulation.v_conteq (PyFloat NaN) valve_ex 110 = Ok (PyFloat NaN).
Proof.
  repeat split.
  - rewrite v_conteq_py_fin by lra. do 3 f_equal. unfold valve_ex; cbn [Valve.rad]. field.
  - rewrite v_conteq_np_zero. rewrite inf_of_sign_pos; [reflexivity|].
    unfold valve_ex; cbn [Valve.rad]. lra.
Qed.

(** ** One band *)

Lemma Ok_inj {A : Type} (a b : A) : Ok a = Ok b -> a = b.
Proof. intros H. now injection H. Qed.

Lemma mapM_ok {A B : Type} (f : A -> result B) (g : A -> B) (l : list A) :
  (forall a, In a l -> f a = Ok (g a)) -> mapM f l = Ok (map g l).
Proof.
  induction l as [|a l IH]; intros H; [reflexivity|].
  cbn [mapM map]. rewrite (H a (or_introl eq_refl)). cbn [bind].
  rewrite IH by (intros; apply H; now right). reflexivity.
Qed.

Lemma mapM_In {A B : Type} (f : A -> result B) (l : list A) :
  forall l' b, mapM f l = Ok l' -> In b l' -> exists a, In a l /\ f a = Ok b.
Proof.
  induction l as [|a l IH]; intros l' b H Hin.
  - injection H as <-. destruct Hin.
  - cbn [mapM] in H. bind_inv H. bind_inv H. injection H as <-.
    destruct Hin as [<- | Hin].
    + exists a. split; [now left | assumption].
    + destruct (IH _ _ eq_refl Hin) as [a' [Ha' Hf]]. exists a'. split; [now right | assumption].
Qed.

Lemma Rceil_IZR (z : Z) : Rceil (IZR z) = z.
Proof.
  unfold Rceil. rewrite <- opp_IZR.
  rewrite <- (tech_up (IZR (- z)) (- z + 1)).
  - lia.
  - rewrite plus_IZR. lra.
  - rewrite plus_IZR. lra.
Qed.

Lemma np_arange_601 : np_arange (Wave.default_time + 1) 1 = Ok timeline601.
Proof.
  unfold np_arange, Wave.default_time, timeline601.
  destruct (Req_dec_T 1 0); [exfalso; lra|].
  replace ((600 + 1) / 1) with 601 by field.
  now rewrite Rceil_IZR.
Qed.

Lemma timeline601_length : List.length timeline601 = Z.to_nat 601.
Proof. unfold timeline601. now rewrite length_map, length_seq. Qed.

Lemma filter_not_nan_fin (l : list R) :
  filter (fun x => negb (is_nan x)) (map Fin l) = map Fin l.
Proof. induction l as [|a l IH]; [reflexivity|]. cbn. now rewrite IH. Qed.

Lemma arr_mul_length (xs ys : list f64) :
  List.length xs = List.length ys -> List.length (arr_mul xs ys) = List.length xs.
Proof.
  revert ys. induction xs as [|x xs IH]; intros [|y ys] H; try discriminate; [reflexivity|].
  cbn [arr_mul List.length]. f_equal. apply IH. now injection H.
Qed.

Lemma wavepoint_default (p time ms q : R) :
  0 < p ->
  forall w, Wave.init (Fin p) time = Ok w ->
  Wave.wavepoint w ms q =
  Ok (wavepoint_R p (t_acel_R p) (t_eyec_R p + - t_acel_R p) ms q).
Proof.
  intros Hp w Hw. rewrite wave_init_fin in Hw. injection Hw as <-.
  pose proof (t_decel_R_pos p Hp). pose proof (t_acel_R_ge_70 p).
  rewrite wavepoint_fin by lra. reflexivity.
Qed.

Lemma get_outer_wave_default (p : R) :
  0 < p ->
  forall w, Wave.init (Fin p) Wave.default_time = Ok w ->
  Wave.get_outer_wave w 1 = Ok (outer601 p).
Proof.
  intros Hp w Hw. unfold Wave.get_outer_wave.
  assert (Ht : Wave.time w = Wave.default_time).
  { rewrite wave_init_fin in Hw. now injection Hw as <-. }
  rewrite Ht, np_arange_601. cbn [bind].
  apply mapM_ok. intros ms _. now apply wavepoint_default with (time := Wave.default_time).
Qed.

Lemma py_truediv_fin_peak (vel : pynum) (p : R) :
  p <> 0 ->
  exists e, py_truediv vel (PyFloat (Fin p)) = Ok e /\ val e = escala_of vel p.
Proof.
  intros Hp. unfold py_truediv, escala_of. destruct vel as [x|x]; cbn [val].
  - unfold py_fdiv, is_zero. destruct (Req_dec_T p 0); [contradiction|].
    cbn [bind]. eexists. split; reflexivity.
  - eexists. split; reflexivity.
Qed.

Lemma wave_default (p : R) (vel : pynum) :
  0 < p ->
  forall w, Wave.init (Fin p) Wave.default_time = Ok w ->
  Wave.wave w vel 1 = Ok (map (fun v => fmul v (escala_of vel p)) (outer601 p)).
Proof.
  intros Hp w Hw. unfold Wave.wave.
  assert (Hpk : Wave.peak w = Fin p).
  { rewrite wave_init_fin in Hw. now injection Hw as <-. }
  rewrite Hpk. destruct (py_truediv_fin_peak vel p) as [e [He Hv]]; [lra|].
  rewrite He. cbn [bind]. rewrite (get_outer_wave_default p Hp w Hw). cbn [bind].
  now rewrite Hv.
Qed.

Lemma RandomState_normal_ok (gauss : Z -> nat -> R) (seed : Z) (sd : R) (size : nat) :
  (0 <= seed < 2 ^ 32)%Z -> 0 <= sd ->
  Simulation.RandomState_normal gauss seed 1 sd size = Ok (normal_draws gauss seed sd size).
Proof.
  intros Hs Hsd. unfold Simulation.RandomState_normal.
  destruct (Z.ltb_spec seed 0); [lia|].
  destruct (Z.leb_spec (2 ^ 32) seed); [lia|]. cbn [orb].
  destruct (Rlt_dec sd 0); [exfalso; lra | reflexivity].
Qed.

Lemma outer601_length (p : R) : List.length (outer601 p) = Z.to_nat 601.
Proof. unfold outer601. now rewrite length_map, timeline601_length. Qed.

(** What [calc_band] computes for a simulation as [__init__] leaves it
    (sep_ms = 1) on a valve of finite positive v_max, once the two radii
    and the band velocity are known. *)
Lemma calc_band_trace_eq (gauss : Z -> nat -> R) (s : Simulation.t) (n : Z)
    (valve : Valve.t) (p : R) (r1 r2 vel : pynum) :
  Simulation.sep_ms s = 1 ->
  Valve.v_max valve = Fin p -> 0 < p ->
  IZR (Simulation.bands s) <> 0 ->
  let interval := Valve.y_range valve / IZR (Simulation.bands s) in
  Valve.radio valve (- IZR n * interval) = Ok r1 ->
  Valve.radio valve (- IZR (n + 1) * interval) = Ok r2 ->
  Simulation.v_conteq r2 valve (Simulation.basal_velocity s) = Ok vel ->
  (0 <= Simulation.seed s + n < 2 ^ 32)%Z ->
  0 <= Simulation.dispersion s ->
  Simulation.calc_band_trace gauss s n valve =
  Ok {| Simulation.bt_radio1 := r1; Simulation.bt_radio2 := r2;
        Simulation.bt_vel := vel;
        Simulation.bt_contour :=
          ([val r1; val r2], [Fin (- IZR n * interval); Fin (- IZR (n + 1) * interval)]);
        Simulation.bt_points :=
          (map Fin timeline601,
           arr_mul (map (fun v => fmul v (escala_of vel p)) (outer601 p))
                   (normal_draws gauss (Simulation.seed s + n)
                      (Simulation.dispersion s) (Z.to_nat 601))) |}.
Proof.
  intros Hsep Hv Hp Hb interval Hr1 Hr2 Hvel Hseed Hdisp.
  unfold Simulation.calc_band_trace.
  rewrite py_div_ok by exact Hb. cbn [bind]. fold interval.
  rewrite Hv. destruct (Wave.init (Fin p) Wave.default_time) as [w|] eqn:Hw;
    [| rewrite wave_init_fin in Hw; discriminate].
  cbn [bind]. rewrite Hr1. cbn [bind]. rewrite Hr2. cbn [bind].
  rewrite Hvel. cbn [bind]. rewrite Hsep.
  unfold Wave.get_timeline.
  assert (Ht : Wave.time w = Wave.default_time).
  { rewrite wave_init_fin in Hw. now injection Hw as <-. }
  rewrite Ht, np_arange_601. cbn [bind].
  rewrite (wave_default p vel Hp w Hw). cbn [bind].
  rewrite length_map, outer601_length.
  rewrite RandomState_normal_ok by assumption. cbn [bind].
  rewrite filter_not_nan_fin.
  rewrite arr_mul_length.
  - rewrite !length_map, timeline601_length, outer601_length, Nat.eqb_refl. reflexivity.
  - unfold normal_draws. now rewrite !length_map, outer601_length, length_seq.
Qed.

(** What a successful [calc_band] went through. *)
Lemma calc_band_trace_inv (gauss : Z -> nat -> R) (s : Simulation.t) (n : Z)
    (valve : Valve.t) (tr : Simulation.band_trace) :
  Simulation.calc_band_trace gauss s n valve = Ok tr ->
  exists interval w xs ys noise,
    py_div (Valve.y_range valve) (IZR (Simulation.bands s)) = Ok interval /\
    Wave.init (Valve.v_max valve) Wave.default_time = Ok w /\
    Valve.radio valve (- IZR n * interval) = Ok (Simulation.bt_radio1 tr) /\
    Valve.radio valve (- IZR (n + 1) * interval) = Ok (Simulation.bt_radio2 tr) /\
    Simulation.v_conteq (Simulation.bt_radio2 tr) valve (Simulation.basal_velocity s)
      = Ok (Simulation.bt_vel tr) /\
    Wave.get_timeline w (Simulation.sep_ms s) = Ok xs /\
    Wave.wave w (Simulation.bt_vel tr) (Simulation.sep_ms s) = Ok ys /\
    Simulation.RandomState_normal gauss (Simulation.seed s + n) 1
      (Simulation.dispersion s) (List.length ys) = Ok noise /\
    Simulation.bt_points tr = (map Fin xs, arr_mul ys noise).
Proof.
  intros H. unfold Simulation.calc_band_trace in H.
  bind_inv H. bind_inv H. bind_inv H. bind_inv H. bind_inv H.
  bind_inv H. bind_inv H. bind_inv H.
  destruct (Nat.eqb _ _); [| discriminate H].
  injection H as <-. cbn [Simulation.bt_radio1 Simulation.bt_radio2
    Simulation.bt_vel Simulation.bt_points].
  rewrite filter_not_nan_fin.
  eexists _, _, _, _, _. repeat split; eassumption.
Qed.

(** [__init__] keeps the geometry of each valve and stores in v_max the
    continuity equation at the orifice. *)
Lemma init_valve_inv (bands : Z) (basal : R) (sim_alfa : option R) (v v' : Valve.t) :
  Simulation.init_valve bands basal sim_alfa v = Ok v' ->
  Valve.rad v' = Valve.rad v /\ Valve.orif v' = Valve.orif v /\
  exists vmax,
    Simulation.v_conteq (PyFloat (Fin (Valve.orif v'))) v' basal = Ok vmax /\
    Valve.v_max v' = val vmax.
Proof.
  intros H. unfold Simulation.init_valve in H. bind_inv H. bind_inv H.
  injection H as <-. cbn [Valve.set_sim Valve.rad Valve.orif Valve.v_max].
  repeat split. exists x. split; [exact E | reflexivity].
Qed.

Lemma init_inv (G : Type) (randint : G -> Z * G) (bands : Z) (basal : R)
    (groups : Z) (method : string) (valves : list Valve.t) (seed : option Z)
    (disp : R) (sim_alfa : option R) (g g' : G) (s : Simulation.t) :
  Simulation.init G randint bands basal groups method valves seed disp sim_alfa g
    = (Ok s, g') ->
  Simulation.bands s = bands /\ Simulation.band_groups s = groups /\
  Simulation.basal_velocity s = basal /\ Simulation.dispersion s = disp /\
  Simulation.sep_ms s = 1 /\
  Simulation.band_grouping bands groups = Ok (Simulation.group_limits s) /\
  mapM (Simulation.init_valve bands basal sim_alfa) valves = Ok (Simulation.valves s) /\
  (forall z, seed = Some z -> Simulation.seed s = z /\ g' = g).
Proof.
  unfold Simulation.init. intros H.
  destruct (Simulation.band_grouping bands groups) as [limits|] eqn:Hg; [| discriminate H].
  destruct (match seed with Some s0 => (s0, g) | None => randint g end) as [sd g0] eqn:Hs.
  injection H as H <-.
  bind_inv H. bind_inv H. injection H as <-.
  cbn [Simulation.bands Simulation.band_groups Simulation.basal_velocity
       Simulation.dispersion Simulation.sep_ms Simulation.group_limits
       Simulation.valves Simulation.seed].
  repeat split; try assumption.
  - subst seed. now injection Hs as <- _.
  - subst seed. now injection Hs as _ <-.
Qed.

(** C1: the band velocity that [calc_band] computes is the radius
    query at the deeper boundary y_2 fed to the continuity equation,
    basal_velocity * (rad / radio2)^2; and in a simulation as
    [__init__] built it, a band whose radio2 is the valve's orif has the
    valve's v_max as velocity. *)
Theorem band_velocity_continuity (gauss : Z -> nat -> R) (s : Simulation.t)
    (n : Z) (valve : Valve.t) (tr : Simulation.band_trace) :
  Simulation.calc_band_trace gauss s n valve = Ok tr ->
  (exists interval,
     py_div (Valve.y_range valve) (IZR (Simulation.bands s)) = Ok interval /\
     Valve.radio valve (- IZR (n + 1) * interval) = Ok (Simulation.bt_radio2 tr)) /\
  val (Simulation.bt_vel tr) =
    continuity_spec (Simulation.basal_velocity s) (Valve.rad valve)
                    (val (Simulation.bt_radio2 tr)) /\
  (forall (G : Type) (randint : G -> Z * G) bands basal groups method valves seed
          disp sim_alfa (g g' : G),
     Simulation.init G randint bands basal groups method valves seed disp sim_alfa g
       = (Ok s, g') ->
     In valve (Simulation.valves s) ->
     val (Simulation.bt_radio2 tr) = Fin (Valve.orif valve) ->
     val (Simulation.bt_vel tr) = Valve.v_max valve).
Proof.
  intros H.
  destruct (calc_band_trace_inv _ _ _ _ _ H)
    as (interval & w & xs & ys & noise & Hi & _ & _ & Hr2 & Hvel & _).
  split; [exists interval; split; assumption|].
  split; [now apply v_conteq_spec|].
  intros G randint bands basal groups method valves seed disp sim_alfa g g' Hinit Hin Horif.
  destruct (init_inv _ _ _ _ _ _ _ _ _ _ _ _ _ Hinit)
    as (_ & _ & Hbasal & _ & _ & _ & Hvs & _).
  destruct (mapM_In _ _ _ _ Hvs Hin) as (v0 & _ & Hv0).
  destruct (init_valve_inv _ _ _ _ _ Hv0) as (_ & _ & vmax & Hvm & ->).
  rewrite (v_conteq_spec _ _ _ _ Hvel), (v_conteq_spec _ _ _ _ Hvm).
  rewrite Horif, Hbasal. reflexivity.
Qed.

(** ** Radius at a height *)

Lemma transpose_lift (c : list (R * R)) :
  Valve.transpose (map Fin (map fst c), map Fin (map snd c)) = lift_contour c.
Proof.
  unfold Valve.transpose, lift_contour. cbn [fst snd].
  induction c as [|q c IH]; [reflexivity|]. cbn [map combine]. now rewrite IH.
Qed.

Lemma contour_of_xs (f : R -> R) (xs : list R) :
  (map Fin (map fst (map (fun x => (x, f x)) xs)),
   map Fin (map snd (map (fun x => (x, f x)) xs))) =
  (map Fin xs, map (fun x => Fin (f x)) xs).
Proof.
  rewrite !map_map. reflexivity.
Qed.

(** On a finite contour whose x never increase, below the y of its
    first point: the loop's radius is finite, lies between 0 and the
    first x, and does not increase when the height decreases. *)
Lemma radio_loop_monotone (c : list (R * R)) :
  forall (x0 y0 : R) (rest : list (R * R)) (y y' : R),
    c = (x0, y0) :: rest -> contour_ok c ->
    y' <= y -> y < y0 ->
    exists a a',
      val (radius_of (Valve.radio_loop y (lift_contour c))) = Fin a /\
      val (radius_of (Valve.radio_loop y' (lift_contour c))) = Fin a' /\
      a' <= a /\ 0 <= a' /\ a <= x0.
Proof.
  induction c as [|q c IH]; intros x0 y0 rest y y' Hc Hok Hle Hlt; [discriminate|].
  injection Hc as -> ->.
  destruct rest as [|[x2 y2] rest'].
  - exists 0, 0. cbn in Hok |- *. repeat split; lra.
  - cbn [contour_ok fst snd] in Hok. destruct Hok as (Hx0 & Hx2 & Hok').
    cbn [lift_contour map fst snd Valve.radio_loop].
    fold (lift_contour rest').
    change ((Fin x2, Fin y2) :: lift_contour rest')
      with (lift_contour ((x2, y2) :: rest')).
    unfold fge, flt, fle.
    destruct (Rlt_dec y y2) as [Hy|Hy].
    + destruct (Rlt_dec y' y2) as [Hy'|Hy']; [| exfalso; lra].
      destruct (IH x2 y2 rest' y y' eq_refl Hok' Hle Hy) as (a & a' & Ha & Ha' & H1 & H2 & H3).
      exists a, a'. repeat split; try assumption; lra.
    + destruct (Rle_dec y2 y) as [_|Hn]; [| exfalso; lra].
      assert (Hd : y2 - y0 < 0) by lra.
      assert (Hfr : 0 <= (y + - y0) / (y2 + - y0) <= 1).
      { split.
        - apply Rmult_le_reg_r with (r := - (y2 + - y0)); [lra|].
          replace ((y + - y0) / (y2 + - y0) * - (y2 + - y0)) with (- (y + - y0)) by (field; lra).
          lra.
        - apply Rmult_le_reg_r with (r := - (y2 + - y0)); [lra|].
          replace ((y + - y0) / (y2 + - y0) * - (y2 + - y0)) with (- (y + - y0)) by (field; lra).
          lra. }
      destruct (Rlt_dec y' y2) as [Hy'|Hy'].
      * destruct (IH x2 y2 rest' y' y' eq_refl Hok' (Rle_refl y') Hy')
          as (a & a' & Ha & Ha' & H1 & H2 & H3).
        eexists _, a'. cbn [radius_of val fsub fneg fadd fmul].
        rewrite fdiv_fin by lra. cbn [fmul fadd].
        split; [reflexivity|]. split; [exact Ha'|].
        assert (Ha0 : a = a') by (rewrite Ha in Ha'; now injection Ha').
        subst a'. repeat split; try assumption; nra.
      * destruct (Rle_dec y2 y') as [_|Hn]; [| exfalso; lra].
        assert (Hfr' : (y + - y0) / (y2 + - y0) <= (y' + - y0) / (y2 + - y0) <= 1).
        { split.
          - apply Rmult_le_reg_r with (r := - (y2 + - y0)); [lra|].
            replace ((y + - y0) / (y2 + - y0) * - (y2 + - y0)) with (- (y + - y0)) by (field; lra).
            replace ((y' + - y0) / (y2 + - y0) * - (y2 + - y0)) with (- (y' + - y0)) by (field; lra).
            lra.
          - apply Rmult_le_reg_r with (r := - (y2 + - y0)); [lra|].
            replace ((y' + - y0) / (y2 + - y0) * - (y2 + - y0)) with (- (y' + - y0)) by (field; lra).
            lra. }
        eexists _, _. cbn [radius_of val fsub fneg fadd fmul].
        rewrite !fdiv_fin by lra. cbn [fmul fadd].
        split; [reflexivity|]. split; [reflexivity|].
        repeat split; nra.
Qed.

Lemma line_cusp (v : Valve.t) :
  Valve.shape v = "cusp"%string ->
  1 - Valve.trim_factor v <> 0 -> cusp_y_len v <> 0 ->
  Valve.line v =
  Ok (map Fin (Valve.puntos_x v), map (fun x => Fin (cusp_y v x)) (Valve.puntos_x v)).
Proof.
  intros Hs Hf Hy. unfold Valve.line. rewrite Hs. cbn [String.eqb Ascii.eqb Bool.eqb].
  rewrite py_div_ok by exact Hf. cbn [bind]. do 2 f_equal.
  apply map_ext. intros x. cbn [fmul fsub fneg].
  rewrite fdiv_fin by exact Hy. reflexivity.
Qed.

Lemma line_line (v : Valve.t) :
  Valve.shape v = "line"%string ->
  Valve.rad v - Valve.orif v <> 0 ->
  Valve.line v =
  Ok (map Fin (Valve.puntos_x v), map (fun x => Fin (line_y v x)) (Valve.puntos_x v)).
Proof.
  intros Hs Hw. unfold Valve.line. rewrite Hs. cbn [String.eqb Ascii.eqb Bool.eqb].
  cbn [bind]. rewrite py_div_ok by exact Hw. reflexivity.
Qed.


Lemma cusp_y_len_pos (v : Valve.t) :
  Valve.orif v < Valve.rad v -> -1 < Valve.trim_factor v < 1 ->
  0 < cusp_y_len v.
Proof.
  intros Hw [Hf1 Hf2]. unfold cusp_y_len.
  set (w := Valve.rad v - Valve.orif v) in *.
  set (f := Valve.trim_factor v) in *.
  assert (Hwpos : 0 < w) by (unfold w; lra).
  set (a := w / (1 - f)).
  assert (Ha : a * (1 - f) = w) by (unfold a; field; lra).
  assert (Hapos : 0 < a) by (unfold a; apply Rdiv_lt_0_compat; lra).
  replace (a ^ 2 - (Valve.rad v - w - (Valve.rad v - a)) ^ 2)
    with (w * (a * (1 + f))) by (rewrite <- Ha; ring).
  apply Rmult_lt_0_compat; [lra|]. apply Rmult_lt_0_compat; lra.
Qed.

Lemma cusp_y_base_nonneg (v : Valve.t) :
  Valve.orif v < Valve.rad v -> -1 < Valve.trim_factor v < 1 ->
  0 <= Valve.length v ->
  0 <= cusp_y v (Valve.rad v).
Proof.
  intros Hw Hf HL. pose proof (cusp_y_len_pos v Hw Hf) as Hy.
  unfold cusp_y. revert Hy. unfold cusp_y_len.
  set (w := Valve.rad v - Valve.orif v).
  set (a := w / (1 - Valve.trim_factor v)).
  set (yl := a ^ 2 - (Valve.rad v - w - (Valve.rad v - a)) ^ 2).
  intros Hy.
  replace ((Valve.rad v - (Valve.rad v - a)) ^ 2 * Valve.length v / yl + - Valve.length v)
    with (Valve.length v * ((a - w) ^ 2 / yl)).
  - apply Rmult_le_pos; [exact HL|].
    apply Rmult_le_pos; [apply pow2_ge_0 | left; apply Rinv_0_lt_compat; exact Hy].
  - unfold yl. field. fold yl. lra.
Qed.

Lemma puntos_x_ok (v : Valve.t) (f : R -> R) :
  0 <= Valve.orif v -> Valve.orif v < Valve.rad v ->
  exists rest,
    map (fun x => (x, f x)) (Valve.puntos_x v)
      = (Valve.rad v, f (Valve.rad v)) :: rest /\
    contour_ok (map (fun x => (x, f x)) (Valve.puntos_x v)).
Proof.
  intros Ho Hw. unfold Valve.puntos_x, Valve.puntos.
  cbn [seq map Nat.sub INR].
  replace (Valve.rad v - (Valve.rad v - Valve.orif v) * (0 / (1 + 1 + 1 + 1 + 1 + 1 + 1 + 1 + 1)))
    with (Valve.rad v) by (field; lra).
  eexists. split; [reflexivity|].
  cbn [contour_ok fst snd]. repeat split; lra.
Qed.

(** The inner contour of a cusp or line valve with 0 <= orif < rad. *)
Lemma line_well_formed (v : Valve.t) :
  0 <= Valve.orif v -> Valve.orif v < Valve.rad v ->
  (Valve.shape v = "cusp"%string /\ -1 < Valve.trim_factor v < 1) \/
  Valve.shape v = "line"%string ->
  exists c y0 rest,
    Valve.line v = Ok (map Fin (map fst c), map Fin (map snd c)) /\
    c = (Valve.rad v, y0) :: rest /\ contour_ok c /\
    (0 <= Valve.length v -> 0 <= y0).
Proof.
  intros Ho Hw [[Hs Hf] | Hs].
  - destruct (puntos_x_ok v (cusp_y v) Ho Hw) as (rest & Hc & Hok).
    exists (map (fun x => (x, cusp_y v x)) (Valve.puntos_x v)), (cusp_y v (Valve.rad v)), rest.
    split; [| split; [exact Hc | split; [exact Hok|]]].
    + rewrite contour_of_xs. apply line_cusp; [exact Hs | lra |].
      pose proof (cusp_y_len_pos v Hw Hf). lra.
    + intros HL. now apply cusp_y_base_nonneg.
  - destruct (puntos_x_ok v (line_y v) Ho Hw) as (rest & Hc & Hok).
    exists (map (fun x => (x, line_y v x)) (Valve.puntos_x v)), (line_y v (Valve.rad v)), rest.
    split; [| split; [exact Hc | split; [exact Hok|]]].
    + rewrite contour_of_xs. apply line_line; [exact Hs | lra].
    + intros _. unfold line_y. right. field. lra.
Qed.

(** [radio] inside the valve body, on a well-formed contour. *)
Lemma radio_body (v : Valve.t) (c : list (R * R)) (y : R) :
  Valve.line v = Ok (map Fin (map fst c), map Fin (map snd c)) ->
  y < - Valve.l1 v -> - (Valve.l1 v + Valve.length v) <= y -> y <= 0 ->
  Valve.radio v y =
  Ok (radius_of (Valve.radio_loop (y - - Valve.l1 v) (lift_contour c))).
Proof.
  intros Hl H1 H2 H3. unfold Valve.radio.
  destruct (Rgt_dec y 0); [exfalso; lra|].
  destruct (Rge_dec y (- Valve.l1 v)); [exfalso; lra|].
  destruct (Rge_dec y (- (Valve.l1 v + Valve.length v))); [| exfalso; lra].
  rewrite Hl. cbn [bind]. rewrite transpose_lift.
  destruct (Valve.radio_loop _ _); reflexivity.
Qed.

Lemma radio_lvot (v : Valve.t) (y : R) :
  - Valve.l1 v <= y -> y <= 0 -> Valve.radio v y = Ok (PyFloat (Fin (Valve.rad v))).
Proof.
  intros H1 H2. unfold Valve.radio.
  destruct (Rgt_dec y 0); [exfalso; lra|].
  destruct (Rge_dec y (- Valve.l1 v)); [reflexivity | exfalso; lra].
Qed.

(** C4 (amended): on a constructed valve of shape 'cusp' with
    -1 < trim_factor < 1, or of shape 'line', with rad > orif, [radio] is
    a number on [-(l1+length), 0] and does not increase as y decreases. *)
Theorem radio_monotone (l1 l2 length rad ava thick : R) (shape : string)
    (wall_thick trim_factor : R) (v : Valve.t) (y y' : R) :
  Valve.init l1 l2 length rad ava thick shape wall_thick trim_factor = Ok v ->
  Valve.rad v > Valve.orif v ->
  (Valve.shape v = "cusp"%string /\ -1 < Valve.trim_factor v < 1) \/
  Valve.shape v = "line"%string ->
  - (Valve.l1 v + Valve.length v) <= y' -> y' <= y -> y <= 0 ->
  exists r r' a a',
    Valve.radio v y = Ok r /\ Valve.radio v y' = Ok r' /\
    val r = Fin a /\ val r' = Fin a' /\ a' <= a.
Proof.
  intros Hinit Hw Hshape Hlo Hle Hhi.
  pose proof (valve_init_orif_nonneg _ _ _ _ _ _ _ _ _ _ Hinit) as Ho.
  destruct (Rle_dec (- Valve.l1 v) y') as [Hy'|Hy'].
  - (* both heights in the LVOT *)
    exists (PyFloat (Fin (Valve.rad v))), (PyFloat (Fin (Valve.rad v))),
           (Valve.rad v), (Valve.rad v).
    rewrite !radio_lvot by lra. repeat split; lra.
  - assert (HL : 0 <= Valve.length v) by lra.
    destruct (line_well_formed v Ho ltac:(lra) Hshape) as (c & y0 & rest & Hline & Hc & Hok & Hy0).
    specialize (Hy0 HL).
    destruct (Rle_dec (- Valve.l1 v) y) as [Hy|Hy].
    + (* y in the LVOT, y' in the valve body *)
      destruct (radio_loop_monotone c (Valve.rad v) y0 rest
                  (y' - - Valve.l1 v) (y' - - Valve.l1 v) Hc Hok ltac:(lra) ltac:(lra))
        as (a & a' & Ha & _ & _ & _ & Hb).
      eexists _, _, (Valve.rad v), a.
      rewrite radio_lvot by lra.
      rewrite (radio_body v c y' Hline) by lra.
      repeat split; [exact Ha | exact Hb].
    + (* both in the valve body *)
      destruct (radio_loop_monotone c (Valve.rad v) y0 rest
                  (y - - Valve.l1 v) (y' - - Valve.l1 v) Hc Hok ltac:(lra) ltac:(lra))
        as (a & a' & Ha & Ha' & Hm & _ & _).
      eexists _, _, a, a'.
      rewrite (radio_body v c y Hline) by lra.
      rewrite (radio_body v c y' Hline) by lra.
      repeat split; assumption.
Qed.

Lemma radio_monotone_witness :
  exists r r' a a',
    Valve.radio valve_ex (-11) = Ok r /\ Valve.radio valve_ex (-14) = Ok r' /\
    val r = Fin a /\ val r' = Fin a' /\ a' <= a.
Proof.
  apply (radio_monotone 10 10 5 10 (PI / 4) 1 "cusp" 2 0 valve_ex (-11) (-14)).
  - exact valve_ex_init.
  - unfold valve_ex; cbn [Valve.rad Valve.orif]; lra.
  - left. split; [reflexivity | unfold valve_ex; cbn [Valve.trim_factor]; lra].
  - unfold valve_ex; cbn [Valve.l1 Valve.length]; lra.
  - lra.
  - lra.
Defined.

Lemma valve_trim2_init :
  Valve.init 10 10 5 10 (PI / 4) 1 "cusp" 2 2 = Ok valve_trim2.
Proof.
  pose proof PI_RGT_0 as Hpi.
  rewrite valve_init_total. destruct (Rlt_dec (PI / 4) 0); [exfalso; lra|].
  destruct (Rgt_dec 10 0); [| exfalso; lra].
  unfold valve_trim2. do 2 f_equal.
  - replace (PI / 4 / PI) with (1 / 4) by (field; lra).
    rewrite sqrt_quarter. field.
  - ring.
Qed.

Lemma cusp_y_trim2 (x : R) :
  cusp_y valve_trim2 x = - ((x - 15) ^ 2 / 15) - 5.
Proof.
  unfold cusp_y, cusp_y_len, valve_trim2.
  cbn [Valve.rad Valve.orif Valve.trim_factor Valve.length]. field.
Qed.

(** C4, as stated, fails: with trim_factor = 2 the radius one
    millimetre inside the valve body (343/19, about 18.05) exceeds the
    LVOT radius 10 returned just above it. *)
Lemma radio_monotone_counterexample :
  Valve.init 10 10 5 10 (PI / 4) 1 "cusp" 2 2 = Ok valve_trim2 /\
  Valve.rad valve_trim2 > Valve.orif valve_trim2 /\
  - (Valve.l1 valve_trim2 + Valve.length valve_trim2) <= -11 /\
  -11 <= -10 /\ -10 <= 0 /\
  Valve.radio valve_trim2 (-10) = Ok (PyFloat (Fin 10)) /\
  Valve.radio valve_trim2 (-11) = Ok (NpFloat (Fin (343 / 19))) /\
  ~ (343 / 19 <= 10).
Proof.
  split; [exact valve_trim2_init|].
  assert (Hlen : cusp_y_len valve_trim2 = -75).
  { unfold cusp_y_len, valve_trim2.
    cbn [Valve.rad Valve.orif Valve.trim_factor]. field. }
  repeat split; try (unfold valve_trim2; cbn [Valve.rad Valve.orif Valve.l1 Valve.length]; lra).
  - rewrite radio_lvot; [reflexivity | |]; unfold valve_trim2; cbn [Valve.l1]; lra.
  - rewrite (radio_body valve_trim2
               (map (fun x => (x, cusp_y valve_trim2 x)) (Valve.puntos_x valve_trim2))).
    + unfold Valve.puntos_x, Valve.puntos.
      cbn [seq map Nat.sub INR lift_contour fst snd Valve.radio_loop].
      rewrite !cusp_y_trim2. unfold valve_trim2.
      cbn [Valve.rad Valve.orif Valve.l1].
      unfold flt, fge, fle.
      destruct (Rlt_dec _ _) as [H|H]; [exfalso; lra|].
      destruct (Rle_dec _ _) as [H'|H']; [| exfalso; lra].
      cbn [radius_of fsub fneg fadd]. rewrite fdiv_fin by lra.
      cbn [fmul fadd]. do 3 f_equal. field.
    + rewrite contour_of_xs. apply line_cusp; [reflexivity | |].
      * unfold valve_trim2; cbn [Valve.trim_factor]; lra.
      * rewrite Hlen. lra.
    + unfold valve_trim2; cbn [Valve.l1]; lra.
    + unfold valve_trim2; cbn [Valve.l1 Valve.length]; lra.
    + lra.
Qed.

(** ** A worked simulation: [Simulation(valves=[Valve(ava=pi/4)], seed=0)] *)

Lemma band_grouping_80_10 :
  Simulation.band_grouping 80 10 = Ok [8; 16; 24; 32; 40; 48; 56; 64; 72; 80]%Z.
Proof. reflexivity. Qed.

Lemma sim_ex_init (G : Type) (randint : G -> Z * G) (g : G) :
  Simulation.init G randint 80 110 10 "scatter" [valve_ex] (Some 0%Z) (5 / 100) None g
  = (Ok sim_ex, g).
Proof.
  unfold Simulation.init. rewrite band_grouping_80_10.
  cbn [mapM]. unfold Simulation.init_valve.
  rewrite v_conteq_py_fin by (unfold valve_ex; cbn [Valve.orif]; lra).
  cbn [bind]. rewrite py_div_ok by lra. cbn [bind map Simulation.py_max fold_left].
  unfold sim_ex, valve_ex_sim. cbn [val Valve.set_sim Valve.v_max].
  replace (110 * Valve.rad valve_ex ^ 2 / (Valve.orif valve_ex * Valve.orif valve_ex))
    with 440 by (unfold valve_ex; cbn [Valve.rad Valve.orif]; field).
  reflexivity.
Qed.

Lemma cusp_y_ex (x : R) : cusp_y valve_ex_sim x = (x - 5) ^ 2 / 5 - 5.
Proof.
  unfold cusp_y, cusp_y_len, valve_ex_sim, valve_ex.
  cbn [Valve.set_sim Valve.rad Valve.orif Valve.trim_factor Valve.length]. field.
Qed.

Lemma line_ex :
  Valve.line valve_ex_sim =
  Ok (map Fin (map fst (map (fun x => (x, cusp_y valve_ex_sim x)) (Valve.puntos_x valve_ex_sim))),
      map Fin (map snd (map (fun x => (x, cusp_y valve_ex_sim x)) (Valve.puntos_x valve_ex_sim)))).
Proof.
  rewrite contour_of_xs. apply line_cusp; [reflexivity | |].
  - unfold valve_ex_sim, valve_ex; cbn [Valve.set_sim Valve.trim_factor]; lra.
  - replace (cusp_y_len valve_ex_sim) with 25; [lra|].
    unfold cusp_y_len, valve_ex_sim, valve_ex.
    cbn [Valve.set_sim Valve.rad Valve.orif Valve.trim_factor]. field.
Qed.

(** At the tip of the leaflet the interpolation returns the orifice
    radius. *)
Lemma radio_ex_tip : Valve.radio valve_ex_sim (-15) = Ok (NpFloat (Fin 5)).
Proof.
  rewrite (radio_body valve_ex_sim _ (-15) line_ex);
    try (unfold valve_ex_sim, valve_ex; cbn [Valve.set_sim Valve.l1 Valve.length]; lra).
  unfold Valve.puntos_x, Valve.puntos.
  cbn [seq map Nat.sub INR lift_contour fst snd].
  rewrite !cusp_y_ex. unfold valve_ex_sim, valve_ex.
  cbn [Valve.set_sim Valve.rad Valve.orif Valve.l1].
  cbn [Valve.radio_loop]. unfold flt, fge, fle.
  repeat (destruct (Rlt_dec _ _) as [_|H]; [| exfalso; lra]).
  destruct (Rlt_dec _ _) as [H|_]; [exfalso; lra|].
  destruct (Rle_dec _ _) as [_|H]; [| exfalso; lra].
  cbn [radius_of fsub fneg fadd]. rewrite fdiv_fin by lra.
  cbn [fmul fadd]. do 3 f_equal. field.
Qed.

(** The last band of the worked simulation, for any generator. *)
Lemma calc_band_ex_79 (gauss : Z -> nat -> R) :
  exists r1,
  Simulation.calc_band_trace gauss sim_ex 79 valve_ex_sim =
  Ok {| Simulation.bt_radio1 := r1; Simulation.bt_radio2 := NpFloat (Fin 5);
        Simulation.bt_vel := NpFloat (Fin 440);
        Simulation.bt_contour :=
          ([val r1; Fin 5], [Fin (- IZR 79 * (15 / 80)); Fin (- IZR (79 + 1) * (15 / 80))]);
        Simulation.bt_points :=
          (map Fin timeline601,
           arr_mul (map (fun v => fmul v (escala_of (NpFloat (Fin 440)) 440)) (outer601 440))
                   (normal_draws gauss 79 (5 / 100) (Z.to_nat 601))) |}.
Proof.
  eexists.
  erewrite (calc_band_trace_eq gauss sim_ex 79 valve_ex_sim 440 _ (NpFloat (Fin 5)) (NpFloat (Fin 440)));
    [reflexivity | ..].
  - reflexivity.
  - reflexivity.
  - lra.
  - cbn [Simulation.bands sim_ex]. lra.
  - rewrite (radio_body valve_ex_sim _ _ line_ex); [reflexivity | | |];
      unfold valve_ex_sim, valve_ex, sim_ex;
      cbn [Valve.set_sim Valve.l1 Valve.length Valve.y_range Simulation.bands]; lra.
  - replace (- IZR (79 + 1) * (Valve.y_range valve_ex_sim / IZR (Simulation.bands sim_ex)))
      with (-15) by (rewrite plus_IZR; unfold valve_ex_sim, valve_ex, sim_ex;
                     cbn [Valve.set_sim Valve.y_range Simulation.bands]; field).
    exact radio_ex_tip.
  - rewrite v_conteq_np_fin by lra. do 3 f_equal.
    unfold valve_ex_sim, valve_ex, sim_ex.
    cbn [Valve.set_sim Valve.rad Simulation.basal_velocity]. field.
  - cbn [Simulation.seed sim_ex]. lia.
  - cbn [Simulation.dispersion sim_ex]. lra.
Qed.

Lemma band_velocity_continuity_witness :
  exists tr,
    Simulation.calc_band_trace gauss_zero sim_ex 79 valve_ex_sim = Ok tr /\
    (exists interval,
       py_div (Valve.y_range valve_ex_sim) (IZR (Simulation.bands sim_ex)) = Ok interval /\
       Valve.radio valve_ex_sim (- IZR (79 + 1) * interval) = Ok (Simulation.bt_radio2 tr)) /\
    val (Simulation.bt_vel tr) =
      continuity_spec (Simulation.basal_velocity sim_ex) (Valve.rad valve_ex_sim)
                      (val (Simulation.bt_radio2 tr)) /\
    val (Simulation.bt_vel tr) = Valve.v_max valve_ex_sim.
Proof.
  destruct (calc_band_ex_79 gauss_zero) as [r1 H].
  destruct (band_velocity_continuity _ _ _ _ _ H) as (Ha & Hb & Hc).
  eexists. split; [exact H|]. split; [exact Ha|]. split; [exact Hb|].
  apply (Hc unit randint_zero 80%Z 110 10%Z "scatter"%string [valve_ex] (Some 0%Z)
            (5 / 100) None tt tt (sim_ex_init unit randint_zero tt)).
  - now left.
  - reflexivity.
Defined.

(** In the worked simulation the last band reaches the orifice, and its
    velocity is the v_max that [__init__] stored in the valve. *)
Example band_79_velocity_is_v_max (gauss : Z -> nat -> R) :
  exists tr,
    Simulation.calc_band_trace gauss sim_ex 79 valve_ex_sim = Ok tr /\
    val (Simulation.bt_radio2 tr) = Fin (Valve.orif valve_ex_sim) /\
    val (Simulation.bt_vel tr) = Valve.v_max valve_ex_sim /\
    Valve.v_max valve_ex_sim = Fin 440.
Proof.
  destruct (calc_band_ex_79 gauss) as [r1 H].
  eexists. split; [exact H|]. repeat split.
Qed.

(** ** Reproducibility *)

Lemma RandomState_normal_inv (gauss : Z -> nat -> R) (seed : Z) (sd : R)
    (size : nat) (noise : list f64) :
  Simulation.RandomState_normal gauss seed 1 sd size = Ok noise ->
  noise = normal_draws gauss seed sd size.
Proof.
  unfold Simulation.RandomState_normal.
  destruct (_ || _)%bool; [discriminate|].
  destruct (Rlt_dec sd 0); [discriminate|].
  intros H. now injection H as <-.
Qed.

Lemma init_seed_given (G : Type) (randint : G -> Z * G) (bands : Z) (basal : R)
    (groups : Z) (method : string) (valves : list Valve.t) (seed : Z)
    (disp : R) (sim_alfa : option R) (g1 g2 : G) :
  fst (Simulation.init G randint bands basal groups method valves (Some seed)
         disp sim_alfa g1) =
  fst (Simulation.init G randint bands basal groups method valves (Some seed)
         disp sim_alfa g2).
Proof.
  unfold Simulation.init.
  destruct (Simulation.band_grouping bands groups); reflexivity.
Qed.

(** C3: with the seed given, a run does not depend on the state of the
    process-wide generator, so two runs of one configuration return the
    same clouds; the noise of band n is the draw of
    [RandomState(seed + n).normal(1, dispersion, len(trace))], a function
    of seed + n, dispersion and the trace length only; and computing the
    bands in another order permutes the per-band results and changes none. *)
Theorem scatter_reproducible (G : Type) (randint : G -> Z * G)
    (gauss : Z -> nat -> R) (bands : Z) (basal : R) (groups : Z)
    (method : string) (valves : list Valve.t) (seed : Z) (disp : R)
    (sim_alfa : option R) :
  (forall (g1 g2 : G) (group i : Z),
     run_simulation G randint gauss bands basal groups method valves (Some seed)
       disp sim_alfa g1 group i =
     run_simulation G randint gauss bands basal groups method valves (Some seed)
       disp sim_alfa g2 group i) /\
  (forall (s : Simulation.t) (n : Z) (valve : Valve.t) (tr : Simulation.band_trace),
     Simulation.calc_band_trace gauss s n valve = Ok tr ->
     exists w trace,
       Wave.init (Valve.v_max valve) Wave.default_time = Ok w /\
       Wave.wave w (Simulation.bt_vel tr) (Simulation.sep_ms s) = Ok trace /\
       snd (Simulation.bt_points tr) =
         arr_mul trace
           (normal_draws gauss (Simulation.seed s + n) (Simulation.dispersion s)
              (List.length trace))) /\
  (forall (s : Simulation.t) (valve : Valve.t) (order order' : list Z),
     Permutation order order' ->
     Permutation (map (fun n => (n, Simulation.calc_band gauss s n valve)) order)
                 (map (fun n => (n, Simulation.calc_band gauss s n valve)) order')).
Proof.
  repeat split.
  - intros g1 g2 group i. unfold run_simulation.
    now rewrite (init_seed_given G randint bands basal groups method valves seed
                   disp sim_alfa g1 g2).
  - intros s n valve tr H.
    destruct (calc_band_trace_inv _ _ _ _ _ H)
      as (interval & w & xs & ys & noise & _ & Hw & _ & _ & _ & _ & Hys & Hn & Hp).
    exists w, ys. split; [exact Hw|]. split; [exact Hys|].
    rewrite Hp. cbn [snd]. now rewrite (RandomState_normal_inv _ _ _ _ _ Hn).
  - intros s valve order order' Hperm. now apply Permutation_map.
Qed.

(** ** Undefined values in the point cloud *)

Lemma fmul_nan_r (x : f64) : fmul x NaN = NaN.
Proof. destruct x; reflexivity. Qed.

Lemma nth_arr_mul (xs ys : list f64) (d : f64) :
  forall i, (i < List.length xs)%nat -> (i < List.length ys)%nat ->
  nth i (arr_mul xs ys) d = fmul (nth i xs d) (nth i ys d).
Proof.
  revert ys. induction xs as [|x xs IH]; intros [|y ys] i Hx Hy;
    cbn [List.length] in *; try lia.
  destruct i as [|i]; [reflexivity|]. cbn [arr_mul nth]. apply IH; lia.
Qed.

Lemma arr_mul_nan_l (xs ys : list f64) :
  Forall (fun x => x = NaN) xs -> Forall (fun y => y = NaN) (arr_mul xs ys).
Proof.
  revert ys. induction xs as [|x xs IH]; intros [|y ys] H; cbn [arr_mul];
    try constructor.
  - inversion H; subst. reflexivity.
  - apply IH. now inversion H.
Qed.

Lemma nth_map_default {A B : Type} (f : A -> B) (l : list A) (d : B) (d' : A) (i : nat) :
  (i < List.length l)%nat -> nth i (map f l) d = f (nth i l d').
Proof.
  intros Hi. rewrite nth_indep with (d' := f d') by (now rewrite length_map).
  apply map_nth.
Qed.

Lemma timeline601_nth (i : nat) :
  (i < 601)%nat -> nth i timeline601 0 = INR i * 1.
Proof.
  intros Hi. unfold timeline601.
  rewrite nth_map_default with (d' := 0%nat) by (rewrite length_seq; lia).
  rewrite seq_nth by lia. reflexivity.
Qed.

Lemma INR_lt_80 (i : nat) : (i < 80)%nat -> INR i < 80.
Proof.
  intros H. apply lt_INR in H. rewrite (INR_IZR_INZ 80) in H. exact H.
Qed.

(** Before the onset (80 ms) the outer wave is the undefined marker. *)
Lemma outer601_nan (p : R) (i : nat) :
  (i < 80)%nat -> nth i (outer601 p) (Fin 0) = NaN.
Proof.
  intros Hi. unfold outer601.
  rewrite nth_map_default with (d' := 0) by (rewrite timeline601_length; lia).
  rewrite timeline601_nth by lia.
  pose proof (INR_lt_80 i Hi). unfold wavepoint_R.
  destruct (Rlt_dec _ _); [reflexivity | exfalso; lra].
Qed.

(** On a valve of finite positive v_max, in a simulation built by
    [__init__], the points of a band keep the 80 samples that precede the
    onset: their time is a number and their velocity is undefined. *)
Lemma cloud_keeps_undefined (gauss : Z -> nat -> R) (s : Simulation.t) (n : Z)
    (valve : Valve.t) (p : R) (tr : Simulation.band_trace) :
  Simulation.sep_ms s = 1 -> Valve.v_max valve = Fin p -> 0 < p ->
  Simulation.calc_band_trace gauss s n valve = Ok tr ->
  List.length (fst (Simulation.bt_points tr)) = 601%nat /\
  List.length (snd (Simulation.bt_points tr)) = 601%nat /\
  forall i, (i < 80)%nat ->
    nth i (fst (Simulation.bt_points tr)) NaN = Fin (INR i * 1) /\
    nth i (snd (Simulation.bt_points tr)) (Fin 0) = NaN.
Proof.
  intros Hsep Hv Hp H.
  destruct (calc_band_trace_inv _ _ _ _ _ H)
    as (interval & w & xs & ys & noise & _ & Hw & _ & _ & _ & Hxs & Hys & Hn & Hpts).
  rewrite Hv in Hw. rewrite Hsep in Hxs, Hys.
  rewrite (wave_default p _ Hp w Hw) in Hys. apply Ok_inj in Hys. subst ys.
  unfold Wave.get_timeline in Hxs.
  assert (Ht : Wave.time w = Wave.default_time).
  { rewrite wave_init_fin in Hw. now injection Hw as <-. }
  rewrite Ht, np_arange_601 in Hxs. apply Ok_inj in Hxs. subst xs.
  apply RandomState_normal_inv in Hn. subst noise.
  rewrite Hpts. cbn [fst snd].
  assert (H601 : Z.to_nat 601 = 601%nat) by reflexivity.
  assert (Hlen1 : List.length (map (fun v => fmul v (escala_of (Simulation.bt_vel tr) p)) (outer601 p)) = 601%nat).
  { now rewrite length_map, outer601_length. }
  assert (Hlen2 : forall sd k, List.length (normal_draws gauss sd (Simulation.dispersion s) k) = k).
  { intros sd k. unfold normal_draws. now rewrite length_map, length_seq. }
  split; [| split; [| intros i Hi; split]].
  - now rewrite length_map, timeline601_length.
  - rewrite arr_mul_length; [exact Hlen1 | now rewrite Hlen2].
  - rewrite nth_map_default with (d' := 0) by (rewrite timeline601_length; lia).
    rewrite timeline601_nth by lia. reflexivity.
  - rewrite nth_arr_mul by (rewrite ?Hlen1, ?Hlen2; lia).
    rewrite nth_map_default with (d' := Fin 0) by (rewrite outer601_length; lia).
    rewrite outer601_nan by assumption. reflexivity.
Qed.

(** *** The default configuration *)

Lemma orif_default_pos : 0 < orif_default.
Proof.
  unfold orif_default. pose proof PI_RGT_0.
  assert (0 < sqrt (8 / 10 / PI)).
  { apply sqrt_lt_R0. apply Rdiv_lt_0_compat; lra. }
  lra.
Qed.

Lemma v_max_default_pos : 0 < v_max_default.
Proof.
  unfold v_max_default. pose proof orif_default_pos.
  apply Rdiv_lt_0_compat; [lra | nra].
Qed.

Lemma valve_default_init : Valve.default = Ok valve_default.
Proof.
  unfold Valve.default. rewrite valve_init_total.
  destruct (Rlt_dec (8 / 10) 0); [exfalso; lra|].
  destruct (Rgt_dec 10 0); [reflexivity | exfalso; lra].
Qed.

Lemma sim_default_init (G : Type) (randint : G -> Z * G) (g : G) :
  Simulation.init G randint 80 110 10 "scatter" [valve_default] (Some 0%Z) (5 / 100) None g
  = (Ok sim_default, g).
Proof.
  pose proof orif_default_pos.
  unfold Simulation.init. rewrite band_grouping_80_10.
  cbn [mapM]. unfold Simulation.init_valve.
  rewrite v_conteq_py_fin by (cbn [valve_default Valve.orif]; lra).
  cbn [bind]. rewrite py_div_ok by lra. cbn [bind map Simulation.py_max fold_left].
  reflexivity.
Qed.

(** Every band of the first 53 lies in the LVOT, where the radius is
    rad and the band velocity the basal velocity. *)
Lemma calc_band_default_lvot (gauss : Z -> nat -> R) (n : Z) :
  (0 <= n <= 52)%Z ->
  exists tr, Simulation.calc_band_trace gauss sim_default n valve_default_sim = Ok tr.
Proof.
  intros Hn. eexists.
  assert (H0 : 0 <= IZR n <= 52) by (split; apply IZR_le; lia).
  erewrite (calc_band_trace_eq gauss sim_default n valve_default_sim v_max_default
              (PyFloat (Fin 10)) (PyFloat (Fin 10)));
    [reflexivity | ..].
  - reflexivity.
  - reflexivity.
  - exact v_max_default_pos.
  - cbn [Simulation.bands sim_default]. lra.
  - apply radio_lvot; cbn [valve_default_sim valve_default Valve.set_sim Valve.l1
      Valve.y_range sim_default Simulation.bands]; lra.
  - apply radio_lvot; rewrite plus_IZR;
      cbn [valve_default_sim valve_default Valve.set_sim Valve.l1
           Valve.y_range sim_default Simulation.bands]; lra.
  - apply v_conteq_py_fin. lra.
  - cbn [Simulation.seed sim_default]. lia.
  - cbn [Simulation.dispersion sim_default]. lra.
Qed.

(** The loop of [calc_group] only appends: the points gathered so far
    stay in front. *)
Lemma group_loop_prefix (gauss : Z -> nat -> R) (s : Simulation.t)
    (valve : Valve.t) (band_0 : Z) (ns : list Z) :
  forall (cont points : Simulation.arr2) (r : Simulation.arr2 * Simulation.arr2),
    Simulation.group_loop gauss s valve band_0 ns cont points = Ok r ->
    exists mx my, fst (snd r) = fst points ++ mx /\ snd (snd r) = snd points ++ my.
Proof.
  induction ns as [|n ns IH]; intros cont points r H.
  - cbn [Simulation.group_loop] in H. apply Ok_inj in H. subst r.
    exists [], []. cbn [fst snd]. now rewrite !app_nil_r.
  - cbn [Simulation.group_loop] in H. bind_inv H.
    destruct (IH _ _ _ H) as (mx & my & Hx & Hy).
    cbn [Simulation.arr2_append fst snd] in Hx, Hy.
    eexists _, _. rewrite Hx, Hy, <- !app_assoc. split; reflexivity.
Qed.

Lemma group_loop_first (gauss : Z -> nat -> R) (s : Simulation.t)
    (valve : Valve.t) (band_0 n : Z) (ns : list Z)
    (cont points : Simulation.arr2) (cp r : Simulation.arr2 * Simulation.arr2) :
  Simulation.calc_band gauss s n valve = Ok cp ->
  Simulation.group_loop gauss s valve band_0 (n :: ns) cont points = Ok r ->
  exists mx my,
    fst (snd r) = fst points ++ fst (snd cp) ++ mx /\
    snd (snd r) = snd points ++ snd (snd cp) ++ my.
Proof.
  intros Hcp H. cbn [Simulation.group_loop] in H. rewrite Hcp in H. cbn [bind] in H.
  destruct (group_loop_prefix _ _ _ _ _ _ _ _ H) as (mx & my & Hx & Hy).
  cbn [Simulation.arr2_append fst snd] in Hx, Hy.
  exists mx, my. now rewrite Hx, Hy, <- !app_assoc.
Qed.

Lemma group_loop_ok (gauss : Z -> nat -> R) (s : Simulation.t)
    (valve : Valve.t) (band_0 : Z) (ns : list Z) :
  (forall n, In n ns -> exists tr, Simulation.calc_band_trace gauss s n valve = Ok tr) ->
  forall cont points,
    exists r, Simulation.group_loop gauss s valve band_0 ns cont points = Ok r.
Proof.
  induction ns as [|n ns IH]; intros Hall cont points.
  - eexists. reflexivity.
  - destruct (Hall n (or_introl eq_refl)) as [tr Htr].
    cbn [Simulation.group_loop]. unfold Simulation.calc_band. rewrite Htr. cbn [bind].
    apply IH. intros m Hm. apply Hall. now right.
Qed.

(** C5 fails on the default configuration: the cloud that band 0
    returns has 601 points, and each of the first 80 pairs a defined time
    with an undefined velocity; the cloud that [calc_group] returns for the
    first group starts with the same 80 pairs. *)
Theorem calc_band_emits_undefined (gauss : Z -> nat -> R) :
  (exists cont xs ys,
     Simulation.calc_band gauss sim_default 0 valve_default_sim = Ok (cont, (xs, ys)) /\
     List.length xs = 601%nat /\ List.length ys = 601%nat /\
     forall i, (i < 80)%nat ->
       nth i xs NaN = Fin (INR i * 1) /\ nth i ys (Fin 0) = NaN) /\
  (exists polig xs ys,
     Simulation.calc_group gauss sim_default 0 (Some valve_default_sim)
       = Ok (polig, (xs, ys)) /\
     forall i, (i < 80)%nat ->
       nth i xs NaN = Fin (INR i * 1) /\ nth i ys (Fin 0) = NaN).
Proof.
  destruct (calc_band_default_lvot gauss 0 ltac:(lia)) as [tr H].
  pose proof (cloud_keeps_undefined gauss sim_default 0 valve_default_sim
                v_max_default tr eq_refl eq_refl v_max_default_pos H) as (H1 & H2 & H3).
  split.
  - unfold Simulation.calc_band. rewrite H. cbn [bind].
    destruct (Simulation.bt_points tr) as [xs ys]. cbn [fst snd] in *.
    exists (Simulation.bt_contour tr), xs, ys.
    split; [reflexivity|]. split; [exact H1|]. split; [exact H2 | exact H3].
  - unfold Simulation.calc_group. cbn [bind].
    rewrite v_conteq_py_fin
      by (pose proof orif_default_pos; cbn [valve_default_sim valve_default Valve.set_sim Valve.orif]; lra).
    assert (Hidx : py_index (Simulation.group_limits sim_default) 0 = Ok 8%Z) by reflexivity.
    rewrite Hidx.
    cbn [bind Simulation.band_groups sim_default Z.geb Z.compare Z.eqb].
    change (Simulation.py_range (fst (0%Z, 8%Z)) (snd (0%Z, 8%Z)))
      with (0 :: [1; 2; 3; 4; 5; 6; 7])%Z.
    cbn [fst snd].
    assert (Hall : forall n, In n [0; 1; 2; 3; 4; 5; 6; 7]%Z ->
              exists tr', Simulation.calc_band_trace gauss sim_default n valve_default_sim = Ok tr').
    { intros n Hn. apply calc_band_default_lvot. cbn [In] in Hn. lia. }
    destruct (group_loop_ok gauss sim_default valve_default_sim 0 _ Hall
                Simulation.arr2_empty Simulation.arr2_empty) as [r Hr].
    rewrite Hr. cbn [bind].
    assert (Hcp : Simulation.calc_band gauss sim_default 0 valve_default_sim
                  = Ok (Simulation.bt_contour tr, Simulation.bt_points tr)).
    { unfold Simulation.calc_band. now rewrite H. }
    destruct (group_loop_first _ _ _ _ _ _ _ _ _ _ Hcp Hr) as (mx & my & Hx & Hy).
    cbn [Simulation.arr2_empty fst snd app] in Hx, Hy.
    destruct r as [c [xs ys]]. cbn [fst snd] in *.
    eexists _, xs, ys. split; [reflexivity|].
    intros i Hi. subst xs ys. rewrite !app_nth1 by lia. now apply H3.
Qed.

(** ** No degenerate-geometry check *)

Lemma py_truediv_nan (a b e : pynum) :
  val a = NaN -> py_truediv a b = Ok e -> val e = NaN.
Proof.
  intros Ha H. destruct a as [x|x], b as [y|y]; cbn [val] in Ha; subst x;
    cbn [py_truediv val] in H.
  - unfold py_fdiv in H. destruct (is_zero y); [discriminate|].
    cbn [bind] in H. apply Ok_inj in H. now subst e.
  - apply Ok_inj in H. now subst e.
  - apply Ok_inj in H. now subst e.
  - apply Ok_inj in H. now subst e.
Qed.

Lemma wave_nan (w : Wave.t) (vel : pynum) (sep : R) (ys : list f64) :
  val vel = NaN -> Wave.wave w vel sep = Ok ys -> Forall (fun y => y = NaN) ys.
Proof.
  intros Hv H. unfold Wave.wave in H. bind_inv H. bind_inv H.
  apply Ok_inj in H. subst ys.
  rewrite (py_truediv_nan _ _ _ Hv E).
  apply Forall_forall. intros y Hy. apply in_map_iff in Hy.
  destruct Hy as [v [<- _]]. apply fmul_nan_r.
Qed.

(** C6 (amended): [v_conteq] has no degenerate-geometry check.  A
    radius that is a Python float 0.0 makes the division raise
    ZeroDivisionError; every other radius is accepted: a non-zero radius,
    however small, gives basal * rad^2 / radio^2, a numpy zero gives an
    infinity (nan when the numerator is 0), an undefined radius gives an
    undefined velocity, and [calc_band] then returns a cloud whose
    velocities are all undefined. *)
Theorem v_conteq_no_degenerate_check (valve : Valve.t) (basal : R) :
  Simulation.v_conteq (PyFloat (Fin 0)) valve basal = Raise ZeroDivisionError /\
  (forall r, r <> 0 ->
     Simulation.v_conteq (PyFloat (Fin r)) valve basal
       = Ok (PyFloat (Fin (basal * Valve.rad valve ^ 2 / (r * r)))) /\
     Simulation.v_conteq (NpFloat (Fin r)) valve basal
       = Ok (NpFloat (Fin (basal * Valve.rad valve ^ 2 / (r * r))))) /\
  Simulation.v_conteq (NpFloat (Fin 0)) valve basal
    = Ok (NpFloat (inf_of_sign (basal * Valve.rad valve ^ 2))) /\
  Simulation.v_conteq (PyFloat NaN) valve basal = Ok (PyFloat NaN) /\
  Simulation.v_conteq (NpFloat NaN) valve basal = Ok (NpFloat NaN) /\
  (forall (gauss : Z -> nat -> R) (s : Simulation.t) (n : Z)
          (tr : Simulation.band_trace),
     Simulation.calc_band_trace gauss s n valve = Ok tr ->
     val (Simulation.bt_radio2 tr) = NaN ->
     val (Simulation.bt_vel tr) = NaN /\
     Forall (fun y => y = NaN) (snd (Simulation.bt_points tr))).
Proof.
  split; [apply v_conteq_py_zero|].
  split; [intros r Hr; split; [now apply v_conteq_py_fin | now apply v_conteq_np_fin]|].
  split; [apply v_conteq_np_zero|].
  split; [apply v_conteq_nan|].
  split; [apply v_conteq_nan|].
  intros gauss s n tr H Hnan.
  destruct (calc_band_trace_inv _ _ _ _ _ H)
    as (interval & w & xs & ys & noise & _ & _ & _ & _ & Hvel & _ & Hys & _ & Hpts).
  assert (Hv : val (Simulation.bt_vel tr) = NaN).
  { rewrite (v_conteq_spec _ _ _ _ Hvel), Hnan. reflexivity. }
  split; [exact Hv|].
  rewrite Hpts. cbn [snd]. apply arr_mul_nan_l. exact (wave_nan _ _ _ _ Hv Hys).
Qed.

(** ** The amended statements at concrete inputs *)

Lemma radio_below_tolerance (v : Valve.t) (y : R) :
  y <= 0 -> y < - Valve.l1 v -> y < - (Valve.l1 v + Valve.length v) ->
  y < - (Valve.l1 v + Valve.length v + 2) ->
  Valve.radio v y = Ok (PyFloat NaN).
Proof.
  intros H0 H1 H2 H3. unfold Valve.radio.
  destruct (Rgt_dec y 0); [exfalso; lra|].
  destruct (Rge_dec y (- Valve.l1 v)); [exfalso; lra|].
  destruct (Rge_dec y (- (Valve.l1 v + Valve.length v))); [exfalso; lra|].
  destruct (Rge_dec y (- (Valve.l1 v + Valve.length v + 2))); [exfalso; lra | reflexivity].
Qed.

(** [radio(1)]: a positive height is outside the domain. *)
Example radio_positive_height : Valve.radio valve_ex 1 = Ok (PyFloat NaN).
Proof. unfold Valve.radio. destruct (Rgt_dec 1 0); [reflexivity | exfalso; lra]. Qed.

(** A band index past the tip of the valve: both radii are undefined
    and [calc_band] still returns. *)
Lemma calc_band_ex_100 (gauss : Z -> nat -> R) :
  exists tr,
    Simulation.calc_band_trace gauss sim_ex 100 valve_ex_sim = Ok tr /\
    val (Simulation.bt_radio2 tr) = NaN.
Proof.
  eexists.
  erewrite (calc_band_trace_eq gauss sim_ex 100 valve_ex_sim 440
              (PyFloat NaN) (PyFloat NaN) (PyFloat NaN));
    [split; reflexivity | ..].
  - reflexivity.
  - reflexivity.
  - lra.
  - cbn [Simulation.bands sim_ex]. lra.
  - apply radio_below_tolerance;
      unfold valve_ex_sim, valve_ex, sim_ex;
      cbn [Valve.set_sim Valve.l1 Valve.length Valve.y_range Simulation.bands]; lra.
  - apply radio_below_tolerance; rewrite plus_IZR;
      unfold valve_ex_sim, valve_ex, sim_ex;
      cbn [Valve.set_sim Valve.l1 Valve.length Valve.y_range Simulation.bands]; lra.
  - reflexivity.
  - cbn [Simulation.seed sim_ex]. lia.
  - cbn [Simulation.dispersion sim_ex]. lra.
Qed.

Lemma v_conteq_no_degenerate_check_witness :
  exists tr,
    Simulation.calc_band_trace gauss_zero sim_ex 100 valve_ex_sim = Ok tr /\
    val (Simulation.bt_radio2 tr) = NaN /\
    val (Simulation.bt_vel tr) = NaN /\
    Forall (fun y => y = NaN) (snd (Simulation.bt_points tr)).
Proof.
  destruct (calc_band_ex_100 gauss_zero) as (tr & H & Hr2).
  exists tr. split; [exact H|]. split; [exact Hr2|].
  destruct (v_conteq_no_degenerate_check valve_ex_sim 110) as (_ & _ & _ & _ & _ & Hc).
  exact (Hc gauss_zero sim_ex 100%Z tr H Hr2).
Defined.

Lemma valve_init_no_validation_witness :
  exists v,
    Valve.init 10 0 (-5) 3 0 1 "blob" 2 0 = Ok v /\
    Valve.l1 v = 10 /\ Valve.length v = -5 /\ Valve.rad v = 3 /\
    Valve.shape v = "blob"%string /\ Valve.trim_factor v = 0 /\
    Valve.orif v = sqrt (0 / PI) * 10 /\
    Valve.y_range v = -5 + 10 /\
    (0 < 0 -> Valve.l2 v = 0) /\ (0 <= 0 -> Valve.l2 v = 10).
Proof.
  destruct (valve_init_no_validation 10 0 (-5) 3 0 1 "blob" 2 0) as [_ H].
  apply H. lra.
Defined.

Lemma scatter_reproducible_witness :
  exists tr w trace,
    Simulation.calc_band_trace gauss_zero sim_ex 79 valve_ex_sim = Ok tr /\
    Wave.init (Valve.v_max valve_ex_sim) Wave.default_time = Ok w /\
    Wave.wave w (Simulation.bt_vel tr) (Simulation.sep_ms sim_ex) = Ok trace /\
    snd (Simulation.bt_points tr) =
      arr_mul trace
        (normal_draws gauss_zero (Simulation.seed sim_ex + 79)
           (Simulation.dispersion sim_ex) (List.length trace)).
Proof.
  destruct (calc_band_ex_79 gauss_zero) as [r1 H].
  destruct (scatter_reproducible unit randint_zero gauss_zero 80 110 10 "scatter"
              [valve_ex] 0 (5 / 100) None) as (_ & Hn & _).
  destruct (Hn sim_ex 79%Z valve_ex_sim _ H) as (w & trace & Hw & Ht & Hp).
  eexists _, w, trace. split; [exact H|]. split; [exact Hw|]. split; [exact Ht | exact Hp].
Defined.

(* ================================================================= *)
(** * Further properties of the code *)

(** ** Orifice radius *)

Lemma ava_to_rad_nonneg (a : R) :
  0 <= a -> Valve.ava_to_rad a = PyReal (sqrt (a / PI) * 10).
Proof.
  intros Ha. unfold Valve.ava_to_rad, py_pow_half.
  pose proof (ava_over_pi_neg a) as Hneg.
  destruct (Rlt_dec (a / PI) 0) as [H|H]; [exfalso; apply Hneg in H; lra | reflexivity].
Qed.

(** [ava_to_rad] inverts the area of a disc: the radius it returns for
    an area a >= 0 (cm2) is never negative, a disc of that radius (in cm,
    a tenth of the value in mm) has area a, and a larger area gives a
    strictly larger radius. *)
Theorem ava_to_rad_area (a b : R) :
  0 <= a -> a < b ->
  exists ra rb,
    Valve.ava_to_rad a = PyReal ra /\ Valve.ava_to_rad b = PyReal rb /\
    0 <= ra /\ ra < rb /\
    PI * (ra / 10) ^ 2 = a /\ PI * (rb / 10) ^ 2 = b.
Proof.
  intros Ha Hab. pose proof PI_RGT_0 as Hpi.
  exists (sqrt (a / PI) * 10), (sqrt (b / PI) * 10).
  rewrite !ava_to_rad_nonneg by lra.
  assert (Hda : 0 <= a / PI) by (apply Rmult_le_pos; [lra | left; apply Rinv_0_lt_compat; lra]).
  assert (Hdb : 0 <= b / PI) by (apply Rmult_le_pos; [lra | left; apply Rinv_0_lt_compat; lra]).
  assert (Hlt : a / PI < b / PI).
  { unfold Rdiv. apply Rmult_lt_compat_r; [apply Rinv_0_lt_compat; lra | lra]. }
  split; [reflexivity|]. split; [reflexivity|].
  pose proof (sqrt_pos (a / PI)) as Hsa.
  pose proof (sqrt_lt_1 _ _ Hda Hdb Hlt) as Hs.
  split; [lra|]. split; [lra|].
  split.
  - replace (PI * (sqrt (a / PI) * 10 / 10) ^ 2)
      with (PI * (sqrt (a / PI) * sqrt (a / PI))) by field.
    rewrite sqrt_sqrt by exact Hda. field. lra.
  - replace (PI * (sqrt (b / PI) * 10 / 10) ^ 2)
      with (PI * (sqrt (b / PI) * sqrt (b / PI))) by field.
    rewrite sqrt_sqrt by exact Hdb. field. lra.
Qed.

Lemma ava_to_rad_area_witness :
  exists ra rb,
    Valve.ava_to_rad (8 / 10) = PyReal ra /\ Valve.ava_to_rad 2 = PyReal rb /\
    0 <= ra /\ ra < rb /\
    PI * (ra / 10) ^ 2 = 8 / 10 /\ PI * (rb / 10) ^ 2 = 2.
Proof. apply (ava_to_rad_area (8 / 10) 2); lra. Defined.

(** ** Band grouping beyond the balanced case *)

(** With at least one group, whatever the number of bands: there is one
    cutoff per group, the cutoffs never decrease when bands >= 0, the last
    one is bands, and when there are more groups than bands the first
    bands groups hold one band each and every later group is empty. *)
Theorem band_grouping_any_bands (b g : Z) :
  (1 <= g)%Z ->
  exists limits,
    Simulation.band_grouping b g = Ok limits /\
    List.length limits = Z.to_nat g /\
    last limits 0%Z = b /\
    zsum (group_counts 0 limits) = b /\
    ((0 <= b)%Z -> Forall (fun c => (0 <= c)%Z) (group_counts 0 limits)) /\
    ((0 <= b < g)%Z ->
     group_counts 0 limits =
       map (fun k => if (Z.of_nat k <? b)%Z then 1%Z else 0%Z) (seq 0 (Z.to_nat g))).
Proof.
  intros Hg.
  pose proof (Z.mod_pos_bound b g ltac:(lia)) as Hmod.
  pose proof (Z.div_mod b g ltac:(lia)) as Hdiv.
  unfold Simulation.band_grouping.
  destruct (Z.eqb_spec g 0) as [->|_]; [lia|].
  eexists. split; [reflexivity|].
  rewrite grouping_loop_closed by lia.
  assert (Hcounts :
    group_counts 0
      (map (fun k => (0 + (Z.of_nat k + 1) * (b / g) + Z.min (Z.of_nat k + 1) (b mod g))%Z)
           (seq 0 (Z.to_nat g))) =
    map (fun k => if (Z.of_nat k <? b mod g)%Z then (b / g + 1)%Z else (b / g)%Z)
        (seq 0 (Z.to_nat g))).
  { rewrite <- (group_counts_closed (b / g) (b mod g) (Z.to_nat g) 0).
    f_equal. cbn. lia. }
  split; [now rewrite length_map, length_seq|].
  split.
  { destruct (Z.to_nat g) as [|m] eqn:Hm; [lia|].
    rewrite seq_S, map_app. cbn [map]. rewrite last_last.
    replace (Z.of_nat (0 + m)) with (g - 1)%Z by lia. nia. }
  split.
  { rewrite Hcounts, zsum_counts. rewrite Z2Nat.id by lia.
    replace (Z.of_nat (0 + Z.to_nat g)) with g by lia. cbn [Z.of_nat]. nia. }
  split.
  { intros Hb. rewrite Hcounts. apply Forall_forall. intros c Hc.
    apply in_map_iff in Hc. destruct Hc as [k [<- _]].
    pose proof (Z.div_pos b g Hb ltac:(lia)).
    destruct (Z.ltb_spec (Z.of_nat k) (b mod g)); lia. }
  intros Hb. rewrite Hcounts.
  rewrite (Z.div_small b g) by lia. rewrite (Z.mod_small b g) by lia.
  reflexivity.
Qed.

Lemma band_grouping_any_bands_witness :
  exists limits,
    Simulation.band_grouping 2 5 = Ok limits /\
    List.length limits = Z.to_nat 5 /\
    last limits 0%Z = 2%Z /\
    zsum (group_counts 0 limits) = 2%Z /\
    ((0 <= 2)%Z -> Forall (fun c => (0 <= c)%Z) (group_counts 0 limits)) /\
    ((0 <= 2 < 5)%Z ->
     group_counts 0 limits =
       map (fun k => if (Z.of_nat k <? 2)%Z then 1%Z else 0%Z) (seq 0 (Z.to_nat 5))).
Proof. apply (band_grouping_any_bands 2 5); lia. Defined.

Example band_grouping_2_5 : Simulation.band_grouping 2 5 = Ok [1; 2; 2; 2; 2]%Z.
Proof. reflexivity. Qed.

(** ** Construction of a simulation *)

Lemma mapM_Forall2 {A B : Type} (f : A -> result B) (l : list A) :
  forall l', mapM f l = Ok l' -> Forall2 (fun a b => f a = Ok b) l l'.
Proof.
  induction l as [|a l IH]; intros l' H.
  - apply Ok_inj in H. subst l'. constructor.
  - cbn [mapM] in H. bind_inv H. bind_inv H. apply Ok_inj in H. subst l'.
    constructor; [assumption | now apply IH].
Qed.

Lemma mapM_ok_iff {A B : Type} (f : A -> result B) (l : list A) :
  (exists l', mapM f l = Ok l') <-> Forall (fun a => exists b, f a = Ok b) l.
Proof.
  induction l as [|a l IH].
  - split; [constructor | intros _; eexists; reflexivity].
  - split.
    + intros [l' H]. cbn [mapM] in H. bind_inv H. bind_inv H.
      constructor; [eexists; eassumption | apply IH; eexists; reflexivity].
    + intros H. inversion H as [|? ? [b Hb] Hl]; subst.
      apply IH in Hl. destruct Hl as [l' Hl'].
      exists (b :: l'). cbn [mapM]. rewrite Hb. cbn [bind]. rewrite Hl'. reflexivity.
Qed.

Lemma init_valve_spec (bands : Z) (basal : R) (sim_alfa : option R) (v : Valve.t) :
  Simulation.init_valve bands basal sim_alfa v =
  if Req_dec_T (Valve.orif v) 0 then Raise ZeroDivisionError
  else match sim_alfa with
       | Some a =>
           Ok (Valve.set_sim v
                 (Fin (basal * Valve.rad v ^ 2 / (Valve.orif v * Valve.orif v))) a)
       | None =>
           if Z.eq_dec bands 0 then Raise ZeroDivisionError
           else Ok (Valve.set_sim v
                      (Fin (basal * Valve.rad v ^ 2 / (Valve.orif v * Valve.orif v)))
                      (12 / IZR bands))
       end.
Proof.
  unfold Simulation.init_valve.
  destruct (Req_dec_T (Valve.orif v) 0) as [H0|H0].
  - rewrite H0, v_conteq_py_zero. reflexivity.
  - rewrite v_conteq_py_fin by exact H0. cbn [bind val].
    destruct sim_alfa as [a|]; [reflexivity|].
    destruct (Z.eq_dec bands 0) as [->|Hb].
    + unfold py_div. destruct (Req_dec_T 0 0); [reflexivity | exfalso; lra].
    + rewrite py_div_ok; [reflexivity|]. intros H. apply eq_IZR_R0 in H. contradiction.
Qed.

Lemma init_valve_ok_iff (bands : Z) (basal : R) (sim_alfa : option R) (v : Valve.t) :
  (exists v', Simulation.init_valve bands basal sim_alfa v = Ok v') <->
  Valve.orif v <> 0 /\ (sim_alfa = None -> bands <> 0%Z).
Proof.
  rewrite init_valve_spec.
  destruct (Req_dec_T (Valve.orif v) 0) as [H0|H0].
  - split; [intros [v' H]; discriminate | intros [H _]; contradiction].
  - destruct sim_alfa as [a|].
    + split; [intros _; split; [assumption | discriminate] | intros _; eexists; reflexivity].
    + destruct (Z.eq_dec bands 0) as [Hb|Hb].
      * split; [intros [v' H]; discriminate | intros [_ H]; exfalso; now apply H].
      * split; [intros _; split; [assumption | intros _; assumption]
               | intros _; eexists; reflexivity].
Qed.

(** [Simulation.__init__] returns a simulation exactly when band_groups
    is not 0, there is at least one valve, no valve has a zero orifice
    radius and, unless sim_alfa is given, bands is not 0.  A zero
    band_groups raises ZeroDivisionError before the generator is read. *)
Theorem simulation_init_returns (G : Type) (randint : G -> Z * G) (bands : Z)
    (basal : R) (groups : Z) (method : string) (valves : list Valve.t)
    (seed : option Z) (disp : R) (sim_alfa : option R) (g : G) :
  ((exists s, fst (Simulation.init G randint bands basal groups method valves seed
                     disp sim_alfa g) = Ok s) <->
   groups <> 0%Z /\ valves <> [] /\
   Forall (fun v => Valve.orif v <> 0) valves /\
   (sim_alfa = None -> bands <> 0%Z)) /\
  (groups = 0%Z ->
   Simulation.init G randint bands basal groups method valves seed disp sim_alfa g
     = (Raise ZeroDivisionError, g)).
Proof.
  split.
  - unfold Simulation.init, Simulation.band_grouping.
    destruct (Z.eqb_spec groups 0) as [Hg|Hg].
    { cbn [fst]. split; [intros [s H]; discriminate | intros [H _]; contradiction]. }
    destruct (match seed with Some s0 => (s0, g) | None => randint g end) as [sd g0].
    cbn [fst].
    split.
    + intros [s H]. bind_inv H. bind_inv H.
      assert (HF : Forall (fun a => exists b, Simulation.init_valve bands basal sim_alfa a = Ok b) valves)
        by (apply mapM_ok_iff; eexists; eassumption).
      split; [assumption|]. split.
      * intros ->. cbn [mapM] in E. apply Ok_inj in E. subst x. discriminate.
      * split.
        -- eapply Forall_impl; [| exact HF]. intros v Hv.
           apply init_valve_ok_iff in Hv. tauto.
        -- intros Ha. destruct valves as [|v vs].
           ++ cbn [mapM] in E. apply Ok_inj in E. subst x. discriminate.
           ++ inversion HF as [|? ? Hv _]; subst.
              apply init_valve_ok_iff in Hv. tauto.
    + intros (_ & Hne & HF & Ha).
      assert (HM : exists l', mapM (Simulation.init_valve bands basal sim_alfa) valves = Ok l').
      { apply mapM_ok_iff. eapply Forall_impl; [| exact HF].
        intros v Hv. apply init_valve_ok_iff. tauto. }
      destruct HM as [l' Hl']. rewrite Hl'. cbn [bind].
      destruct l' as [|v' l''].
      * destruct valves; [contradiction|]. cbn [mapM] in Hl'.
        bind_inv Hl'. bind_inv Hl'. discriminate.
      * cbn [map Simulation.py_max bind]. eexists. reflexivity.
  - intros ->. reflexivity.
Qed.

Lemma py_max_fold_fin (xs : list R) : forall m0 : R,
  exists m,
    fold_left (fun m y => if fgt y m then y else m) (map Fin xs) (Fin m0) = Fin m /\
    m0 <= m /\ (forall x, In x xs -> x <= m) /\ (m = m0 \/ In m xs).
Proof.
  induction xs as [|x xs IH]; intros m0.
  - exists m0. cbn. repeat split; try lra; try tauto.
  - cbn [map fold_left]. unfold fgt at 2, flt.
    destruct (Rlt_dec m0 x) as [Hlt|Hge].
    + destruct (IH x) as (m & Hm & H1 & H2 & H3). exists m.
      split; [exact Hm|]. split; [lra|]. split.
      * intros y [<-|Hy]; [lra | now apply H2].
      * right. destruct H3 as [->|H3]; [now left | now right].
    + destruct (IH m0) as (m & Hm & H1 & H2 & H3). exists m.
      split; [exact Hm|]. split; [lra|]. split.
      * intros y [<-|Hy]; [lra | now apply H2].
      * destruct H3 as [->|H3]; [now left | right; now right].
Qed.

Lemma py_max_fin (x : R) (xs : list R) :
  exists m,
    Simulation.py_max (map Fin (x :: xs)) = Ok (Fin m) /\
    (forall y, In y (x :: xs) -> y <= m) /\ In m (x :: xs).
Proof.
  cbn [map Simulation.py_max].
  destruct (py_max_fold_fin xs x) as (m & Hm & H1 & H2 & H3).
  exists m. rewrite Hm. split; [reflexivity|]. split.
  - intros y [<-|Hy]; [exact H1 | now apply H2].
  - destruct H3 as [->|H3]; [now left | now right].
Qed.

(** The continuity equation at the orifice, as [__init__] stores it. *)
Lemma init_valves_v_max (bands : Z) (basal : R) (sim_alfa : option R)
    (valves vs : list Valve.t) :
  mapM (Simulation.init_valve bands basal sim_alfa) valves = Ok vs ->
  map Valve.v_max vs =
  map Fin (map (fun v => basal * Valve.rad v ^ 2 / (Valve.orif v * Valve.orif v)) valves) /\
  map Valve.rad vs = map Valve.rad valves /\
  map Valve.orif vs = map Valve.orif valves /\
  Forall (fun v => Valve.orif v <> 0) valves.
Proof.
  revert vs. induction valves as [|v valves IH]; intros vs H.
  - apply Ok_inj in H. subst vs. repeat split; constructor.
  - cbn [mapM] in H. bind_inv H. bind_inv H. apply Ok_inj in H. subst vs.
    destruct (IH _ eq_refl) as (H1 & H2 & H3 & H4).
    rewrite init_valve_spec in E.
    destruct (Req_dec_T (Valve.orif v) 0) as [H0|H0]; [discriminate|].
    assert (Hx : Valve.v_max x = Fin (basal * Valve.rad v ^ 2 / (Valve.orif v * Valve.orif v))
                 /\ Valve.rad x = Valve.rad v /\ Valve.orif x = Valve.orif v).
    { destruct sim_alfa as [a|].
      - apply Ok_inj in E. subst x. repeat split.
      - destruct (Z.eq_dec bands 0); [discriminate|].
        apply Ok_inj in E. subst x. repeat split. }
    destruct Hx as (Hx1 & Hx2 & Hx3).
    cbn [map]. rewrite Hx1, Hx2, Hx3, H1, H2, H3.
    repeat split. constructor; assumption.
Qed.

(** In a constructed simulation every valve keeps its rad and orif and
    carries v_max = basal_velocity * rad^2 / orif^2, which is at least
    the basal velocity when 0 < orif <= rad and the basal velocity is not
    negative; v_max_scale is the v_max of one of the valves and no valve
    has a larger one. *)
Theorem init_v_max_scale (G : Type) (randint : G -> Z * G) (bands : Z)
    (basal : R) (groups : Z) (method : string) (valves : list Valve.t)
    (seed : option Z) (disp : R) (sim_alfa : option R) (g g' : G)
    (s : Simulation.t) :
  Simulation.init G randint bands basal groups method valves seed disp sim_alfa g
    = (Ok s, g') ->
  (forall v, In v (Simulation.valves s) ->
     Valve.orif v <> 0 /\
     Valve.v_max v = Fin (basal * Valve.rad v ^ 2 / (Valve.orif v * Valve.orif v)) /\
     (0 <= basal -> 0 < Valve.orif v <= Valve.rad v ->
      basal <= basal * Valve.rad v ^ 2 / (Valve.orif v * Valve.orif v))) /\
  exists m,
    Simulation.v_max_scale s = Fin m /\
    (exists v, In v (Simulation.valves s) /\ Valve.v_max v = Fin m) /\
    (forall v x, In v (Simulation.valves s) -> Valve.v_max v = Fin x -> x <= m).
Proof.
  intros H. unfold Simulation.init in H.
  destruct (Simulation.band_grouping bands groups) as [limits|]; [| discriminate H].
  destruct (match seed with Some s0 => (s0, g) | None => randint g end) as [sd g0].
  injection H as H _. bind_inv H. bind_inv H. apply Ok_inj in H. subst s.
  cbn [Simulation.valves Simulation.v_max_scale].
  rename x into vs. rename x0 into scale.
  pose proof (init_valves_v_max _ _ _ _ _ E) as (Hvm & Hrad & Horif & Hnz).
  assert (Hall : forall v, In v vs ->
            Valve.orif v <> 0 /\
            Valve.v_max v = Fin (basal * Valve.rad v ^ 2 / (Valve.orif v * Valve.orif v))).
  { clear E0. revert vs E Hvm Hrad Horif. induction valves as [|v0 valves IH];
      intros vs E Hvm Hrad Horif v Hin.
    - destruct vs; [destruct Hin | discriminate].
    - destruct vs as [|v1 vs]; [discriminate|].
      cbn [map] in Hvm, Hrad, Horif.
      injection Hvm as Hv1 Hvm. injection Hrad as Hr1 Hrad. injection Horif as Ho1 Horif.
      cbn [mapM] in E. bind_inv E. bind_inv E. apply Ok_inj in E.
      injection E as -> ->.
      inversion Hnz as [|? ? Hnz0 Hnz']; subst.
      destruct Hin as [<-|Hin].
      + rewrite Hv1, Hr1, Ho1. split; [assumption | reflexivity].
      + eapply IH; eauto. }
  split.
  - intros v Hin. destruct (Hall v Hin) as [Ho Hv].
    split; [exact Ho|]. split; [exact Hv|].
    intros Hb [Ho1 Ho2].
    assert (Hsq : Valve.orif v * Valve.orif v <= Valve.rad v ^ 2) by (simpl; nra).
    assert (Hpos : 0 < Valve.orif v * Valve.orif v) by nra.
    apply Rmult_le_reg_r with (r := Valve.orif v * Valve.orif v); [exact Hpos|].
    replace (basal * Valve.rad v ^ 2 / (Valve.orif v * Valve.orif v) * (Valve.orif v * Valve.orif v))
      with (basal * Valve.rad v ^ 2) by (field; lra).
    nra.
  - rewrite Hvm in E0.
    destruct valves as [|v0 valves]; [cbn in E0; discriminate|].
    cbn [map] in E0.
    change (Fin (basal * Valve.rad v0 ^ 2 / (Valve.orif v0 * Valve.orif v0))
            :: map Fin (map (fun v => basal * Valve.rad v ^ 2 / (Valve.orif v * Valve.orif v)) valves))
      with (map Fin (basal * Valve.rad v0 ^ 2 / (Valve.orif v0 * Valve.orif v0)
                     :: map (fun v => basal * Valve.rad v ^ 2 / (Valve.orif v * Valve.orif v)) valves))
      in E0.
    destruct (py_max_fin (basal * Valve.rad v0 ^ 2 / (Valve.orif v0 * Valve.orif v0))
                (map (fun v => basal * Valve.rad v ^ 2 / (Valve.orif v * Valve.orif v)) valves))
      as (m & Hm & Hub & Hin).
    rewrite Hm in E0. apply Ok_inj in E0. subst scale.
    exists m. split; [reflexivity|].
    assert (Hmem : forall x, In (Fin x) (map Valve.v_max vs) <->
                     In x (basal * Valve.rad v0 ^ 2 / (Valve.orif v0 * Valve.orif v0)
                           :: map (fun v => basal * Valve.rad v ^ 2 / (Valve.orif v * Valve.orif v)) valves)).
    { intros x. rewrite Hvm. split.
      - intros Hx. apply in_map_iff in Hx. destruct Hx as [y [Hy Hiny]].
        injection Hy as <-. exact Hiny.
      - intros Hx. apply in_map_iff. exists x. split; [reflexivity | exact Hx]. }
    split.
    + apply Hmem in Hin. apply in_map_iff in Hin. destruct Hin as [v [Hv Hvin]].
      exists v. split; assumption.
    + intros v x Hvin Hvx. apply Hub. apply Hmem. rewrite <- Hvx. now apply in_map.
Qed.

Lemma init_v_max_scale_witness :
  (forall v, In v (Simulation.valves sim_ex) ->
     Valve.orif v <> 0 /\
     Valve.v_max v = Fin (110 * Valve.rad v ^ 2 / (Valve.orif v * Valve.orif v)) /\
     (0 <= 110 -> 0 < Valve.orif v <= Valve.rad v ->
      110 <= 110 * Valve.rad v ^ 2 / (Valve.orif v * Valve.orif v))) /\
  exists m,
    Simulation.v_max_scale sim_ex = Fin m /\
    (exists v, In v (Simulation.valves sim_ex) /\ Valve.v_max v = Fin m) /\
    (forall v x, In v (Simulation.valves sim_ex) -> Valve.v_max v = Fin x -> x <= m).
Proof.
  exact (init_v_max_scale unit randint_zero 80 110 10 "scatter" [valve_ex] (Some 0%Z)
           (5 / 100) None tt tt sim_ex (sim_ex_init unit randint_zero tt)).
Defined.

(** ** Shape of the wave *)

Lemma wavepoint_R_cases (p ta td ms q : R) :
  0 < ta -> 0 < td ->
  (ms < q /\ wavepoint_R p ta td ms q = NaN) \/
  (q <= ms <= q + ta /\
   wavepoint_R p ta td ms q
     = Fin (p / (ta * ta) * ((ms + - (q + ta)) * (ms + - (q + ta))) + - p)) \/
  (q + ta < ms < q + ta + td /\
   wavepoint_R p ta td ms q
     = Fin (p / (td * td) * ((ms + - (q + ta)) * (ms + - (q + ta))) + - p)) \/
  (q + ta + td <= ms /\ wavepoint_R p ta td ms q = NaN).
Proof.
  intros Hta Htd. unfold wavepoint_R.
  destruct (Rlt_dec (ms + - (q + ta)) (- ta)); [left; split; [lra | reflexivity]|].
  destruct (Rle_dec (ms + - (q + ta)) 0); [right; left; split; [lra | reflexivity]|].
  destruct (Rlt_dec (ms + - (q + ta)) td);
    [right; right; left; split; [lra | reflexivity]
    | right; right; right; split; [lra | reflexivity]].
Qed.

Lemma parabola_bounds (p d t : R) :
  0 < p -> 0 < d -> t * t <= d * d ->
  - p <= p / (d * d) * (t * t) + - p <= 0.
Proof.
  intros Hp Hd Ht.
  assert (Hdd : 0 < d * d) by nra.
  assert (Hk : 0 < p / (d * d)) by (apply Rdiv_lt_0_compat; assumption).
  assert (Hkd : p / (d * d) * (d * d) = p) by (field; lra).
  split; nra.
Qed.

Lemma parabola_mono (p d t1 t2 : R) :
  0 < p -> 0 < d -> t1 * t1 <= t2 * t2 ->
  p / (d * d) * (t1 * t1) + - p <= p / (d * d) * (t2 * t2) + - p.
Proof.
  intros Hp Hd Ht.
  assert (Hdd : 0 < d * d) by nra.
  assert (Hk : 0 < p / (d * d)) by (apply Rdiv_lt_0_compat; assumption).
  nra.
Qed.

(** For a peak > 0 the velocity [wavepoint] returns is either the
    undefined marker or a number between -peak and 0; after the onset
    instant it does not increase over the acceleration phase
    (q_eyec, q_eyec + t_acel], and it does not decrease over the
    deceleration phase up to q_eyec + t_acel + t_decel.  The onset
    instant ms = q_eyec itself is left out: there the comparison
    t < -t_acel is decided by the rounding of q_eyec + t_acel. *)
Theorem wavepoint_shape (p time q ms1 ms2 : R) :
  0 < p -> ms1 <= ms2 ->
  exists w ta td v1 v2,
    Wave.init (Fin p) time = Ok w /\
    Wave.t_acel w = Fin ta /\ Wave.t_decel w = Fin td /\
    Wave.wavepoint w ms1 q = Ok v1 /\ Wave.wavepoint w ms2 q = Ok v2 /\
    (v1 = NaN \/ exists x, v1 = Fin x /\ - p <= x <= 0) /\
    (q < ms1 -> ms2 <= q + ta ->
     exists x1 x2, v1 = Fin x1 /\ v2 = Fin x2 /\ x2 <= x1) /\
    (q + ta <= ms1 -> ms2 < q + ta + td ->
     exists x1 x2, v1 = Fin x1 /\ v2 = Fin x2 /\ x1 <= x2).
Proof.
  intros Hp Hle. pose proof (t_decel_R_pos p Hp) as Hd.
  pose proof (t_acel_R_ge_70 p) as Ha.
  set (ta := t_acel_R p) in *. set (td := t_eyec_R p + - ta) in *.
  destruct (Wave.init (Fin p) time) as [w|] eqn:Hw;
    [| rewrite wave_init_fin in Hw; discriminate].
  exists w, ta, td, (wavepoint_R p ta td ms1 q), (wavepoint_R p ta td ms2 q).
  split; [reflexivity|].
  split; [rewrite wave_init_fin in Hw; apply Ok_inj in Hw; now subst w|].
  split; [rewrite wave_init_fin in Hw; apply Ok_inj in Hw; now subst w|].
  split; [exact (wavepoint_default p time ms1 q Hp w Hw)|].
  split; [exact (wavepoint_default p time ms2 q Hp w Hw)|].
  assert (Hta : 0 < ta) by lra.
  split; [| split].
  - destruct (wavepoint_R_cases p ta td ms1 q Hta Hd)
      as [[H1 E1] | [[H1 E1] | [[H1 E1] | [H1 E1]]]]; rewrite E1.
    + now left.
    + right. eexists. split; [reflexivity|]. apply parabola_bounds; nra.
    + right. eexists. split; [reflexivity|]. apply parabola_bounds; nra.
    + now left.
  - intros Hlo Hhi.
    destruct (wavepoint_R_cases p ta td ms1 q Hta Hd)
      as [[H1 E1] | [[H1 E1] | [[H1 E1] | [H1 E1]]]]; try (exfalso; lra).
    destruct (wavepoint_R_cases p ta td ms2 q Hta Hd)
      as [[H2 E2] | [[H2 E2] | [[H2 E2] | [H2 E2]]]]; try (exfalso; lra).
    rewrite E1, E2. eexists _, _. split; [reflexivity|]. split; [reflexivity|].
    apply parabola_mono; nra.
  - intros Hlo Hhi.
    assert (Hk : 0 < p / (td * td)) by (apply Rdiv_lt_0_compat; nra).
    destruct (wavepoint_R_cases p ta td ms1 q Hta Hd)
      as [[H1 E1] | [[H1 E1] | [[H1 E1] | [H1 E1]]]]; try (exfalso; lra);
    destruct (wavepoint_R_cases p ta td ms2 q Hta Hd)
      as [[H2 E2] | [[H2 E2] | [[H2 E2] | [H2 E2]]]]; try (exfalso; lra);
    rewrite E1, E2; eexists _, _; (split; [reflexivity|]); (split; [reflexivity|]).
    + assert (ms1 = q + ta) by lra. assert (ms2 = q + ta) by lra. subst ms1 ms2. lra.
    + assert (ms1 = q + ta) by lra. subst ms1.
      replace ((q + ta + - (q + ta)) * (q + ta + - (q + ta))) with 0 by ring.
      apply Rplus_le_compat_r. rewrite Rmult_0_r.
      apply Rmult_le_pos; [lra | apply Rle_0_sqr].
    + apply parabola_mono; nra.
Qed.

Lemma wavepoint_shape_witness :
  exists w ta td v1 v2,
    Wave.init (Fin 450) 600 = Ok w /\
    Wave.t_acel w = Fin ta /\ Wave.t_decel w = Fin td /\
    Wave.wavepoint w 100 80 = Ok v1 /\ Wave.wavepoint w 120 80 = Ok v2 /\
    (v1 = NaN \/ exists x, v1 = Fin x /\ - 450 <= x <= 0) /\
    (80 < 100 -> 120 <= 80 + ta ->
     exists x1 x2, v1 = Fin x1 /\ v2 = Fin x2 /\ x2 <= x1) /\
    (80 + ta <= 100 -> 120 < 80 + ta + td ->
     exists x1 x2, v1 = Fin x1 /\ v2 = Fin x2 /\ x1 <= x2).
Proof. apply (wavepoint_shape 450 600 80 100 120); lra. Defined.

Lemma t_eyec_R_bounds (p : R) : 0 < p -> 240 < t_eyec_R p <= 3401 / 10.
Proof. intros Hp. unfold t_eyec_R. destruct (Rlt_dec p 700); lra. Qed.

Lemma outer601_nth (p : R) (i : nat) :
  (i < 601)%nat ->
  nth i (outer601 p) (Fin 0) =
  wavepoint_R p (t_acel_R p) (t_eyec_R p + - t_acel_R p) (INR i * 1) 80.
Proof.
  intros Hi. unfold outer601.
  rewrite nth_map_default with (d' := 0) by (rewrite timeline601_length; lia).
  now rewrite timeline601_nth by lia.
Qed.

(** The outer wave of a default [Wave] of peak > 0 has 601 samples, one
    per millisecond from 0 to 600.  Every sample before the onset
    (i < 80) and every sample after the end of the ejection
    (80 + t_eyec < i) is undefined, and every sample strictly inside
    (80 < i < 80 + t_eyec) is a number between -peak and 0; as
    240 < t_eyec <= 340.1, the samples 81 .. 320 are numbers and every
    sample from 421 on is undefined, so the 600 ms window holds the whole
    ejection.  The samples at the two ends of the ejection, which the
    rounding of q_eyec + t_acel decides, are left out. *)
Theorem outer_wave_samples (p : R) :
  0 < p ->
  exists w te l,
    Wave.init (Fin p) Wave.default_time = Ok w /\
    Wave.t_eyec w = Fin te /\ 240 < te <= 3401 / 10 /\
    Wave.get_outer_wave w 1 = Ok l /\
    List.length l = 601%nat /\
    forall i, (i < 601)%nat ->
      (INR i < 80 \/ 80 + te < INR i -> nth i l (Fin 0) = NaN) /\
      (80 < INR i < 80 + te ->
       exists x, nth i l (Fin 0) = Fin x /\ - p <= x <= 0) /\
      ((81 <= i <= 320)%nat ->
       exists x, nth i l (Fin 0) = Fin x /\ - p <= x <= 0) /\
      ((421 <= i)%nat -> nth i l (Fin 0) = NaN).
Proof.
  intros Hp. pose proof (t_decel_R_pos p Hp) as Hd.
  pose proof (t_acel_R_ge_70 p) as Ha. pose proof (t_eyec_R_bounds p Hp) as He.
  destruct (Wave.init (Fin p) Wave.default_time) as [w|] eqn:Hw;
    [| rewrite wave_init_fin in Hw; discriminate].
  exists w, (t_eyec_R p), (outer601 p).
  split; [reflexivity|].
  split; [rewrite wave_init_fin in Hw; apply Ok_inj in Hw; now subst w|].
  split; [exact He|].
  split; [exact (get_outer_wave_default p Hp w Hw)|].
  split; [exact (outer601_length p)|].
  intros i Hi. rewrite outer601_nth by exact Hi.
  assert (Hnan : INR i < 80 \/ 80 + t_eyec_R p < INR i ->
            wavepoint_R p (t_acel_R p) (t_eyec_R p + - t_acel_R p) (INR i * 1) 80 = NaN).
  { intros H.
    destruct (wavepoint_R_cases p (t_acel_R p) (t_eyec_R p + - t_acel_R p) (INR i * 1) 80
                ltac:(lra) Hd) as [[H1 E1] | [[H1 E1] | [[H1 E1] | [H1 E1]]]];
      rewrite E1; try reflexivity; exfalso; destruct H; lra. }
  assert (Hnum : 80 < INR i < 80 + t_eyec_R p ->
            exists x,
              wavepoint_R p (t_acel_R p) (t_eyec_R p + - t_acel_R p) (INR i * 1) 80 = Fin x /\
              - p <= x <= 0).
  { intros H.
    destruct (wavepoint_R_cases p (t_acel_R p) (t_eyec_R p + - t_acel_R p) (INR i * 1) 80
                ltac:(lra) Hd) as [[H1 E1] | [[H1 E1] | [[H1 E1] | [H1 E1]]]];
      try (exfalso; lra); rewrite E1; eexists; (split; [reflexivity|]);
      apply parabola_bounds; nra. }
  assert (H81 : INR 81 = 81) by (rewrite INR_IZR_INZ; reflexivity).
  assert (H320 : INR 320 = 320) by (rewrite INR_IZR_INZ; reflexivity).
  assert (H421 : INR 421 = 421) by (rewrite INR_IZR_INZ; reflexivity).
  split; [exact Hnan|]. split; [exact Hnum|]. split.
  - intros [Hlo Hhi]. apply Hnum. apply le_INR in Hlo. apply le_INR in Hhi. lra.
  - intros Hlo. apply Hnan. right. apply le_INR in Hlo. lra.
Qed.

Lemma outer_wave_samples_witness :
  exists w te l,
    Wave.init (Fin 450) Wave.default_time = Ok w /\
    Wave.t_eyec w = Fin te /\ 240 < te <= 3401 / 10 /\
    Wave.get_outer_wave w 1 = Ok l /\
    List.length l = 601%nat /\
    forall i, (i < 601)%nat ->
      (INR i < 80 \/ 80 + te < INR i -> nth i l (Fin 0) = NaN) /\
      (80 < INR i < 80 + te ->
       exists x, nth i l (Fin 0) = Fin x /\ - 450 <= x <= 0) /\
      ((81 <= i <= 320)%nat ->
       exists x, nth i l (Fin 0) = Fin x /\ - 450 <= x <= 0) /\
      ((421 <= i)%nat -> nth i l (Fin 0) = NaN).
Proof. apply (outer_wave_samples 450); lra. Defined.

(** The trace of a velocity v >= 0 on a default [Wave] of peak > 0 is
    the outer wave scaled by v / peak: it is undefined on the same samples,
    every defined sample lies between -v and 0, and the trace of the peak
    itself is the outer wave. *)
Theorem wave_scaled (p v : R) (vel : pynum) :
  0 < p -> 0 <= v -> val vel = Fin v ->
  exists w outer l,
    Wave.init (Fin p) Wave.default_time = Ok w /\
    Wave.get_outer_wave w 1 = Ok outer /\
    Wave.wave w vel 1 = Ok l /\
    List.length l = List.length outer /\
    forall i, (i < 601)%nat ->
      (nth i outer (Fin 0) = NaN -> nth i l (Fin 0) = NaN) /\
      (forall x, nth i outer (Fin 0) = Fin x ->
         nth i l (Fin 0) = Fin (x * (v / p)) /\ - v <= x * (v / p) <= 0) /\
      (v = p -> forall x, nth i outer (Fin 0) = Fin x -> nth i l (Fin 0) = Fin x).
Proof.
  intros Hp Hv Hvel. pose proof (t_decel_R_pos p Hp) as Hd.
  pose proof (t_acel_R_ge_70 p) as Ha.
  destruct (Wave.init (Fin p) Wave.default_time) as [w|] eqn:Hw;
    [| rewrite wave_init_fin in Hw; discriminate].
  exists w, (outer601 p), (map (fun x => fmul x (escala_of vel p)) (outer601 p)).
  split; [reflexivity|].
  split; [exact (get_outer_wave_default p Hp w Hw)|].
  split; [exact (wave_default p vel Hp w Hw)|].
  split; [now rewrite length_map|].
  assert (Hesc : escala_of vel p = Fin (v / p)).
  { unfold escala_of. rewrite Hvel. apply fdiv_fin. lra. }
  assert (Hvp : 0 <= v / p) by (apply Rmult_le_pos; [lra | left; apply Rinv_0_lt_compat; lra]).
  assert (Hvpp : v / p * p = v) by (field; lra).
  intros i Hi.
  rewrite nth_map_default with (d' := Fin 0) by (rewrite outer601_length; lia).
  rewrite Hesc.
  split; [intros ->; reflexivity|]. split.
  - intros x Hx. rewrite Hx. cbn [fmul]. split; [reflexivity|].
    rewrite outer601_nth in Hx by exact Hi.
    assert (Hb : - p <= x <= 0).
    { destruct (wavepoint_R_cases p (t_acel_R p) (t_eyec_R p + - t_acel_R p) (INR i * 1) 80
                  ltac:(lra) Hd) as [[H1 E1] | [[H1 E1] | [[H1 E1] | [H1 E1]]]];
        rewrite E1 in Hx; try discriminate; apply (f_equal (fun y => match y with Fin r => r | _ => 0 end)) in Hx;
        cbn in Hx; subst x; apply parabola_bounds; nra. }
    nra.
  - intros -> x Hx. rewrite Hx. cbn [fmul]. f_equal. field. lra.
Qed.

Lemma wave_scaled_witness :
  exists w outer l,
    Wave.init (Fin 450) Wave.default_time = Ok w /\
    Wave.get_outer_wave w 1 = Ok outer /\
    Wave.wave w (PyFloat (Fin 110)) 1 = Ok l /\
    List.length l = List.length outer /\
    forall i, (i < 601)%nat ->
      (nth i outer (Fin 0) = NaN -> nth i l (Fin 0) = NaN) /\
      (forall x, nth i outer (Fin 0) = Fin x ->
         nth i l (Fin 0) = Fin (x * (110 / 450)) /\ - 110 <= x * (110 / 450) <= 0) /\
      (110 = 450 -> forall x, nth i outer (Fin 0) = Fin x -> nth i l (Fin 0) = Fin x).
Proof. apply (wave_scaled 450 110 (PyFloat (Fin 110))); [lra | lra | reflexivity]. Defined.

(** ** The inner contour of a plain valve *)

Lemma puntos_x_explicit (v : Valve.t) :
  Valve.puntos_x v =
  map (fun k => Valve.rad v - (Valve.rad v - Valve.orif v) * (k / 9))
      [0; 1; 2; 3; 4; 5; 6; 7; 8; 9].
Proof.
  unfold Valve.puntos_x, Valve.puntos. cbn [seq map Nat.sub INR].
  repeat (f_equal; try lra).
Qed.

Lemma puntos_x_desc (v : Valve.t) :
  Valve.orif v < Valve.rad v -> desc_from (Valve.orif v) (Valve.puntos_x v).
Proof.
  intros Hw. rewrite puntos_x_explicit. cbn [map desc_from].
  repeat split; lra.
Qed.

Lemma puntos_x_range (v : Valve.t) (x : R) :
  Valve.orif v <= Valve.rad v -> In x (Valve.puntos_x v) ->
  Valve.orif v <= x <= Valve.rad v.
Proof.
  intros Hw Hin. rewrite puntos_x_explicit in Hin. cbn [map In] in Hin.
  repeat (destruct Hin as [<- | Hin]; [lra|]). destruct Hin.
Qed.

Lemma puntos_x_length (v : Valve.t) : List.length (Valve.puntos_x v) = 10%nat.
Proof. unfold Valve.puntos_x, Valve.puntos. now rewrite length_map, length_seq. Qed.

Lemma puntos_x_ends (v : Valve.t) :
  nth 0 (Valve.puntos_x v) 0 = Valve.rad v /\ nth 9 (Valve.puntos_x v) 0 = Valve.orif v.
Proof. rewrite puntos_x_explicit. cbn [map nth]. split; lra. Qed.

Lemma contour_strict_map (f : R -> R) (lo : R) (xs : list R) :
  (forall a b, lo <= a -> a < b -> f a < f b) ->
  desc_from lo xs -> contour_strict (map (fun x => (x, f x)) xs).
Proof.
  intros Hf. induction xs as [|x xs IH]; intros H; [exact I|].
  cbn [desc_from] in H. destruct H as (Hlo & Hnext & Hrest).
  cbn [map contour_strict]. split; [| now apply IH].
  destruct xs as [|x2 xs']; [exact I|]. cbn [map fst snd].
  cbn [desc_from] in Hrest. destruct Hrest as (Hlo2 & _ & _).
  split; [exact Hnext | now apply Hf].
Qed.

Lemma cusp_y_plain (v : Valve.t) (x : R) :
  Valve.trim_factor v = 0 -> Valve.rad v - Valve.orif v <> 0 ->
  cusp_y v x =
  (x - Valve.orif v) ^ 2 * (Valve.length v / (Valve.rad v - Valve.orif v) ^ 2)
  - Valve.length v.
Proof.
  intros Hf Hw. unfold cusp_y, cusp_y_len. rewrite Hf. field.
  split; [exact Hw|]. intros H. apply Hw.
  assert (Hz : (Valve.rad v - Valve.orif v) * (Valve.rad v - Valve.orif v) = 0) by lra.
  apply Rmult_integral in Hz. tauto.
Qed.

Lemma plain_y_shape (v : Valve.t) :
  plain_valve v ->
  Valve.line v =
  Ok (map Fin (Valve.puntos_x v), map (fun x => Fin (plain_y v x)) (Valve.puntos_x v)).
Proof.
  intros ([[Hs Hf] | Hs] & Ho & Hw & _).
  - unfold plain_y. rewrite Hs. cbn [String.eqb Ascii.eqb Bool.eqb].
    apply line_cusp; [exact Hs | rewrite Hf; lra |].
    unfold cusp_y_len. rewrite Hf.
    replace ((Valve.rad v - Valve.orif v) / (1 - 0)) with (Valve.rad v - Valve.orif v) by field.
    replace (Valve.rad v - (Valve.rad v - Valve.orif v) - (Valve.rad v - (Valve.rad v - Valve.orif v)))
      with 0 by ring.
    assert (0 < (Valve.rad v - Valve.orif v) ^ 2) by (simpl; nra). lra.
  - unfold plain_y. rewrite Hs. cbn [String.eqb Ascii.eqb Bool.eqb].
    apply line_line; [exact Hs | lra].
Qed.

Lemma plain_y_increasing (v : Valve.t) (a b : R) :
  plain_valve v -> Valve.orif v <= a -> a < b -> plain_y v a < plain_y v b.
Proof.
  intros ([[Hs Hf] | Hs] & Ho & Hw & _ & HL & _) Ha Hab.
  - unfold plain_y. rewrite Hs. cbn [String.eqb Ascii.eqb Bool.eqb].
    rewrite !cusp_y_plain by (assumption || lra).
    assert (Hk : 0 < Valve.length v / (Valve.rad v - Valve.orif v) ^ 2).
    { apply Rdiv_lt_0_compat; [lra | simpl; nra]. }
    assert (Hsq : (a - Valve.orif v) ^ 2 < (b - Valve.orif v) ^ 2) by (simpl; nra).
    nra.
  - unfold plain_y. rewrite Hs. cbn [String.eqb Ascii.eqb Bool.eqb]. unfold line_y.
    assert (Hk : 0 < Valve.length v / (Valve.rad v - Valve.orif v)).
    { apply Rdiv_lt_0_compat; lra. }
    nra.
Qed.

Lemma plain_y_ends (v : Valve.t) :
  plain_valve v ->
  plain_y v (Valve.rad v) = 0 /\ plain_y v (Valve.orif v) = - Valve.length v.
Proof.
  intros ([[Hs Hf] | Hs] & Ho & Hw & _ & HL & _).
  - unfold plain_y. rewrite Hs. cbn [String.eqb Ascii.eqb Bool.eqb].
    rewrite !cusp_y_plain by (assumption || lra). split; field; lra.
  - unfold plain_y. rewrite Hs. cbn [String.eqb Ascii.eqb Bool.eqb]. unfold line_y.
    split; field; lra.
Qed.

(** The contour of a plain valve, as a list of finite points. *)
Lemma plain_contour (v : Valve.t) :
  plain_valve v ->
  let c := map (fun x => (x, plain_y v x)) (Valve.puntos_x v) in
  Valve.line v = Ok (map Fin (map fst c), map Fin (map snd c)) /\
  contour_strict c /\ List.length c = 10%nat /\
  nth 0 c (0, 0) = (Valve.rad v, 0) /\
  nth 9 c (0, 0) = (Valve.orif v, - Valve.length v).
Proof.
  intros Hp c. pose proof Hp as (_ & Ho & Hw & _).
  destruct (plain_y_ends v Hp) as [Hy0 Hy9].
  destruct (puntos_x_ends v) as [Hx0 Hx9].
  split; [unfold c; rewrite contour_of_xs; now apply plain_y_shape|].
  split.
  { unfold c. apply contour_strict_map with (lo := Valve.orif v).
    - intros a b Ha Hab. now apply plain_y_increasing.
    - now apply puntos_x_desc. }
  split; [unfold c; now rewrite length_map, puntos_x_length|].
  split.
  - unfold c. rewrite nth_map_default with (d' := 0) by (rewrite puntos_x_length; lia).
    now rewrite Hx0, Hy0.
  - unfold c. rewrite nth_map_default with (d' := 0) by (rewrite puntos_x_length; lia).
    now rewrite Hx9, Hy9.
Qed.

(** ** The radius along a strictly descending contour *)

Lemma contour_strict_below (q : R * R) (rest : list (R * R)) :
  contour_strict (q :: rest) ->
  forall q', In q' rest -> fst q' < fst q /\ snd q' < snd q.
Proof.
  revert q. induction rest as [|q2 rest IH]; intros q H q' Hin; [destruct Hin|].
  cbn [contour_strict] in H. destruct H as ([Hx Hy] & Hrest).
  destruct Hin as [<- | Hin]; [split; assumption|].
  destruct (IH q2 Hrest q' Hin) as [Hx' Hy']. split; lra.
Qed.

Lemma radio_loop_step (y_ x1 y1 x2 y2 : R) (rest : list (R * R)) :
  Valve.radio_loop y_ (lift_contour ((x1, y1) :: (x2, y2) :: rest)) =
  if Rlt_dec y_ y2 then Valve.radio_loop y_ (lift_contour ((x2, y2) :: rest))
  else if Req_dec_T (y2 + - y1) 0
       then Some (fadd (Fin x1) (fmul (inf_of_sign (y_ + - y1)) (Fin (x2 + - x1))))
       else Some (Fin (x1 + (y_ + - y1) / (y2 + - y1) * (x2 + - x1))).
Proof.
  cbn [lift_contour map fst snd Valve.radio_loop]. unfold fge, flt, fle.
  destruct (Rlt_dec y_ y2) as [H|H]; [reflexivity|].
  destruct (Rle_dec y2 y_) as [_|Hn]; [| exfalso; lra].
  cbn [fsub fneg fadd fdiv].
  destruct (Req_dec_T (y2 + - y1) 0); reflexivity.
Qed.

(** At the height of a contour vertex other than the first, the loop
    returns the abscissa of that vertex. *)
Lemma radio_loop_vertex (c : list (R * R)) :
  contour_strict c ->
  forall i, (1 <= i < List.length c)%nat ->
    Valve.radio_loop (snd (nth i c (0, 0))) (lift_contour c)
    = Some (Fin (fst (nth i c (0, 0)))).
Proof.
  induction c as [|[x1 y1] c IH]; intros Hs i Hi; [cbn in Hi; lia|].
  destruct c as [|[x2 y2] rest]; [cbn in Hi; lia|].
  pose proof Hs as Hs0.
  destruct Hs as ([Hx Hy] & Hrest). cbn [fst snd] in Hx, Hy.
  rewrite radio_loop_step.
  destruct i as [|[|i]]; [lia | |].
  - cbn [nth fst snd].
    destruct (Rlt_dec y2 y2); [exfalso; lra|].
    destruct (Req_dec_T (y2 + - y1) 0); [exfalso; lra|].
    do 2 f_equal. field. lra.
  - change (nth (S (S i)) ((x1, y1) :: (x2, y2) :: rest) (0, 0))
      with (nth (S i) ((x2, y2) :: rest) (0, 0)).
    assert (Hin : In (nth (S i) ((x2, y2) :: rest) (0, 0)) rest).
    { cbn [nth]. apply nth_In. cbn [List.length] in Hi. lia. }
    destruct (contour_strict_below (x2, y2) rest Hrest _ Hin) as [_ Hlt].
    cbn [snd] in Hlt.
    destruct (Rlt_dec _ y2); [| exfalso; lra].
    apply IH; [exact Hrest | cbn [List.length] in *; lia].
Qed.

(** Between the heights of the last and of the first vertex the loop
    selects an interval, and the radius lies between the abscissas of the
    last and of the first vertex. *)
Lemma radio_loop_between (c : list (R * R)) :
  forall (x0 y0 : R) (rest : list (R * R)) (y_ : R),
    c = (x0, y0) :: rest -> rest <> [] -> contour_strict c ->
    snd (last c (0, 0)) <= y_ -> y_ < y0 ->
    exists a,
      Valve.radio_loop y_ (lift_contour c) = Some (Fin a) /\
      fst (last c (0, 0)) <= a <= x0.
Proof.
  induction c as [|q c IH]; intros x0 y0 rest y_ Hc Hne Hs Hlo Hhi; [discriminate|].
  injection Hc as -> ->.
  destruct rest as [|[x2 y2] rest']; [contradiction|].
  pose proof Hs as Hs0.
  destruct Hs as ([Hx Hy] & Hrest). cbn [fst snd] in Hx, Hy.
  rewrite radio_loop_step.
  assert (Hlast : fst (last ((x0, y0) :: (x2, y2) :: rest') (0, 0)) <= x2).
  { change (last ((x0, y0) :: (x2, y2) :: rest') (0, 0))
      with (last ((x2, y2) :: rest') (0, 0)).
    destruct rest' as [|q3 rest'']; [cbn; lra|].
    assert (Hin : In (last ((x2, y2) :: q3 :: rest'') (0, 0)) (q3 :: rest'')).
    { change (last ((x2, y2) :: q3 :: rest'') (0, 0)) with (last (q3 :: rest'') (0, 0)).
      destruct (exists_last (l := q3 :: rest'') ltac:(discriminate)) as (l' & a & ->).
      rewrite last_last. apply in_or_app. right. now left. }
    destruct (contour_strict_below (x2, y2) _ Hrest _ Hin) as [H1 _].
    cbn [fst] in H1. lra. }
  destruct (Rlt_dec y_ y2) as [Hlt|Hge].
  - destruct rest' as [|q3 rest''].
    { cbn [last snd] in Hlo. exfalso; lra. }
    destruct (IH x2 y2 (q3 :: rest'') y_ eq_refl ltac:(discriminate) Hrest Hlo Hlt)
      as (a & Ha & Hb).
    exists a. split; [exact Ha|].
    change (last ((x0, y0) :: (x2, y2) :: q3 :: rest'') (0, 0))
      with (last ((x2, y2) :: q3 :: rest'') (0, 0)).
    lra.
  - destruct (Req_dec_T (y2 + - y0) 0); [exfalso; lra|].
    eexists. split; [reflexivity|].
    assert (Hfr : 0 <= (y_ + - y0) / (y2 + - y0) <= 1).
    { split.
      - apply Rmult_le_reg_r with (r := - (y2 + - y0)); [lra|].
        replace ((y_ + - y0) / (y2 + - y0) * - (y2 + - y0)) with (- (y_ + - y0)) by (field; lra).
        lra.
      - apply Rmult_le_reg_r with (r := - (y2 + - y0)); [lra|].
        replace ((y_ + - y0) / (y2 + - y0) * - (y2 + - y0)) with (- (y_ + - y0)) by (field; lra).
        lra. }
    split; nra.
Qed.

(** ** The radius of a plain valve *)

Lemma plain_contour_ends (v : Valve.t) :
  plain_valve v ->
  let c := map (fun x => (x, plain_y v x)) (Valve.puntos_x v) in
  exists rest,
    c = (Valve.rad v, 0) :: rest /\ rest <> [] /\
    last c (0, 0) = (Valve.orif v, - Valve.length v).
Proof.
  intros Hp c. destruct (plain_y_ends v Hp) as [Hy0 Hy9].
  unfold c. rewrite puntos_x_explicit. cbn [map].
  replace (Valve.rad v - (Valve.rad v - Valve.orif v) * (0 / 9)) with (Valve.rad v) by field.
  replace (Valve.rad v - (Valve.rad v - Valve.orif v) * (9 / 9)) with (Valve.orif v) by field.
  rewrite Hy0, Hy9. eexists. split; [reflexivity|]. split; [discriminate | reflexivity].
Qed.

Lemma radio_plain_body (v : Valve.t) (y : R) :
  plain_valve v ->
  - (Valve.l1 v + Valve.length v) <= y -> y < - Valve.l1 v ->
  exists a,
    Valve.radio v y = Ok (NpFloat (Fin a)) /\ Valve.orif v <= a <= Valve.rad v.
Proof.
  intros Hp Hlo Hhi. pose proof Hp as (_ & Ho & Hw & Hl1 & HL & _).
  destruct (plain_contour v Hp) as (Hline & Hstrict & _).
  destruct (plain_contour_ends v Hp) as (rest & Hc & Hne & Hlast).
  rewrite (radio_body v _ y Hline) by lra.
  destruct (radio_loop_between _ (Valve.rad v) 0 rest (y - - Valve.l1 v) Hc Hne Hstrict)
    as (a & Ha & Hb).
  - rewrite Hlast. cbn [snd]. lra.
  - lra.
  - rewrite Ha. cbn [radius_of]. exists a. split; [reflexivity|].
    rewrite Hlast in Hb. cbn [fst] in Hb. exact Hb.
Qed.



Lemma plain_valve_ex : plain_valve valve_ex /\ plain_valve valve_ex_sim.
Proof.
  split; (split; [left; split; reflexivity|]);
    unfold valve_ex_sim, valve_ex;
    cbn [Valve.set_sim Valve.orif Valve.rad Valve.l1 Valve.length Valve.y_range];
    repeat split; lra.
Qed.



(** ** A trimmed cusp *)

Lemma radio_loop_none (y_ : R) (c : list (R * R)) :
  (forall q, In q (tl c) -> y_ < snd q) ->
  Valve.radio_loop y_ (lift_contour c) = None.
Proof.
  induction c as [|[x1 y1] c IH]; intros H; [reflexivity|].
  destruct c as [|[x2 y2] rest]; [reflexivity|].
  rewrite radio_loop_step.
  pose proof (H (x2, y2) (or_introl eq_refl)) as H2. cbn [snd] in H2.
  destruct (Rlt_dec y_ y2); [| exfalso; lra].
  apply IH. intros q Hq. apply H. cbn [tl] in *. now right.
Qed.


(** The tip of a trimmed cusp stays above -length, and no contour point
    lies below the tip. *)
Lemma trimmed_cusp_tip (v : Valve.t) :
  Valve.orif v < Valve.rad v -> 0 < Valve.trim_factor v < 1 -> 0 < Valve.length v ->
  - Valve.length v < cusp_y v (Valve.orif v) /\
  forall x, Valve.orif v <= x -> cusp_y v (Valve.orif v) <= cusp_y v x.
Proof.
  intros Hw [Hf0 Hf1] HL.
  pose proof (cusp_y_len_pos v Hw ltac:(lra)) as Hyl.
  unfold cusp_y. revert Hyl. generalize (cusp_y_len v). intros yl Hyl.
  set (w := Valve.rad v - Valve.orif v).
  set (a := w / (1 - Valve.trim_factor v)).
  assert (Hwpos : 0 < w) by (unfold w; lra).
  assert (Ha : a * (1 - Valve.trim_factor v) = w) by (unfold a; field; lra).
  assert (Hapos : 0 < a) by (unfold a; apply Rdiv_lt_0_compat; lra).
  assert (Haw : 0 < a - w) by nra.
  assert (Hk : 0 < Valve.length v / yl) by (apply Rdiv_lt_0_compat; lra).
  assert (Hform : forall x, (x - (Valve.rad v - a)) ^ 2 * Valve.length v / yl + - Valve.length v
                            = (x - Valve.rad v + a) ^ 2 * (Valve.length v / yl) - Valve.length v).
  { intros x. field. lra. }
  rewrite !Hform. split.
  - assert (0 < (Valve.orif v - Valve.rad v + a) ^ 2) by (unfold w in Haw; simpl; nra).
    nra.
  - intros x Hx. rewrite Hform.
    assert ((Valve.orif v - Valve.rad v + a) ^ 2 <= (x - Valve.rad v + a) ^ 2)
      by (unfold w in Haw; simpl; nra).
    nra.
Qed.

Lemma trimmed_cusp_zero_radius_aux (v : Valve.t) (y : R) :
  Valve.shape v = "cusp"%string -> 0 < Valve.trim_factor v < 1 ->
  Valve.orif v < Valve.rad v -> 0 < Valve.length v -> 0 <= Valve.l1 v ->
  - (Valve.l1 v + Valve.length v) <= y -> y < - Valve.l1 v ->
  y + Valve.l1 v < cusp_y v (Valve.orif v) ->
  Valve.radio v y = Ok (PyFloat (Fin 0)).
Proof.
  intros Hs Hf Hw HL Hl1 Hlo Hy0 Hhi.
  destruct (trimmed_cusp_tip v Hw Hf HL) as [Htip Hmin].
  assert (Hline : Valve.line v =
            Ok (map Fin (map fst (map (fun x => (x, cusp_y v x)) (Valve.puntos_x v))),
                map Fin (map snd (map (fun x => (x, cusp_y v x)) (Valve.puntos_x v))))).
  { rewrite contour_of_xs. apply line_cusp; [exact Hs | lra |].
    pose proof (cusp_y_len_pos v Hw ltac:(lra)). lra. }
  rewrite (radio_body v _ y Hline) by lra.
  rewrite radio_loop_none; [reflexivity|].
  intros q Hq.
  assert (Hq' : exists x, (x, cusp_y v x) = q /\ In x (Valve.puntos_x v)).
  { destruct (Valve.puntos_x v) as [|x0 xs]; [destruct Hq|].
    cbn [map tl] in Hq. apply in_map_iff in Hq.
    destruct Hq as [x [Hx Hin]]. exists x. split; [exact Hx | now right]. }
  clear Hq. destruct Hq' as [x [<- Hin]]. cbn [snd].
  destruct (puntos_x_range v x ltac:(lra) Hin) as [Hxlo _].
  pose proof (Hmin x Hxlo). lra.
Qed.

(** On a cusp with 0 < trim_factor < 1 the contour stops short of
    -length: in the valve body, from its bottom up to the height of the
    contour tip, no interval is selected, and [radio] returns the 0.0 it
    was initialised with; [v_conteq] then raises ZeroDivisionError. *)
Theorem trimmed_cusp_zero_radius (v : Valve.t) (y basal : R) :
  Valve.shape v = "cusp"%string -> 0 < Valve.trim_factor v < 1 ->
  Valve.orif v < Valve.rad v -> 0 < Valve.length v -> 0 <= Valve.l1 v ->
  - (Valve.l1 v + Valve.length v) <= y -> y < - Valve.l1 v ->
  y + Valve.l1 v < cusp_y v (Valve.orif v) ->
  - Valve.length v < cusp_y v (Valve.orif v) /\
  Valve.radio v y = Ok (PyFloat (Fin 0)) /\
  Simulation.v_conteq (PyFloat (Fin 0)) v basal = Raise ZeroDivisionError.
Proof.
  intros Hs Hf Hw HL Hl1 Hlo Hy0 Hhi.
  destruct (trimmed_cusp_tip v Hw Hf HL) as [Htip _].
  split; [exact Htip|]. split; [| apply v_conteq_py_zero].
  now apply trimmed_cusp_zero_radius_aux.
Qed.

Lemma group_loop_all_ok (gauss : Z -> nat -> R) (s : Simulation.t)
    (valve : Valve.t) (band_0 : Z) (ns : list Z) :
  forall cont points r,
    Simulation.group_loop gauss s valve band_0 ns cont points = Ok r ->
    forall n, In n ns -> exists cp, Simulation.calc_band gauss s n valve = Ok cp.
Proof.
  induction ns as [|m ns IH]; intros cont points r H n Hin; [destruct Hin|].
  cbn [Simulation.group_loop] in H. bind_inv H.
  destruct Hin as [<- | Hin]; [eexists; exact E|].
  eapply IH; eassumption.
Qed.

Lemma py_range_In (a b n : Z) : (a <= n < b)%Z -> In n (Simulation.py_range a b).
Proof.
  intros H. unfold Simulation.py_range. apply in_map_iff.
  exists (Z.to_nat (n - a)). split; [lia|]. apply in_seq. lia.
Qed.



Lemma cusp_y_trim_half (x : R) : cusp_y valve_trim_half x = x ^ 2 / 15 - 5.
Proof.
  unfold cusp_y, cusp_y_len, valve_trim_half.
  cbn [Valve.rad Valve.orif Valve.trim_factor Valve.length]. field.
Qed.

Lemma trimmed_cusp_zero_radius_witness :
  - Valve.length valve_trim_half < cusp_y valve_trim_half (Valve.orif valve_trim_half) /\
  Valve.radio valve_trim_half (-15) = Ok (PyFloat (Fin 0)) /\
  Simulation.v_conteq (PyFloat (Fin 0)) valve_trim_half 110 = Raise ZeroDivisionError.
Proof.
  apply (trimmed_cusp_zero_radius valve_trim_half (-15) 110);
    try reflexivity;
    try (rewrite cusp_y_trim_half);
    cbn [valve_trim_half Valve.trim_factor Valve.orif Valve.rad Valve.length Valve.l1];
    lra.
Defined.


(** ** The wall polygon *)

Lemma line_finite (v : Valve.t) :
  Valve.orif v < Valve.rad v ->
  (Valve.shape v = "cusp"%string /\ -1 < Valve.trim_factor v < 1) \/
  Valve.shape v = "line"%string ->
  exists f : R -> R,
    Valve.line v =
    Ok (map Fin (Valve.puntos_x v), map (fun x => Fin (f x)) (Valve.puntos_x v)).
Proof.
  intros Hw [[Hs Hf] | Hs].
  - exists (cusp_y v). apply line_cusp; [exact Hs | lra |].
    pose proof (cusp_y_len_pos v Hw Hf). lra.
  - exists (line_y v). apply line_line; [exact Hs | lra].
Qed.

(** For a cusp (-1 < trim_factor < 1) or line valve with rad > orif and
    a wall thickness >= 0, [right_wall] returns a polygon of 24 vertices
    from (rad + wall_thick, 0) to (rad + wall_thick, -(l1+length+l2)).  Its
    x coordinates read the same in both directions and stay between orif
    and rad + wall_thick, so the wall never reaches into the orifice; the
    lower side of the leaflet lies exactly [thick] under the upper side. *)
Theorem right_wall_outline (v : Valve.t) :
  Valve.orif v < Valve.rad v -> 0 <= Valve.wall_thick v ->
  (Valve.shape v = "cusp"%string /\ -1 < Valve.trim_factor v < 1) \/
  Valve.shape v = "line"%string ->
  exists X Y,
    Valve.right_wall v = Ok (X, Y) /\
    List.length X = 24%nat /\ List.length Y = 24%nat /\
    rev X = X /\
    Forall (fun x => exists a, x = Fin a /\
                      Valve.orif v <= a <= Valve.rad v + Valve.wall_thick v) X /\
    nth 0 X NaN = Fin (Valve.rad v + Valve.wall_thick v) /\
    nth 0 Y NaN = Fin 0 /\
    nth 23 X NaN = Fin (Valve.rad v + Valve.wall_thick v) /\
    nth 23 Y NaN = Fin (- (Valve.l1 v + Valve.length v + Valve.l2 v)) /\
    forall i, (i < 10)%nat ->
      exists yu yl,
        nth (2 + i) Y NaN = Fin yu /\ nth (21 - i) Y NaN = Fin yl /\
        yu - yl = Valve.thick v /\
        nth (2 + i) X NaN = nth (21 - i) X NaN.
Proof.
  intros Hw Hwt Hshape.
  destruct (line_finite v Hw Hshape) as [f Hline].
  unfold Valve.right_wall, Valve.contour. rewrite Hline. cbn [bind fst snd].
  rewrite puntos_x_explicit.
  cbn [map rev app fsub fneg fadd].
  eexists _, _. split; [reflexivity|].
  split; [reflexivity|]. split; [reflexivity|]. split; [reflexivity|].
  split.
  { repeat (constructor; [eexists; split; [reflexivity | lra]|]). constructor. }
  split; [reflexivity|]. split; [reflexivity|]. split; [reflexivity|].
  split; [reflexivity|].
  intros i Hi.
  do 10 (destruct i as [|i];
         [cbn [nth Nat.add Nat.sub]; eexists _, _;
          split; [reflexivity|]; split; [reflexivity|]; split; [ring | reflexivity]|]).
  lia.
Qed.

Lemma right_wall_outline_witness :
  exists X Y,
    Valve.right_wall valve_ex = Ok (X, Y) /\
    List.length X = 24%nat /\ List.length Y = 24%nat /\
    rev X = X /\
    Forall (fun x => exists a, x = Fin a /\
                      Valve.orif valve_ex <= a <= Valve.rad valve_ex + Valve.wall_thick valve_ex) X /\
    nth 0 X NaN = Fin (Valve.rad valve_ex + Valve.wall_thick valve_ex) /\
    nth 0 Y NaN = Fin 0 /\
    nth 23 X NaN = Fin (Valve.rad valve_ex + Valve.wall_thick valve_ex) /\
    nth 23 Y NaN = Fin (- (Valve.l1 valve_ex + Valve.length valve_ex + Valve.l2 valve_ex)) /\
    forall i, (i < 10)%nat ->
      exists yu yl,
        nth (2 + i) Y NaN = Fin yu /\ nth (21 - i) Y NaN = Fin yl /\
        yu - yl = Valve.thick valve_ex /\
        nth (2 + i) X NaN = nth (21 - i) X NaN.
Proof.
  apply right_wall_outline.
  - cbn [valve_ex Valve.orif Valve.rad]. lra.
  - cbn [valve_ex Valve.wall_thick]. lra.
  - left. split; [reflexivity | cbn [valve_ex Valve.trim_factor]; lra].
Defined.

(** ** Band velocities on a plain valve *)

Lemma plain_valve_shape (v : Valve.t) :
  plain_valve v ->
  (Valve.shape v = "cusp"%string /\ -1 < Valve.trim_factor v < 1) \/
  Valve.shape v = "line"%string.
Proof. intros ([[Hs Hf] | Hs] & _); [left; split; [exact Hs | lra] | now right]. Qed.

Lemma radio_nonincreasing (v : Valve.t) (y y' : R) :
  0 <= Valve.orif v -> Valve.orif v < Valve.rad v ->
  (Valve.shape v = "cusp"%string /\ -1 < Valve.trim_factor v < 1) \/
  Valve.shape v = "line"%string ->
  - (Valve.l1 v + Valve.length v) <= y' -> y' <= y -> y <= 0 ->
  exists r r' a a',
    Valve.radio v y = Ok r /\ Valve.radio v y' = Ok r' /\
    val r = Fin a /\ val r' = Fin a' /\ a' <= a.
Proof.
  intros Ho Hw Hshape Hlo Hle Hhi.
  destruct (Rle_dec (- Valve.l1 v) y') as [Hy'|Hy'].
  - exists (PyFloat (Fin (Valve.rad v))), (PyFloat (Fin (Valve.rad v))),
           (Valve.rad v), (Valve.rad v).
    rewrite !radio_lvot by lra. repeat split; lra.
  - assert (HL : 0 <= Valve.length v) by lra.
    destruct (line_well_formed v Ho Hw Hshape) as (c & y0 & rest & Hline & Hc & Hok & Hy0).
    specialize (Hy0 HL).
    destruct (Rle_dec (- Valve.l1 v) y) as [Hy|Hy].
    + destruct (radio_loop_monotone c (Valve.rad v) y0 rest
                  (y' - - Valve.l1 v) (y' - - Valve.l1 v) Hc Hok ltac:(lra) ltac:(lra))
        as (a & a' & Ha & _ & _ & _ & Hb).
      eexists _, _, (Valve.rad v), a.
      rewrite radio_lvot by lra.
      rewrite (radio_body v c y' Hline) by lra.
      split; [reflexivity|]. split; [reflexivity|]. split; [reflexivity|].
      split; [exact Ha | exact Hb].
    + destruct (radio_loop_monotone c (Valve.rad v) y0 rest
                  (y - - Valve.l1 v) (y' - - Valve.l1 v) Hc Hok ltac:(lra) ltac:(lra))
        as (a & a' & Ha & Ha' & Hm & _ & _).
      eexists _, _, a, a'.
      rewrite (radio_body v c y Hline) by lra.
      rewrite (radio_body v c y' Hline) by lra.
      split; [reflexivity|]. split; [reflexivity|].
      split; [exact Ha|]. split; [exact Ha' | exact Hm].
Qed.

Lemma radio_plain_bounds (v : Valve.t) (y : R) :
  plain_valve v -> - (Valve.l1 v + Valve.length v) <= y -> y <= 0 ->
  exists r a,
    Valve.radio v y = Ok r /\ val r = Fin a /\ Valve.orif v <= a <= Valve.rad v.
Proof.
  intros Hp Hlo Hhi. pose proof Hp as (_ & Ho & Hw & Hl1 & HL & _).
  destruct (Rle_dec (- Valve.l1 v) y) as [Hy|Hy].
  - exists (PyFloat (Fin (Valve.rad v))), (Valve.rad v).
    split; [apply radio_lvot; lra|]. split; [reflexivity | lra].
  - destruct (radio_plain_body v y Hp Hlo ltac:(lra)) as (a & Ha & Hb).
    exists (NpFloat (Fin a)), a. split; [exact Ha|]. split; [reflexivity | exact Hb].
Qed.

Lemma v_conteq_fin_ok (r : pynum) (a : R) (v : Valve.t) (basal : R) :
  val r = Fin a -> a <> 0 ->
  exists vel,
    Simulation.v_conteq r v basal = Ok vel /\
    val vel = Fin (basal * Valve.rad v ^ 2 / (a * a)).
Proof.
  intros Hr Ha. destruct r as [x|x]; cbn [val] in Hr; subst x.
  - rewrite v_conteq_py_fin by exact Ha. eexists. split; reflexivity.
  - rewrite v_conteq_np_fin by exact Ha. eexists. split; reflexivity.
Qed.

(** The height of the lower boundary of band n lies in the valve. *)
Lemma band_height_range (v : Valve.t) (bands n : Z) :
  plain_valve v -> (0 <= n <= bands)%Z -> (1 <= bands)%Z ->
  - (Valve.l1 v + Valve.length v) <= - IZR n * (Valve.y_range v / IZR bands) <= 0.
Proof.
  intros (_ & _ & _ & Hl1 & HL & Hyr) Hn Hb. rewrite Hyr.
  assert (Hbpos : 0 < IZR bands) by (apply IZR_lt; lia).
  assert (Hn0 : 0 <= IZR n) by (apply IZR_le; lia).
  assert (Hnb : IZR n <= IZR bands) by (apply IZR_le; lia).
  set (t := IZR n / IZR bands).
  assert (Ht : 0 <= t <= 1).
  { unfold t. split.
    - apply Rmult_le_pos; [lra | left; apply Rinv_0_lt_compat; lra].
    - apply Rmult_le_reg_r with (r := IZR bands); [lra|].
      replace (IZR n / IZR bands * IZR bands) with (IZR n) by (field; lra). lra. }
  replace (- IZR n * ((Valve.length v + Valve.l1 v) / IZR bands))
    with (- (t * (Valve.length v + Valve.l1 v))) by (unfold t; field; lra).
  split; nra.
Qed.

(** On a plain valve, with a basal velocity >= 0, the velocities of the
    bands 0 .. bands-1 never decrease with the band index; each is at
    least the basal velocity and at most basal_velocity * rad^2 / orif^2,
    the v_max of the valve. *)
Theorem band_velocity_monotone (gauss : Z -> nat -> R) (s : Simulation.t)
    (v : Valve.t) (n m : Z) (tn tm : Simulation.band_trace) :
  plain_valve v -> 0 <= Simulation.basal_velocity s ->
  (0 <= n)%Z -> (n <= m)%Z -> (m < Simulation.bands s)%Z ->
  Simulation.calc_band_trace gauss s n v = Ok tn ->
  Simulation.calc_band_trace gauss s m v = Ok tm ->
  exists xn xm,
    val (Simulation.bt_vel tn) = Fin xn /\ val (Simulation.bt_vel tm) = Fin xm /\
    Simulation.basal_velocity s <= xn /\ xn <= xm /\
    xm <= Simulation.basal_velocity s * Valve.rad v ^ 2 / (Valve.orif v * Valve.orif v).
Proof.
  intros Hp Hbasal Hn Hnm Hm Htn Htm.
  pose proof Hp as (_ & Ho & Hw & Hl1 & HL & Hyr).
  set (b := Simulation.basal_velocity s) in *.
  destruct (calc_band_trace_inv _ _ _ _ _ Htn)
    as (i1 & _ & _ & _ & _ & Hi1 & _ & _ & Hr2n & Hveln & _).
  destruct (calc_band_trace_inv _ _ _ _ _ Htm)
    as (i2 & _ & _ & _ & _ & Hi2 & _ & _ & Hr2m & Hvelm & _).
  assert (Hbz : IZR (Simulation.bands s) <> 0).
  { intros H. apply eq_IZR_R0 in H. lia. }
  rewrite py_div_ok in Hi1, Hi2 by exact Hbz.
  apply Ok_inj in Hi1. apply Ok_inj in Hi2. subst i1 i2.
  pose proof (band_height_range v (Simulation.bands s) (n + 1) Hp ltac:(lia) ltac:(lia)) as Hyn.
  pose proof (band_height_range v (Simulation.bands s) (m + 1) Hp ltac:(lia) ltac:(lia)) as Hym.
  assert (Hle : - IZR (m + 1) * (Valve.y_range v / IZR (Simulation.bands s))
                <= - IZR (n + 1) * (Valve.y_range v / IZR (Simulation.bands s))).
  { assert (Hq : 0 <= Valve.y_range v / IZR (Simulation.bands s)).
    { rewrite Hyr. apply Rmult_le_pos; [lra|]. left. apply Rinv_0_lt_compat.
      apply IZR_lt. lia. }
    assert (Hnm' : IZR (n + 1) <= IZR (m + 1)) by (apply IZR_le; lia).
    nra. }
  destruct (radio_nonincreasing v _ _ ltac:(lra) Hw (plain_valve_shape v Hp)
              (proj1 Hym) Hle (proj2 Hyn))
    as (rn & rm & an & am & Hrn & Hrm & Han & Ham & Hmono).
  rewrite Hrn in Hr2n. rewrite Hrm in Hr2m.
  apply Ok_inj in Hr2n. apply Ok_inj in Hr2m.
  destruct (radio_plain_bounds v _ Hp (proj1 Hyn) (proj2 Hyn)) as (rn' & an' & Hrn' & Han' & Hbn).
  destruct (radio_plain_bounds v _ Hp (proj1 Hym) (proj2 Hym)) as (rm' & am' & Hrm' & Ham' & Hbm).
  rewrite Hrn in Hrn'. rewrite Hrm in Hrm'.
  apply Ok_inj in Hrn'. apply Ok_inj in Hrm'. subst rn' rm'.
  rewrite Han in Han'. rewrite Ham in Ham'.
  injection Han' as <-. injection Ham' as <-.
  subst rn rm.
  destruct (v_conteq_fin_ok _ an v b Han ltac:(lra)) as (vn & Hvn & Hvaln).
  destruct (v_conteq_fin_ok _ am v b Ham ltac:(lra)) as (vm & Hvm & Hvalm).
  fold b in Hveln, Hvelm.
  rewrite Hvn in Hveln. rewrite Hvm in Hvelm.
  apply Ok_inj in Hveln. apply Ok_inj in Hvelm.
  rewrite <- Hveln, <- Hvelm.
  exists (b * Valve.rad v ^ 2 / (an * an)), (b * Valve.rad v ^ 2 / (am * am)).
  split; [exact Hvaln|]. split; [exact Hvalm|].
  set (R0 := Valve.rad v) in *. set (o := Valve.orif v) in *.
  assert (Hq : forall a c, 0 < a -> a <= c -> b * R0 ^ 2 / (c * c) <= b * R0 ^ 2 / (a * a)).
  { intros a c Ha Hac. unfold Rdiv. apply Rmult_le_compat_l; [simpl; nra|].
    apply Rinv_le_contravar; nra. }
  split; [| split].
  - replace b with (b * R0 ^ 2 / (R0 * R0)) at 1 by (field; lra).
    apply Hq; lra.
  - apply Hq; lra.
  - apply Hq; lra.
Qed.

(** ** The data of a group *)

Lemma fold_left_arr2_append (l : list Simulation.arr2) : forall acc,
  fold_left Simulation.arr2_append l acc =
  (fst acc ++ List.concat (map fst l), snd acc ++ List.concat (map snd l)).
Proof.
  induction l as [|a l IH]; intros acc.
  - cbn. rewrite !app_nil_r. now destruct acc.
  - cbn [fold_left map List.concat]. rewrite IH. unfold Simulation.arr2_append. cbn [fst snd].
    now rewrite <- !app_assoc.
Qed.

Lemma calc_band_ok_trace (gauss : Z -> nat -> R) (s : Simulation.t) (n : Z)
    (v : Valve.t) (cp : Simulation.arr2 * Simulation.arr2) :
  Simulation.calc_band gauss s n v = Ok cp ->
  exists tr, Simulation.calc_band_trace gauss s n v = Ok tr /\
             cp = (Simulation.bt_contour tr, Simulation.bt_points tr).
Proof.
  unfold Simulation.calc_band. intros H. bind_inv H. apply Ok_inj in H.
  exists x. split; [reflexivity | now symmetry].
Qed.

Lemma calc_band_trace_contour (gauss : Z -> nat -> R) (s : Simulation.t) (n : Z)
    (v : Valve.t) (tr : Simulation.band_trace) :
  Simulation.calc_band_trace gauss s n v = Ok tr ->
  Simulation.bt_contour tr =
  ([radio_val v (band_y s v n); radio_val v (band_y s v (n + 1))],
   [Fin (band_y s v n); Fin (band_y s v (n + 1))]).
Proof.
  intros H. unfold Simulation.calc_band_trace in H.
  bind_inv H. unfold py_div in E.
  destruct (Req_dec_T (IZR (Simulation.bands s)) 0); [discriminate|].
  apply Ok_inj in E. subst x.
  bind_inv H. bind_inv H. bind_inv H. bind_inv H. bind_inv H. bind_inv H. bind_inv H.
  destruct (Nat.eqb _ _); [| discriminate H].
  injection H as <-. cbn [Simulation.bt_contour]. unfold radio_val, band_y.
  repeat match goal with
         | Hr : Valve.radio _ _ = Ok _ |- _ => rewrite Hr; clear Hr
         end.
  reflexivity.
Qed.

Lemma group_loop_points (gauss : Z -> nat -> R) (s : Simulation.t)
    (v : Valve.t) (b0 : Z) (ns : list Z) :
  forall cont points r,
    Simulation.group_loop gauss s v b0 ns cont points = Ok r ->
    snd r = fold_left Simulation.arr2_append (map (band_points gauss s v) ns) points.
Proof.
  induction ns as [|n ns IH]; intros cont points r H.
  - cbn [Simulation.group_loop] in H. apply Ok_inj in H. subst r. reflexivity.
  - cbn [Simulation.group_loop] in H. bind_inv H.
    assert (Hb : band_points gauss s v n = snd x) by (unfold band_points; now rewrite E).
    cbn [map fold_left]. rewrite Hb. exact (IH _ _ _ H).
Qed.

Lemma group_loop_cont_tail (gauss : Z -> nat -> R) (s : Simulation.t)
    (v : Valve.t) (b0 : Z) (ns : list Z) :
  (forall n, In n ns -> (b0 < n)%Z) ->
  forall cont points r,
    Simulation.group_loop gauss s v b0 ns cont points = Ok r ->
    fst r = (fst cont ++ map (fun n => radio_val v (band_y s v (n + 1))) ns,
             snd cont ++ map (fun n => Fin (band_y s v (n + 1))) ns).
Proof.
  induction ns as [|n ns IH]; intros Hgt cont points r H.
  - cbn [Simulation.group_loop] in H. apply Ok_inj in H. subst r.
    cbn [map fst]. rewrite !app_nil_r. now destruct cont.
  - cbn [Simulation.group_loop] in H. bind_inv H.
    destruct (calc_band_ok_trace _ _ _ _ _ E) as (tr & Htr & ->).
    rewrite (calc_band_trace_contour _ _ _ _ _ Htr) in H.
    assert (Hn : (n >? b0)%Z = true).
    { specialize (Hgt n (or_introl eq_refl)). destruct (Z.gtb_spec n b0); [reflexivity | lia]. }
    cbn [fst snd] in H. rewrite Hn in H.
    rewrite (IH (fun m Hm => Hgt m (or_intror Hm)) _ _ _ H).
    unfold Simulation.arr2_append, Simulation.arr2_tail. cbn [fst snd tl map].
    now rewrite <- !app_assoc.
Qed.

Lemma map_seq_shift {A : Type} (m : nat) : forall (f : nat -> A) (k : nat),
  map f (seq k m) = map (fun i => f (k + i)%nat) (seq 0 m).
Proof.
  induction m as [|m IH]; intros f k; [reflexivity|].
  cbn [seq map]. rewrite Nat.add_0_r. f_equal.
  rewrite (IH f (S k)), (IH (fun i => f (k + i)%nat) 1%nat).
  apply map_ext. intros i. f_equal. lia.
Qed.

Lemma py_range_cons (a b : Z) :
  (a < b)%Z -> Simulation.py_range a b = a :: Simulation.py_range (a + 1) b.
Proof.
  intros H. unfold Simulation.py_range.
  replace (Z.to_nat (b - a)) with (S (Z.to_nat (b - (a + 1)))) by lia.
  cbn [seq map]. f_equal; [lia|].
  rewrite (map_seq_shift _ _ 1%nat). apply map_ext. intros i. lia.
Qed.

Lemma py_range_bounds (a b n : Z) :
  In n (Simulation.py_range a b) -> (a <= n < b)%Z.
Proof.
  unfold Simulation.py_range. intros H. apply in_map_iff in H.
  destruct H as (k & <- & Hk). apply in_seq in Hk. lia.
Qed.

Lemma py_range_app (a b c : Z) :
  (a <= b)%Z -> (b <= c)%Z ->
  Simulation.py_range a c = Simulation.py_range a b ++ Simulation.py_range b c.
Proof.
  intros Hab Hbc. unfold Simulation.py_range.
  replace (Z.to_nat (c - a)) with (Z.to_nat (b - a) + Z.to_nat (c - b))%nat by lia.
  rewrite seq_app, map_app. f_equal.
  rewrite map_seq_shift. apply map_ext. intros i. lia.
Qed.

Lemma py_range_length (a b : Z) :
  List.length (Simulation.py_range a b) = Z.to_nat (b - a).
Proof. unfold Simulation.py_range. now rewrite length_map, length_seq. Qed.

(** The right side of the polygon of the bands a .. b-1: the radius at
    each of the b-a+1 band boundaries, the vertex shared by two adjacent
    bands taken once. *)
Lemma group_loop_cont_range (gauss : Z -> nat -> R) (s : Simulation.t)
    (v : Valve.t) (a b : Z) (r : Simulation.arr2 * Simulation.arr2) :
  (a < b)%Z ->
  Simulation.group_loop gauss s v a (Simulation.py_range a b)
    Simulation.arr2_empty Simulation.arr2_empty = Ok r ->
  fst r =
  (map (fun k => radio_val v (band_y s v (a + Z.of_nat k))) (seq 0 (S (Z.to_nat (b - a)))),
   map (fun k => Fin (band_y s v (a + Z.of_nat k))) (seq 0 (S (Z.to_nat (b - a))))).
Proof.
  intros Hab H. rewrite py_range_cons in H by exact Hab.
  cbn [Simulation.group_loop] in H. bind_inv H.
  destruct (calc_band_ok_trace _ _ _ _ _ E) as (tr & Htr & ->).
  rewrite (calc_band_trace_contour _ _ _ _ _ Htr) in H.
  assert (Hn : (a >? a)%Z = false) by (destruct (Z.gtb_spec a a); [lia | reflexivity]).
  cbn [fst snd] in H. rewrite Hn in H.
  assert (Hgt : forall n, In n (Simulation.py_range (a + 1) b) -> (a < n)%Z).
  { intros n Hn'. apply py_range_bounds in Hn'. lia. }
  rewrite (group_loop_cont_tail _ _ _ _ _ Hgt _ _ _ H).
  unfold Simulation.arr2_append, Simulation.arr2_empty. cbn [fst snd app].
  replace (Z.to_nat (b - a)) with (S (Z.to_nat (b - (a + 1)))) by lia.
  cbn [seq map]. rewrite !Z.add_0_r.
  unfold Simulation.py_range. rewrite !map_map.
  rewrite (map_seq_shift _ (fun k => radio_val v (band_y s v (a + Z.of_nat k))) 2%nat).
  rewrite (map_seq_shift _ (fun k => Fin (band_y s v (a + Z.of_nat k))) 2%nat).
  replace (a + Z.of_nat 1)%Z with (a + 1)%Z by lia.
  f_equal; do 2 f_equal; apply map_ext; intros i; do 2 f_equal; lia.
Qed.

(** ** A simulation on a plain valve *)

Lemma calc_band_trace_plain (gauss : Z -> nat -> R) (s : Simulation.t) (n : Z)
    (v : Valve.t) (p : R) :
  plain_valve v -> Simulation.sep_ms s = 1 -> Valve.v_max v = Fin p -> 0 < p ->
  (0 <= n < Simulation.bands s)%Z ->
  (0 <= Simulation.seed s + n < 2 ^ 32)%Z -> 0 <= Simulation.dispersion s ->
  exists tr, Simulation.calc_band_trace gauss s n v = Ok tr.
Proof.
  intros Hp Hsep Hv Hpp Hn Hseed Hd.
  pose proof Hp as (_ & Ho & Hw & Hl1 & HL & Hyr).
  assert (Hbz : IZR (Simulation.bands s) <> 0).
  { intros H. apply eq_IZR_R0 in H. lia. }
  pose proof (band_height_range v (Simulation.bands s) n Hp ltac:(lia) ltac:(lia)) as H1.
  pose proof (band_height_range v (Simulation.bands s) (n + 1) Hp ltac:(lia) ltac:(lia)) as H2.
  destruct (radio_plain_bounds v _ Hp (proj1 H1) (proj2 H1)) as (r1 & a1 & Hr1 & Ha1 & Hb1).
  destruct (radio_plain_bounds v _ Hp (proj1 H2) (proj2 H2)) as (r2 & a2 & Hr2 & Ha2 & Hb2).
  destruct (v_conteq_fin_ok r2 a2 v (Simulation.basal_velocity s) Ha2 ltac:(lra))
    as (vel & Hvel & _).
  eexists. apply (calc_band_trace_eq gauss s n v p r1 r2 vel); assumption.
Qed.

Lemma band_velocity_monotone_witness :
  exists tn tm xn xm,
    Simulation.calc_band_trace gauss_zero sim_ex 0 valve_ex_sim = Ok tn /\
    Simulation.calc_band_trace gauss_zero sim_ex 79 valve_ex_sim = Ok tm /\
    val (Simulation.bt_vel tn) = Fin xn /\ val (Simulation.bt_vel tm) = Fin xm /\
    Simulation.basal_velocity sim_ex <= xn /\ xn <= xm /\
    xm <= Simulation.basal_velocity sim_ex * Valve.rad valve_ex_sim ^ 2
          / (Valve.orif valve_ex_sim * Valve.orif valve_ex_sim).
Proof.
  destruct (calc_band_trace_plain gauss_zero sim_ex 0 valve_ex_sim 440
              (proj2 plain_valve_ex) eq_refl eq_refl ltac:(lra)
              ltac:(cbn [Simulation.bands sim_ex]; lia)
              ltac:(cbn [Simulation.seed sim_ex]; lia)
              ltac:(cbn [Simulation.dispersion sim_ex]; lra)) as [tn Htn].
  destruct (calc_band_trace_plain gauss_zero sim_ex 79 valve_ex_sim 440
              (proj2 plain_valve_ex) eq_refl eq_refl ltac:(lra)
              ltac:(cbn [Simulation.bands sim_ex]; lia)
              ltac:(cbn [Simulation.seed sim_ex]; lia)
              ltac:(cbn [Simulation.dispersion sim_ex]; lra)) as [tm Htm].
  destruct (band_velocity_monotone gauss_zero sim_ex valve_ex_sim 0 79 tn tm
              (proj2 plain_valve_ex)
              ltac:(cbn [Simulation.basal_velocity sim_ex]; lra)
              ltac:(lia) ltac:(lia)
              ltac:(cbn [Simulation.bands sim_ex]; lia) Htn Htm)
    as (xn & xm & H).
  exists tn, tm, xn, xm. split; [exact Htn|]. split; [exact Htm | exact H].
Defined.

Lemma length_concat_const {A : Type} (c : nat) (l : list (list A)) :
  Forall (fun x => List.length x = c) l ->
  List.length (List.concat l) = (c * List.length l)%nat.
Proof.
  induction 1 as [|x l Hx _ IH]; [cbn; lia|].
  cbn [List.concat List.length]. rewrite length_app, Hx, IH. lia.
Qed.

Lemma plain_group_loop (gauss : Z -> nat -> R) (s : Simulation.t)
    (v : Valve.t) (p : R) :
  plain_valve v -> Simulation.sep_ms s = 1 -> Valve.v_max v = Fin p -> 0 < p ->
  (0 <= Simulation.seed s)%Z -> (Simulation.seed s + Simulation.bands s <= 2 ^ 32)%Z ->
  0 <= Simulation.dispersion s ->
  (forall n, (0 <= n < Simulation.bands s)%Z ->
     exists tr, Simulation.calc_band_trace gauss s n v = Ok tr) /\
  exists r,
    Simulation.group_loop gauss s v 0 (Simulation.py_range 0 (Simulation.bands s))
      Simulation.arr2_empty Simulation.arr2_empty = Ok r.
Proof.
  intros Hp Hsep Hv Hpp Hs0 Hs1 Hd.
  assert (Hall : forall n, (0 <= n < Simulation.bands s)%Z ->
            exists tr, Simulation.calc_band_trace gauss s n v = Ok tr).
  { intros n Hn. apply (calc_band_trace_plain gauss s n v p); try assumption; lia. }
  split; [exact Hall|].
  apply group_loop_ok. intros n Hn. apply Hall. now apply py_range_bounds.
Qed.

Lemma calc_group_complete_eq (gauss : Z -> nat -> R) (s : Simulation.t)
    (v : Valve.t) (group : Z) (r : Simulation.arr2 * Simulation.arr2) :
  Valve.orif v <> 0 -> (Simulation.band_groups s <= group)%Z ->
  Simulation.group_loop gauss s v 0 (Simulation.py_range 0 (Simulation.bands s))
    Simulation.arr2_empty Simulation.arr2_empty = Ok r ->
  Simulation.calc_group gauss s group (Some v) =
  Ok ((fst (fst r) ++ map fneg (rev (fst (fst r))), snd (fst r) ++ rev (snd (fst r))),
      snd r).
Proof.
  intros Ho Hg Hr. unfold Simulation.calc_group. cbn [bind].
  rewrite v_conteq_py_fin by exact Ho. cbn [bind].
  destruct (Z.geb_spec group (Simulation.band_groups s)) as [_|Hn]; [| lia].
  cbn [bind fst snd]. rewrite Hr. cbn [bind]. reflexivity.
Qed.

(** When [calc_group] returns the complete figure of a plain valve
    (sep_ms = 1, a positive v_max, at least one band), the polygon is the
    right side followed by its mirror image, the right side has one
    vertex per band boundary (bands + 1, the vertex shared by two bands
    once): the k-th at height -k * (y_range / bands) with the radius of
    the valve there, between orif and rad and rad at the top; and the
    cloud has 601 points per band.  That the call returns is a
    hypothesis: at the valve tip the radius depends on the rounding of
    the last boundary. *)
Theorem calc_group_complete_shape (gauss : Z -> nat -> R) (s : Simulation.t)
    (v : Valve.t) (p : R) (group : Z) (polig pts : Simulation.arr2) :
  plain_valve v -> Simulation.sep_ms s = 1 -> Valve.v_max v = Fin p -> 0 < p ->
  (1 <= Simulation.bands s)%Z -> (Simulation.band_groups s <= group)%Z ->
  Simulation.calc_group gauss s group (Some v) = Ok (polig, pts) ->
  exists xs ys,
    polig = (xs ++ map fneg (rev xs), ys ++ rev ys) /\
    xs = map (fun k => radio_val v (band_y s v (Z.of_nat k)))
             (seq 0 (S (Z.to_nat (Simulation.bands s)))) /\
    ys = map (fun k => Fin (band_y s v (Z.of_nat k)))
             (seq 0 (S (Z.to_nat (Simulation.bands s)))) /\
    Forall (fun x => exists a, x = Fin a /\ Valve.orif v <= a <= Valve.rad v) xs /\
    nth 0 xs NaN = Fin (Valve.rad v) /\
    nth 0 ys NaN = Fin 0 /\
    List.length (fst pts) = (601 * Z.to_nat (Simulation.bands s))%nat /\
    List.length (snd pts) = (601 * Z.to_nat (Simulation.bands s))%nat.
Proof.
  intros Hp Hsep Hv Hpp Hb Hg H.
  pose proof Hp as (_ & Ho & Hw & Hl1 & HL & Hyr).
  unfold Simulation.calc_group in H. cbn [bind] in H. bind_inv H.
  destruct (Z.geb_spec group (Simulation.band_groups s)) as [_|Hlt]; [| lia].
  cbn [bind fst snd] in H. bind_inv H.
  rename x into vmax. rename x0 into r. rename E0 into Hr.
  apply Ok_inj in H.
  assert (Hpol : polig = (fst (fst r) ++ map fneg (rev (fst (fst r))),
                          snd (fst r) ++ rev (snd (fst r))))
    by (apply (f_equal fst) in H; symmetry; exact H).
  assert (Hcloud : pts = snd r) by (apply (f_equal snd) in H; symmetry; exact H).
  clear H.
  pose proof (group_loop_cont_range gauss s v 0 (Simulation.bands s) r ltac:(lia) Hr) as Hc.
  pose proof (group_loop_points _ _ _ _ _ _ _ _ Hr) as Hpt.
  rewrite fold_left_arr2_append in Hpt.
  set (N := Z.to_nat (Simulation.bands s)) in *.
  assert (HN : Z.of_nat N = Simulation.bands s) by (unfold N; lia).
  assert (Hc' : fst r =
            (map (fun k => radio_val v (band_y s v (Z.of_nat k))) (seq 0 (S N)),
             map (fun k => Fin (band_y s v (Z.of_nat k))) (seq 0 (S N)))).
  { rewrite Hc, Z.sub_0_r. fold N.
    f_equal; apply map_ext; intros k; now rewrite Z.add_0_l. }
  clear Hc.
  exists (fst (fst r)), (snd (fst r)).
  split; [exact Hpol|].
  rewrite Hc'. cbn [fst snd].
  split; [reflexivity|]. split; [reflexivity|].
  assert (Hy0 : band_y s v (Z.of_nat (0 + 0)) = 0)
    by (unfold band_y; cbn [Nat.add Z.of_nat]; ring).
  split.
  { apply Forall_forall. intros x Hx. apply in_map_iff in Hx.
    destruct Hx as (k & <- & Hk). apply in_seq in Hk.
    pose proof (band_height_range v (Simulation.bands s) (Z.of_nat k) Hp
                  ltac:(lia) Hb) as Hy.
    destruct (radio_plain_bounds v _ Hp (proj1 Hy) (proj2 Hy)) as (r0 & a & Hr0 & Ha & Hab).
    exists a. unfold radio_val, band_y. rewrite Hr0. split; assumption. }
  split.
  { rewrite nth_map_default with (d' := 0%nat) by (rewrite length_seq; lia).
    rewrite seq_nth by lia. rewrite Hy0.
    unfold radio_val. rewrite radio_lvot by lra. reflexivity. }
  split.
  { rewrite nth_map_default with (d' := 0%nat) by (rewrite length_seq; lia).
    rewrite seq_nth by lia. now rewrite Hy0. }
  assert (Hpts : Forall (fun n =>
            List.length (fst (band_points gauss s v n)) = 601%nat /\
            List.length (snd (band_points gauss s v n)) = 601%nat)
            (Simulation.py_range 0 (Simulation.bands s))).
  { apply Forall_forall. intros n Hn.
    destruct (group_loop_all_ok _ _ _ _ _ _ _ _ Hr n Hn) as [cp Hcp].
    destruct (calc_band_ok_trace _ _ _ _ _ Hcp) as (tr & Htr & _).
    destruct (cloud_keeps_undefined gauss s n v p tr Hsep Hv Hpp Htr) as (H1 & H2 & _).
    unfold band_points, Simulation.calc_band. rewrite Htr. cbn [bind snd].
    split; assumption. }
  rewrite Hcloud, Hpt. cbn [fst snd Simulation.arr2_empty app].
  assert (HlenR : List.length (Simulation.py_range 0 (Simulation.bands s)) = N).
  { rewrite py_range_length, Z.sub_0_r. reflexivity. }
  split.
  - rewrite (length_concat_const 601).
    + now rewrite !length_map, HlenR.
    + apply Forall_forall. intros x Hx. rewrite map_map in Hx. apply in_map_iff in Hx.
      destruct Hx as (n & <- & Hn).
      rewrite Forall_forall in Hpts. exact (proj1 (Hpts n Hn)).
  - rewrite (length_concat_const 601).
    + now rewrite !length_map, HlenR.
    + apply Forall_forall. intros x Hx. rewrite map_map in Hx. apply in_map_iff in Hx.
      destruct Hx as (n & <- & Hn).
      rewrite Forall_forall in Hpts. exact (proj2 (Hpts n Hn)).
Qed.

(** ** The groups partition the figure *)

Lemma py_index_map_seq {A : Type} (f : nat -> A) (G : nat) (i : Z) :
  (0 <= i < Z.of_nat G)%Z -> py_index (map f (seq 0 G)) i = Ok (f (Z.to_nat i)).
Proof.
  intros Hi. unfold py_index. rewrite length_map, length_seq.
  destruct (Z.ltb_spec i 0) as [|_]; [lia|].
  destruct (Z.leb_spec 0 i) as [_|]; [| lia].
  destruct (Z.ltb_spec i (Z.of_nat G)) as [_|]; [| lia].
  cbn [andb].
  rewrite (nth_error_nth' _ (f 0%nat)) by (rewrite length_map, length_seq; lia).
  rewrite nth_map_default with (d' := 0%nat) by (rewrite length_seq; lia).
  rewrite seq_nth by lia. reflexivity.
Qed.

Lemma arr2_concat_app (l1 l2 : list Simulation.arr2) :
  arr2_concat (l1 ++ l2) = Simulation.arr2_append (arr2_concat l1) (arr2_concat l2).
Proof.
  unfold arr2_concat. rewrite !fold_left_arr2_append.
  unfold Simulation.arr2_append, Simulation.arr2_empty. cbn [fst snd app].
  now rewrite !map_app, !concat_app.
Qed.

Lemma arr2_concat_ranges (bp : Z -> Simulation.arr2) (lim : Z -> Z) (G : nat) :
  (forall k, (0 <= k)%Z -> (lim k <= lim (k + 1))%Z) ->
  (lim 0 <= lim (Z.of_nat G))%Z /\
  arr2_concat
    (map (fun g => arr2_concat
                     (map bp (Simulation.py_range (lim (Z.of_nat g)) (lim (Z.of_nat g + 1)%Z))))
         (seq 0 G))
  = arr2_concat (map bp (Simulation.py_range (lim 0%Z) (lim (Z.of_nat G)))).
Proof.
  intros Hmono. induction G as [|G [IHle IH]].
  - split; [cbn; lia|]. cbn [seq map Z.of_nat].
    unfold Simulation.py_range. rewrite Z.sub_diag. reflexivity.
  - assert (Hstep : (lim (Z.of_nat G) <= lim (Z.of_nat (S G)))%Z).
    { replace (Z.of_nat (S G)) with (Z.of_nat G + 1)%Z by lia. apply Hmono. lia. }
    split; [lia|].
    rewrite seq_S, map_app, arr2_concat_app, IH. cbn [Nat.add map].
    rewrite (py_range_app (lim 0%Z) (lim (Z.of_nat G)) (lim (Z.of_nat (S G)))) by assumption.
    rewrite map_app, arr2_concat_app.
    replace (Z.of_nat (S G)) with (Z.of_nat G + 1)%Z by lia.
    f_equal. unfold arr2_concat at 1. cbn [fold_left].
    unfold Simulation.arr2_append, Simulation.arr2_empty. cbn [fst snd app].
    symmetry. apply surjective_pairing.
Qed.

(** In a simulation whose group limits are those of [band_grouping], with
    at least one group and bands >= 0: when [calc_group] returns the
    complete figure, it returns for every group as well, and the clouds
    of the groups 0 .. band_groups-1, appended in order, are the cloud of
    the complete figure. *)
Theorem calc_group_partition (gauss : Z -> nat -> R) (s : Simulation.t)
    (v : Valve.t) (polig pts : Simulation.arr2) :
  Simulation.band_grouping (Simulation.bands s) (Simulation.band_groups s)
    = Ok (Simulation.group_limits s) ->
  (1 <= Simulation.band_groups s)%Z -> (0 <= Simulation.bands s)%Z ->
  Simulation.calc_group gauss s (Simulation.band_groups s) (Some v) = Ok (polig, pts) ->
  exists parts : list Simulation.arr2,
    List.length parts = Z.to_nat (Simulation.band_groups s) /\
    (forall g, (g < Z.to_nat (Simulation.band_groups s))%nat ->
       exists pg,
         Simulation.calc_group gauss s (Z.of_nat g) (Some v)
           = Ok (pg, nth g parts Simulation.arr2_empty)) /\
    arr2_concat parts = pts.
Proof.
  intros Hlim HG Hb H.
  set (G := Z.to_nat (Simulation.band_groups s)).
  set (q := (Simulation.bands s / Simulation.band_groups s)%Z).
  set (r := (Simulation.bands s mod Simulation.band_groups s)%Z).
  assert (HGz : Z.of_nat G = Simulation.band_groups s) by (unfold G; lia).
  assert (Hr : (0 <= r < Simulation.band_groups s)%Z) by (apply Z.mod_pos_bound; lia).
  assert (Hq : (0 <= q)%Z) by (apply Z.div_pos; lia).
  assert (Hbq : Simulation.bands s = (Simulation.band_groups s * q + r)%Z)
    by (apply Z.div_mod; lia).
  set (lim := fun k : Z => (k * q + Z.min k r)%Z).
  assert (Hlimits : Simulation.group_limits s
                    = map (fun k => lim (Z.of_nat k + 1)%Z) (seq 0 G)).
  { unfold Simulation.band_grouping in Hlim.
    destruct (Z.eqb_spec (Simulation.band_groups s) 0); [lia|].
    apply Ok_inj in Hlim. rewrite <- Hlim. fold q r G.
    rewrite grouping_loop_closed by lia.
    apply map_ext. intros k. unfold lim. lia. }
  assert (Hmono : forall k, (0 <= k)%Z -> (lim k <= lim (k + 1))%Z).
  { intros k Hk. unfold lim. lia. }
  assert (Hlim0 : lim 0%Z = 0%Z) by (unfold lim; lia).
  assert (HlimG : lim (Z.of_nat G) = Simulation.bands s).
  { unfold lim. rewrite HGz. lia. }
  assert (Hbound : forall k, (0 <= k <= Z.of_nat G)%Z -> (0 <= lim k <= Simulation.bands s)%Z).
  { intros k Hk. unfold lim. rewrite HGz in Hk. split; [nia|]. rewrite Hbq. nia. }
  (* the complete call *)
  unfold Simulation.calc_group in H. cbn [bind] in H. bind_inv H.
  destruct (Z.geb_spec (Simulation.band_groups s) (Simulation.band_groups s)) as [_|Hn];
    [| lia].
  cbn [bind fst snd] in H. bind_inv H.
  apply Ok_inj in H. apply (f_equal snd) in H. cbn [snd] in H.
  pose proof (group_loop_points _ _ _ _ _ _ _ _ E0) as Hall_pts.
  assert (Hok : forall n, (0 <= n < Simulation.bands s)%Z ->
            exists tr, Simulation.calc_band_trace gauss s n v = Ok tr).
  { intros n Hn.
    destruct (group_loop_all_ok _ _ _ _ _ _ _ _ E0 n (py_range_In _ _ _ Hn)) as [cp Hcp].
    destruct (calc_band_ok_trace _ _ _ _ _ Hcp) as (tr & Htr & _). now exists tr. }
  set (bp := band_points gauss s v) in *.
  exists (map (fun g => arr2_concat
                 (map bp (Simulation.py_range (lim (Z.of_nat g)) (lim (Z.of_nat g + 1)%Z))))
              (seq 0 G)).
  split; [now rewrite length_map, length_seq|].
  split.
  - intros g Hg.
    rewrite nth_map_default with (d' := 0%nat) by (rewrite length_seq; exact Hg).
    rewrite seq_nth by exact Hg. rewrite Nat.add_0_l.
    unfold Simulation.calc_group. cbn [bind]. rewrite E. cbn [bind].
    destruct (Z.geb_spec (Z.of_nat g) (Simulation.band_groups s)) as [Hge|_]; [lia|].
    assert (Hb0 : (if (Z.of_nat g =? 0)%Z then Ok 0%Z
                   else py_index (Simulation.group_limits s) (Z.of_nat g - 1))
                  = Ok (lim (Z.of_nat g))).
    { destruct (Z.eqb_spec (Z.of_nat g) 0) as [->|Hne]; [now rewrite Hlim0|].
      rewrite Hlimits, py_index_map_seq by lia. do 2 f_equal. lia. }
    assert (Hbn : py_index (Simulation.group_limits s) (Z.of_nat g)
                  = Ok (lim (Z.of_nat g + 1)%Z)).
    { rewrite Hlimits, py_index_map_seq by lia. do 3 f_equal. lia. }
    rewrite Hb0. cbn [bind]. rewrite Hbn. cbn [bind fst snd].
    destruct (group_loop_ok gauss s v (lim (Z.of_nat g))
                (Simulation.py_range (lim (Z.of_nat g)) (lim (Z.of_nat g + 1)%Z)))
      with (cont := Simulation.arr2_empty) (points := Simulation.arr2_empty)
      as [r' Hr'].
    { intros n Hn. apply py_range_bounds in Hn. apply Hok.
      pose proof (Hbound (Z.of_nat g) ltac:(lia)).
      pose proof (Hbound (Z.of_nat g + 1)%Z ltac:(lia)). lia. }
    rewrite Hr'. cbn [bind]. eexists. do 2 f_equal.
    rewrite (group_loop_points _ _ _ _ _ _ _ _ Hr'). reflexivity.
  - destruct (arr2_concat_ranges bp lim G Hmono) as [_ Hcat].
    rewrite Hcat, Hlim0, HlimG, <- H, Hall_pts. reflexivity.
Qed.

Lemma calc_group_complete_ok (gauss : Z -> nat -> R) (s : Simulation.t)
    (v : Valve.t) (p : R) :
  plain_valve v -> Simulation.sep_ms s = 1 -> Valve.v_max v = Fin p -> 0 < p ->
  (0 <= Simulation.seed s)%Z -> (Simulation.seed s + Simulation.bands s <= 2 ^ 32)%Z ->
  0 <= Simulation.dispersion s ->
  exists polig pts,
    Simulation.calc_group gauss s (Simulation.band_groups s) (Some v) = Ok (polig, pts).
Proof.
  intros Hp Hsep Hv Hpp Hs0 Hs1 Hd.
  pose proof Hp as (_ & Ho & _).
  destruct (plain_group_loop gauss s v p Hp Hsep Hv Hpp Hs0 Hs1 Hd) as (_ & r & Hr).
  eexists _, _. apply calc_group_complete_eq; [lra | lia | exact Hr].
Qed.

Lemma calc_group_complete_shape_witness :
  exists polig pts xs ys,
    Simulation.calc_group gauss_zero sim_ex (Simulation.band_groups sim_ex)
      (Some valve_ex_sim) = Ok (polig, pts) /\
    polig = (xs ++ map fneg (rev xs), ys ++ rev ys) /\
    xs = map (fun k => radio_val valve_ex_sim (band_y sim_ex valve_ex_sim (Z.of_nat k)))
             (seq 0 (S (Z.to_nat (Simulation.bands sim_ex)))) /\
    ys = map (fun k => Fin (band_y sim_ex valve_ex_sim (Z.of_nat k)))
             (seq 0 (S (Z.to_nat (Simulation.bands sim_ex)))) /\
    Forall (fun x => exists a, x = Fin a /\
                      Valve.orif valve_ex_sim <= a <= Valve.rad valve_ex_sim) xs /\
    nth 0 xs NaN = Fin (Valve.rad valve_ex_sim) /\
    nth 0 ys NaN = Fin 0 /\
    List.length (fst pts) = (601 * Z.to_nat (Simulation.bands sim_ex))%nat /\
    List.length (snd pts) = (601 * Z.to_nat (Simulation.bands sim_ex))%nat.
Proof.
  destruct (calc_group_complete_ok gauss_zero sim_ex valve_ex_sim 440
              (proj2 plain_valve_ex) eq_refl eq_refl ltac:(lra)
              ltac:(cbn [Simulation.seed sim_ex]; lia)
              ltac:(cbn [Simulation.seed Simulation.bands sim_ex]; lia)
              ltac:(cbn [Simulation.dispersion sim_ex]; lra))
    as (polig & pts & H).
  destruct (calc_group_complete_shape gauss_zero sim_ex valve_ex_sim 440
              (Simulation.band_groups sim_ex) polig pts
              (proj2 plain_valve_ex) eq_refl eq_refl ltac:(lra)
              ltac:(cbn [Simulation.bands sim_ex]; lia) ltac:(lia) H)
    as (xs & ys & Hshape).
  exists polig, pts, xs, ys. split; [exact H | exact Hshape].
Defined.

Lemma calc_group_partition_witness :
  exists polig pts parts,
    Simulation.calc_group gauss_zero sim_ex (Simulation.band_groups sim_ex)
      (Some valve_ex_sim) = Ok (polig, pts) /\
    List.length parts = Z.to_nat (Simulation.band_groups sim_ex) /\
    (forall g, (g < Z.to_nat (Simulation.band_groups sim_ex))%nat ->
       exists pg,
         Simulation.calc_group gauss_zero sim_ex (Z.of_nat g) (Some valve_ex_sim)
           = Ok (pg, nth g parts Simulation.arr2_empty)) /\
    arr2_concat parts = pts.
Proof.
  destruct (calc_group_complete_ok gauss_zero sim_ex valve_ex_sim 440
              (proj2 plain_valve_ex) eq_refl eq_refl ltac:(lra)
              ltac:(cbn [Simulation.seed sim_ex]; lia)
              ltac:(cbn [Simulation.seed Simulation.bands sim_ex]; lia)
              ltac:(cbn [Simulation.dispersion sim_ex]; lra))
    as (polig & pts & H).
  destruct (calc_group_partition gauss_zero sim_ex valve_ex_sim polig pts
              band_grouping_80_10
              ltac:(cbn [Simulation.band_groups sim_ex]; lia)
              ltac:(cbn [Simulation.bands sim_ex]; lia) H)
    as (parts & Hparts).
  exists polig, pts, parts. split; [exact H | exact Hparts].
Defined.

(** ** Valves that the simulation cannot draw *)












(** ** The valve tip in binary64 *)

(** At the valve tip the branch of [radio] is decided by rounding.  The
    contour of [Valve(l1=5, length=1.2)] ends exactly at (orif, -length);
    [radio] asked at the tip -(l1+length) computes y_ = y + l1 one step
    below -length, selects no interval and returns the 0.0 it was
    initialised with.  The last band of a simulation of 600 bands ends at
    the tip, reads that radius and raises ZeroDivisionError, as the last
    band does for 582 of the band counts 100 .. 800; on the default
    [Valve()] it does for none.  On the trimmed cusp
    [Valve(ava=pi/4, trim_factor=0.5)] the last band of 80 bands ends at
    the tip and raises, and the last boundary of 113 bands rounds below
    the tip: [radio] answers orif from its tolerance band and the band has
    the velocity v_max = 440.  In the same way every band of 19 bands on
    [Valve(l1=20, length=1, ava=pi/4, shape='blob')] gets a velocity,
    though [line] raises for that shape: the boundaries above the last
    lie in the LVOT and the last one rounds below the tip. *)
Theorem valve_tip_rounding :
  (exists xs ys,
     B64.line B64.valve_short = Ok (xs, ys) /\
     nth 9 xs PrimFloat.nan = B64.orif B64.valve_short /\
     nth 9 ys PrimFloat.nan = PrimFloat.opp (B64.length B64.valve_short)) /\
  B64.radio B64.valve_short (B64.tip_height B64.valve_short)
    = Ok (B64.Py (B64.float_of_Z 0)) /\
  B64.last_band B64.valve_short 600 (B64.float_of_Z 110) = Raise ZeroDivisionError /\
  List.length (filter (B64.last_band_raises B64.valve_short) B64.band_counts) = 582%nat /\
  List.length (filter (B64.last_band_raises B64.valve_default) B64.band_counts) = 0%nat /\
  B64.last_band B64.valve_trimmed 80 (B64.float_of_Z 110) = Raise ZeroDivisionError /\
  (exists y_2,
     B64.last_band B64.valve_trimmed 113 (B64.float_of_Z 110)
       = Ok (y_2, B64.Py (B64.orif B64.valve_trimmed), B64.float_of_Z 440) /\
     PrimFloat.ltb y_2 (B64.tip_height B64.valve_trimmed) = true) /\
  B64.line B64.valve_blob = Raise UnboundLocalError /\
  B64.all_bands_return B64.valve_blob 19 = true /\
  (exists y_2,
     B64.last_band B64.valve_blob 19 (B64.float_of_Z 110)
       = Ok (y_2, B64.Py (B64.orif B64.valve_blob), B64.float_of_Z 440) /\
     PrimFloat.ltb y_2 (B64.tip_height B64.valve_blob) = true).
Proof.
  split; [eexists _, _; split; [lazy; reflexivity | split; vm_compute; reflexivity]|].
  split; [vm_compute; reflexivity|].
  split; [vm_compute; reflexivity|].
  split; [vm_compute; reflexivity|].
  split; [vm_compute; reflexivity|].
  split; [vm_compute; reflexivity|].
  split; [eexists; split; [lazy; reflexivity | vm_compute; reflexivity]|].
  split; [vm_compute; reflexivity|].
  split; [vm_compute; reflexivity|].
  eexists. split; [lazy; reflexivity | vm_compute; reflexivity].
Qed.
